(** * Robot-arm sketches: interpolated moves between poses

    A shallow embedding of the two Arduino sketches of the repository,
    [Main_Code/Main_Code.ino] (the pick-and-place tasks) and the servo
    debug sketch (commands [r] and [d]).  Both drive five hobby servos
    through [writePose] and [moveToPose]; they differ in the joint limits,
    in whether the gripper angle is clamped, and in where the interpolated
    value is converted back to [int].

    - [int] is the 32-bit two's-complement integer of the ESP targets the
      sketches are wired for; arithmetic results are wrapped into range.
    - [float] is IEEE-754 binary32: every operation returns the exact
      rational result rounded to nearest, ties to even.
    - Servo writes, delays, serial output and stores to the global
      [currentPose] are recorded, in order, in a trace.
    - [setup], [loop] and the four tasks are embedded as well: the serial
      input is the list of bytes received, and [run] stands for the core
      calling [loop()] again and again. *)

From Stdlib Require Import ZArith QArith Qround Qabs Qpower Lia Lqa SpecFloat.
From Stdlib Require Import List Bool String Ascii.
Import ListNotations.

Local Open Scope Z_scope.

(** ** 32-bit [int]

    C++ leaves signed overflow undefined; the targets compute modulo
    2^32, which [wrap] writes out.  Statements that read the arithmetic
    over the integers say where they need the results to fit. *)

Module Int32.

Definition INT_MIN : Z := - 2 ^ 31.
Definition INT_MAX : Z := 2 ^ 31 - 1.

Definition in_range (z : Z) : Prop := INT_MIN <= z <= INT_MAX.

Definition wrap (z : Z) : Z := (z + 2 ^ 31) mod 2 ^ 32 - 2 ^ 31.

Definition add (a b : Z) : Z := wrap (a + b).
Definition sub (a b : Z) : Z := wrap (a - b).
Definition neg (a : Z) : Z := wrap (- a).

(** Arduino's [abs] is the macro [((x)>0?(x):-(x))]. *)
Definition abs (x : Z) : Z := if x >? 0 then x else neg x.

(** [a / b] truncates toward zero; a zero divisor has no result. *)
Definition div (a b : Z) : option Z :=
  if b =? 0 then None else Some (wrap (Z.quot a b)).

End Int32.

(** ** binary32 [float] *)

Module Float32.

Local Open Scope Q_scope.

Definition prec : Z := 24.
Definition emin : Z := -149.

(** A [float] is the rational it denotes.  The operands of this program
    are [int] values and quotients of them by a positive step count, so
    every result is finite and far below the largest binary32 number:
    infinities and NaN do not occur.  Each operation is rounded on its
    own, as the software floating point of the target does. *)
Definition float : Type := Q.

(** [mag x] is the [k] with [2^(k-1) <= x < 2^k], for [x > 0]. *)
Definition mag (x : Q) : Z :=
  let k := (Z.log2 (Qnum x) - Z.log2 (Zpos (Qden x)))%Z in
  if Qle_bool (2 ^ k) x then (k + 1)%Z else k.

(** Exponent of the last place of the binary32 numbers around [x]. *)
Definition ulp_exp (x : Q) : Z := Z.max (mag x - prec) emin.

(** Nearest integer, ties to even. *)
Definition rne (y : Q) : Z :=
  let n := Qfloor (y + (1 # 2)) in
  if Qeq_bool (y + (1 # 2)) (inject_Z n) && Z.odd n then (n - 1)%Z else n.

Definition round_pos (x : Q) : Q :=
  let e := ulp_exp x in
  Qred (inject_Z (rne (x / 2 ^ e)) * 2 ^ e).

(** Round to nearest binary32 number, ties to even. *)
Definition round (x : Q) : float :=
  match Qcompare x 0 with
  | Eq => 0
  | Gt => round_pos x
  | Lt => Qred (- round_pos (- x))
  end.

Definition of_int (n : Z) : float := round (inject_Z n).
Definition add (x y : float) : float := round (x + y).
Definition mul (x y : float) : float := round (x * y).
Definition div (x y : float) : float := round (x / y).

(** Conversion to an integer discards the fractional part. *)
Definition trunc (x : float) : Z :=
  if Qle_bool 0 x then Qfloor x else Qceiling x.

(** A value beyond the range of [int] has no defined conversion; it is
    wrapped like every other [int] result. *)
Definition to_int (x : float) : Z := Int32.wrap (trunc x).

End Float32.

(** ** The standard library's binary32, for comparison

    [SpecFloat] implements IEEE-754 arithmetic on sign, mantissa and
    exponent.  Instantiated at 24 bits of precision and exponent limit
    128 it is binary32; its results, read as rationals, are compared with
    [Float32]: by computation on sample operands, and by proof for every
    operand the interpolation can meet. *)

Module Binary32Reference.

Definition of_int (n : Z) : spec_float := binary_normalize 24 128 n 0 false.
Definition add : spec_float -> spec_float -> spec_float := SFadd 24 128.
Definition mul : spec_float -> spec_float -> spec_float := SFmul 24 128.
Definition div : spec_float -> spec_float -> spec_float := SFdiv 24 128.

Definition value (x : spec_float) : Q :=
  match x with
  | S754_finite s m e =>
      Qred ((if s then - inject_Z (Zpos m) else inject_Z (Zpos m)) * 2 ^ e)%Q
  | _ => 0%Q
  end.

(** Both ways of computing the two interpolation expressions agree. *)
Definition agree (start delta i steps : Z) : bool :=
  let t := div (of_int i) (of_int steps) in
  let p := mul (of_int delta) t in
  Qeq_bool (value t) (Float32.div (Float32.of_int i) (Float32.of_int steps))
  && Qeq_bool (value p)
       (Float32.mul (Float32.of_int delta)
          (Float32.div (Float32.of_int i) (Float32.of_int steps)))
  && Qeq_bool (value (add (of_int start) p))
       (Float32.add (Float32.of_int start)
          (Float32.mul (Float32.of_int delta)
             (Float32.div (Float32.of_int i) (Float32.of_int steps)))).

Definition sample_steps : list (Z * Z) :=
  flat_map (fun n => map (fun i => (Z.of_nat i, Z.of_nat n)) (seq 1 n))
           (seq 1 24).

Definition sample_moves : list (Z * Z) :=
  [ (90, -5); (0, 44); (180, -179); (0, 108); (60, 40); (120, -15);
    (0, 16777219); (-7, 33554431); (2147483647, -2147483647) ].

Definition agree_on_samples : bool :=
  forallb (fun '(start, delta) =>
             forallb (fun '(i, steps) => agree start delta i steps) sample_steps)
          sample_moves.

End Binary32Reference.

(** ** Reading [SpecFloat] numbers as rationals

    The vocabulary that relates a [spec_float] and the rounding state of
    [SpecFloat] to the rational they stand for. *)

Module Binary32Format.

Local Open Scope Q_scope.

(** The exponent binary32 prescribes for a number of magnitude [e]. *)
Definition fexp32 (e : Z) : Z := fexp 24 128 e.

(** Mantissa [m] carries exponent [e] in the binary32 format. *)
Definition canonical (m e : Z) : Prop := fexp32 (Zdigits2 m + e) = e.

(** A zero or a finite number in the format; no infinity, no NaN. *)
Definition valid (x : spec_float) : Prop :=
  match x with
  | S754_finite _ m e => canonical (Zpos m) e
  | S754_zero _ => True
  | _ => False
  end.

Definition signed (s : bool) (x : Q) : Q := if s then - x else x.

(** [y] lies where the mantissa, round bit and sticky bit of [mrs] say:
    at [m], strictly between [m] and [m + 1/2], at [m + 1/2], or strictly
    between [m + 1/2] and [m + 1]. *)
Definition located (y : Q) (mrs : shr_record) : Prop :=
  (0 <= shr_m mrs)%Z /\
  match shr_r mrs, shr_s mrs with
  | false, false => y == inject_Z (shr_m mrs)
  | false, true => inject_Z (shr_m mrs) < y /\ y < inject_Z (shr_m mrs) + (1 # 2)
  | true, false => y == inject_Z (shr_m mrs) + (1 # 2)
  | true, true => inject_Z (shr_m mrs) + (1 # 2) < y /\ y < inject_Z (shr_m mrs) + 1
  end.

End Binary32Format.

(** ** Poses, servos and the observable trace *)

Record Pose : Type := mkPose {
  base : Z;
  shoulder : Z;
  elbow : Z;
  wrist : Z;
  gripper : Z
}.

Inductive Servo : Type :=
  baseServo | shoulderServo | elbowServo | wristServo | gripperServo.

(** What the sketch does to the outside world, plus stores to the global
    [currentPose]. *)
Inductive event : Type :=
| ServoWrite (s : Servo) (angle : Z)
| Delay (ms : Z)
| SerialPrint (msg : string)
| SerialPrintln (msg : string)
| SerialPrintlnInt (n : Z)
| StoreCurrentPose (p : Pose).

Record state : Type := mkState {
  currentPose : Pose;
  trace : list event
}.

Definition emit (evs : list event) (st : state) : state :=
  mkState (currentPose st) (trace st ++ evs).

Definition store_currentPose (p : Pose) (st : state) : state :=
  mkState p (trace st ++ [StoreCurrentPose p]).

(** A run ends normally, traps on an integer division by zero, or is cut
    off by the step budget of the model. *)
Inductive outcome : Type :=
| Done (st : state)
| DivisionByZero
| OutOfFuel.

Definition terminates (run : nat -> outcome) (st' : state) : Prop :=
  exists fuel, run fuel = Done st'.

(** Statements in sequence: what follows a call runs only when the call
    returns. *)
Definition and_then (o : outcome) (k : state -> outcome) : outcome :=
  match o with
  | Done st => k st
  | stop => stop
  end.

Declare Scope sketch_scope.
Delimit Scope sketch_scope with sketch.
Notation "st <- o ;; k" := (and_then o (fun st => k))
  (at level 61, o at next level, right associativity) : sketch_scope.

(** *** The board before the first command

    [Serial.begin] and [Servo::attach] configure the board; [setup] makes
    all these calls before it writes to a servo or prints. *)

Inductive pin : Type :=
| D (n : Z)       (* a board pin name, [D1] .. [D5] *)
| GPIO (n : Z).   (* a plain GPIO number *)

Inductive board_call : Type :=
| SerialBegin (baud : Z)
| ServoAttach (s : Servo) (p : pin).

(** *** Serial input

    The bytes the serial port delivers, oldest first.  [Serial.available()]
    is positive when there is one, [Serial.read()] takes the first.
    [Serial.readStringUntil(t)] takes bytes up to the terminator [t],
    which it discards, or everything there is when no terminator comes
    before its timeout. *)

Fixpoint readStringUntil (terminator : ascii) (input : list ascii)
    : list ascii * list ascii :=
  match input with
  | [] => ([], [])
  | c :: rest =>
      if Ascii.eqb c terminator then ([], rest)
      else let '(s, rest') := readStringUntil terminator rest in (c :: s, rest')
  end.

(** The core calls [loop()] again and again; [run n] is its first [n]
    calls, [fuel] the step budget of each move inside them. *)
Fixpoint run (loop : nat -> list ascii -> state -> list ascii * outcome)
    (n fuel : nat) (input : list ascii) (st : state) : list ascii * outcome :=
  match n with
  | O => (input, Done st)
  | S n' =>
      match loop fuel input st with
      | (rest, Done st') => run loop n' fuel rest st'
      | stop => stop
      end
  end.

(** ** Helpers shared by both sketches *)

Definition max5 (a b c d e : Z) : Z :=
  let m := a in
  let m := if b >? m then b else m in
  let m := if c >? m then c else m in
  let m := if d >? m then d else m in
  let m := if e >? m then e else m in
  m.

Definition clampAngle (angle minVal maxVal : Z) : Z :=
  if angle <? minVal then minVal
  else if angle >? maxVal then maxVal
  else angle.

(** The five [delta...] locals of [moveToPose], kept as a pose. *)
Definition deltas (start target : Pose) : Pose :=
  mkPose (Int32.sub (base target) (base start))
         (Int32.sub (shoulder target) (shoulder start))
         (Int32.sub (elbow target) (elbow start))
         (Int32.sub (wrist target) (wrist start))
         (Int32.sub (gripper target) (gripper start)).

Definition maxDelta (d : Pose) : Z :=
  max5 (Int32.abs (base d)) (Int32.abs (shoulder d)) (Int32.abs (elbow d))
       (Int32.abs (wrist d)) (Int32.abs (gripper d)).

(** [int steps = maxDelta / stepSize; if (steps < 1) steps = 1;] *)
Definition stepCount (maxDelta stepSize : Z) : option Z :=
  match Int32.div maxDelta stepSize with
  | None => None
  | Some steps => Some (if steps <? 1 then 1 else steps)
  end.

(** [float t = (float)i / (float)steps;] *)
Definition fraction (i steps : Z) : Float32.float :=
  Float32.div (Float32.of_int i) (Float32.of_int steps).

(** The two sketches convert the interpolated angle back to [int] at
    different places. [start + delta * t] assigned to an [int] adds in
    [float] and truncates the sum; [start + (int)(delta * t)] truncates
    the product and adds in [int]. *)
Definition lerp_implicit (start delta : Z) (t : Float32.float) : Z :=
  Float32.to_int
    (Float32.add (Float32.of_int start) (Float32.mul (Float32.of_int delta) t)).

Definition lerp_cast (start delta : Z) (t : Float32.float) : Z :=
  Int32.add start (Float32.to_int (Float32.mul (Float32.of_int delta) t)).

(** ** The interpolator, generic in what differs between the sketches *)

Section Interpolator.

(** The five servo commands of one [writePose] call. *)
Variable servoWrites : Pose -> list event.
(** The expression assigned to each field of [intermediate]. *)
Variable lerp : Z -> Z -> Float32.float -> Z.

Definition writePose (p : Pose) (st : state) : state :=
  emit (servoWrites p) st.

Definition intermediate (start delta : Pose) (i steps : Z) : Pose :=
  let t := fraction i steps in
  mkPose (lerp (base start) (base delta) t)
         (lerp (shoulder start) (shoulder delta) t)
         (lerp (elbow start) (elbow delta) t)
         (lerp (wrist start) (wrist delta) t)
         (lerp (gripper start) (gripper delta) t).

(** [for (int i = 1; i <= steps; i++) { ... writePose; delay }],
    entered with the current value of [i]. *)
Fixpoint move_loop (fuel : nat) (start delta : Pose)
    (steps speedDelayMs i : Z) (st : state) : outcome :=
  if i <=? steps then
    match fuel with
    | O => OutOfFuel
    | S fuel' =>
        let st := writePose (intermediate start delta i steps) st in
        let st := emit [Delay speedDelayMs] st in
        move_loop fuel' start delta steps speedDelayMs (Int32.add i 1) st
    end
  else Done st.

Definition moveToPose (fuel : nat) (target : Pose)
    (speedDelayMs stepSize : Z) (st : state) : outcome :=
  let start := currentPose st in
  let delta := deltas start target in
  match stepCount (maxDelta delta) stepSize with
  | None => DivisionByZero
  | Some steps =>
      match move_loop fuel start delta steps speedDelayMs 1 st with
      | Done st =>
          let st := store_currentPose target st in
          Done (writePose (currentPose st) st)
      | stop => stop
      end
  end.

End Interpolator.

(** ** The events a completed move is expected to leave *)

Fixpoint zseq (from : Z) (len : nat) : list Z :=
  match len with
  | O => []
  | S len' => from :: zseq (from + 1) len'
  end.

Section MoveEvents.

Variable servoWrites : Pose -> list event.
Variable lerp : Z -> Z -> Float32.float -> Z.

(** One pass through the loop body at step index [i]. *)
Definition step_events (start delta : Pose) (steps speedDelayMs i : Z)
    : list event :=
  servoWrites (intermediate lerp start delta i steps) ++ [Delay speedDelayMs].

Definition loop_events (start delta : Pose) (steps speedDelayMs from : Z)
    (len : nat) : list event :=
  flat_map (step_events start delta steps speedDelayMs) (zseq from len).

(** Steps 1..[steps], then the store and the final write. *)
Definition move_events (start target : Pose) (steps speedDelayMs : Z)
    : list event :=
  loop_events start (deltas start target) steps speedDelayMs 1 (Z.to_nat steps)
    ++ [StoreCurrentPose target] ++ servoWrites target.

End MoveEvents.

Definition with_gripper (p : Pose) (g : Z) : Pose :=
  mkPose (base p) (shoulder p) (elbow p) (wrist p) g.

(** ** [Main_Code.ino]: the pick-and-place sketch *)

Module MainCode.

Definition BASE_MIN : Z := 10.
Definition BASE_MAX : Z := 170.
Definition SHOULDER_MIN : Z := 20.
Definition SHOULDER_MAX : Z := 160.
Definition ELBOW_MIN : Z := 10.
Definition ELBOW_MAX : Z := 170.
Definition WRIST_MIN : Z := 10.
Definition WRIST_MAX : Z := 170.
Definition GRIPPER_OPEN : Z := 90.
Definition GRIPPER_CLOSE : Z := 40.

Definition homePose : Pose := mkPose 90 90 90 90 GRIPPER_OPEN.

(** The gripper angle is written as it is. *)
Definition servoWrites (p : Pose) : list event :=
  [ ServoWrite baseServo (clampAngle (base p) BASE_MIN BASE_MAX);
    ServoWrite shoulderServo (clampAngle (shoulder p) SHOULDER_MIN SHOULDER_MAX);
    ServoWrite elbowServo (clampAngle (elbow p) ELBOW_MIN ELBOW_MAX);
    ServoWrite wristServo (clampAngle (wrist p) WRIST_MIN WRIST_MAX);
    ServoWrite gripperServo (gripper p) ].

Definition writePose : Pose -> state -> state := writePose servoWrites.

Definition intermediate : Pose -> Pose -> Z -> Z -> Pose :=
  intermediate lerp_implicit.

Definition moveToPose : nat -> Pose -> Z -> Z -> state -> outcome :=
  moveToPose servoWrites lerp_implicit.

Definition openGripper (fuel : nat) (speedDelayMs : Z) (st : state) : outcome :=
  let target := with_gripper (currentPose st) GRIPPER_OPEN in
  moveToPose fuel target speedDelayMs 2 st.

Definition closeGripper (fuel : nat) (speedDelayMs : Z) (st : state) : outcome :=
  let target := with_gripper (currentPose st) GRIPPER_CLOSE in
  moveToPose fuel target speedDelayMs 2 st.

Definition resetArm (fuel : nat) (st : state) : outcome :=
  moveToPose fuel homePose 10 3 (emit [SerialPrintln "Resetting to home..."] st).

(** *** The way points of the four tasks *)

Definition t1_aboveObj : Pose := mkPose 60 70 110 80 GRIPPER_OPEN.
Definition t1_grabObj : Pose := mkPose 60 80 120 80 GRIPPER_OPEN.
Definition t1_liftObj : Pose := mkPose 60 60 100 80 GRIPPER_CLOSE.
Definition t1_aboveBox : Pose := mkPose 100 65 105 80 GRIPPER_CLOSE.
Definition t1_release : Pose := mkPose 100 65 105 80 GRIPPER_OPEN.

Definition t2_aboveObj : Pose := mkPose 40 75 110 80 GRIPPER_OPEN.
Definition t2_grabObj : Pose := mkPose 40 85 120 80 GRIPPER_OPEN.
Definition t2_liftObj : Pose := mkPose 40 65 100 80 GRIPPER_CLOSE.
Definition t2_aboveBox : Pose := mkPose 120 60 100 80 GRIPPER_CLOSE.
Definition t2_release : Pose := mkPose 120 60 100 80 GRIPPER_OPEN.

Definition t3_aboveObj : Pose := mkPose 70 70 110 80 GRIPPER_OPEN.
Definition t3_grabObj : Pose := mkPose 70 80 120 80 GRIPPER_OPEN.
Definition t3_liftObj : Pose := mkPose 70 60 100 80 GRIPPER_CLOSE.
Definition t3_aboveBox : Pose := mkPose 140 60 100 80 GRIPPER_CLOSE.
Definition t3_release : Pose := mkPose 140 60 100 80 GRIPPER_OPEN.

Definition t4_aboveObj : Pose := mkPose 85 70 110 80 GRIPPER_OPEN.
Definition t4_grabObj : Pose := mkPose 85 80 120 80 GRIPPER_OPEN.
Definition t4_liftObj : Pose := mkPose 85 60 100 80 GRIPPER_CLOSE.
Definition t4_aboveBox : Pose := mkPose 150 60 100 80 GRIPPER_CLOSE.
Definition t4_release : Pose := mkPose 150 60 100 80 GRIPPER_OPEN.

(** *** The tasks: approach, grab, lift, carry, release, home *)

Definition task1 (fuel : nat) (st : state) : outcome :=
  let st := emit [SerialPrintln "Running Task 1 (cube)..."] st in
  (st <- moveToPose fuel t1_aboveObj 10 3 st ;;
   st <- moveToPose fuel t1_grabObj 15 2 st ;;
   st <- closeGripper fuel 10 st ;;
   st <- moveToPose fuel t1_liftObj 10 2 st ;;
   st <- moveToPose fuel t1_aboveBox 10 3 st ;;
   st <- moveToPose fuel t1_release 15 2 st ;;
   st <- openGripper fuel 10 st ;;
   st <- moveToPose fuel homePose 10 3 st ;;
   Done (emit [SerialPrintln "Task 1 done."] st))%sketch.

Definition task2 (fuel : nat) (st : state) : outcome :=
  let st := emit [SerialPrintln "Running Task 2 (cylinder)..."] st in
  (st <- moveToPose fuel t2_aboveObj 10 3 st ;;
   st <- moveToPose fuel t2_grabObj 15 2 st ;;
   st <- closeGripper fuel 10 st ;;
   st <- moveToPose fuel t2_liftObj 10 2 st ;;
   st <- moveToPose fuel t2_aboveBox 10 3 st ;;
   st <- moveToPose fuel t2_release 15 2 st ;;
   st <- openGripper fuel 10 st ;;
   st <- moveToPose fuel homePose 10 3 st ;;
   Done (emit [SerialPrintln "Task 2 done."] st))%sketch.

Definition task3 (fuel : nat) (st : state) : outcome :=
  let st := emit [SerialPrintln "Running Task 3 (hat)..."] st in
  (st <- moveToPose fuel t3_aboveObj 10 3 st ;;
   st <- moveToPose fuel t3_grabObj 15 2 st ;;
   st <- closeGripper fuel 10 st ;;
   st <- moveToPose fuel t3_liftObj 10 2 st ;;
   st <- moveToPose fuel t3_aboveBox 10 3 st ;;
   st <- moveToPose fuel t3_release 15 2 st ;;
   st <- openGripper fuel 10 st ;;
   st <- moveToPose fuel homePose 10 3 st ;;
   Done (emit [SerialPrintln "Task 3 done."] st))%sketch.

Definition task4 (fuel : nat) (st : state) : outcome :=
  let st := emit [SerialPrintln "Running Task 4 (boat)..."] st in
  (st <- moveToPose fuel t4_aboveObj 10 3 st ;;
   st <- moveToPose fuel t4_grabObj 15 2 st ;;
   st <- closeGripper fuel 10 st ;;
   st <- moveToPose fuel t4_liftObj 10 2 st ;;
   st <- moveToPose fuel t4_aboveBox 10 3 st ;;
   st <- moveToPose fuel t4_release 15 2 st ;;
   st <- openGripper fuel 10 st ;;
   st <- moveToPose fuel homePose 10 3 st ;;
   Done (emit [SerialPrintln "Task 4 done."] st))%sketch.

(** *** [setup] and [loop] *)

Definition BASE_PIN : pin := D 1.
Definition SHOULDER_PIN : pin := D 2.
Definition ELBOW_PIN : pin := D 3.
Definition WRIST_PIN : pin := D 4.
Definition GRIPPER_PIN : pin := D 5.

(** The globals as their initialisers leave them: [currentPose = homePose]. *)
Definition boot : state := mkState homePose [].

Definition setup (st : state) : list board_call * state :=
  ([ SerialBegin 115200;
     ServoAttach baseServo BASE_PIN;
     ServoAttach shoulderServo SHOULDER_PIN;
     ServoAttach elbowServo ELBOW_PIN;
     ServoAttach wristServo WRIST_PIN;
     ServoAttach gripperServo GRIPPER_PIN ],
   let st := writePose homePose st in
   let st := emit [Delay 1000] st in
   emit [ SerialPrintln "Arm ready!";
          SerialPrintln "Type command then press ENTER:";
          SerialPrintln "1 = Task 1 (cube)";
          SerialPrintln "2 = Task 2 (cylinder)";
          SerialPrintln "3 = Task 3 (hat)";
          SerialPrintln "4 = Task 4 (boat)";
          SerialPrintln "r = reset to home" ] st).

(** One call of [loop()]: the unread input and how the call ended. *)
Definition loop (fuel : nat) (input : list ascii) (st : state)
    : list ascii * outcome :=
  match input with
  | [] => ([], Done st)
  | cmd :: input =>
      match cmd with
      | "010"%char | "013"%char => (input, Done st)
      | _ =>
          let st := emit [ SerialPrint "Received command: ";
                           SerialPrintln (String cmd EmptyString) ] st in
          let switch :=
            match cmd with
            | "1"%char => task1 fuel st
            | "2"%char => task2 fuel st
            | "3"%char => task3 fuel st
            | "4"%char => task4 fuel st
            | "r"%char | "R"%char => resetArm fuel st
            | _ => Done (emit [SerialPrintln "Unknown command. Use 1,2,3,4,r."] st)
            end in
          (input,
           (st <- switch ;;
            Done (emit [SerialPrintln "Ready for next command: 1,2,3,4,r"] st))%sketch)
      end
  end.

End MainCode.

(** ** The servo debug sketch: commands [r] and [d] *)

Module DebugCode.

Definition BASE_MIN : Z := 0.
Definition BASE_MAX : Z := 180.
Definition SHOULDER_MIN : Z := 0.
Definition SHOULDER_MAX : Z := 180.
Definition ELBOW_MIN : Z := 0.
Definition ELBOW_MAX : Z := 180.
Definition WRIST_MIN : Z := 0.
Definition WRIST_MAX : Z := 180.
Definition GRIPPER_OPEN : Z := 0.
Definition GRIPPER_CLOSE : Z := 100.

Definition homePose : Pose := mkPose 180 0 100 0 GRIPPER_OPEN.

(** The gripper is clamped with the open angle as lower and the close
    angle as upper bound. *)
Definition servoWrites (p : Pose) : list event :=
  [ ServoWrite baseServo (clampAngle (base p) BASE_MIN BASE_MAX);
    ServoWrite shoulderServo (clampAngle (shoulder p) SHOULDER_MIN SHOULDER_MAX);
    ServoWrite elbowServo (clampAngle (elbow p) ELBOW_MIN ELBOW_MAX);
    ServoWrite wristServo (clampAngle (wrist p) WRIST_MIN WRIST_MAX);
    ServoWrite gripperServo (clampAngle (gripper p) GRIPPER_OPEN GRIPPER_CLOSE) ].

Definition writePose : Pose -> state -> state := writePose servoWrites.

Definition intermediate : Pose -> Pose -> Z -> Z -> Pose :=
  intermediate lerp_cast.

Definition moveToPose : nat -> Pose -> Z -> Z -> state -> outcome :=
  moveToPose servoWrites lerp_cast.

Definition openGripper (fuel : nat) (speedDelayMs : Z) (st : state) : outcome :=
  let target := with_gripper (currentPose st) GRIPPER_OPEN in
  moveToPose fuel target speedDelayMs 2 st.

Definition closeGripper (fuel : nat) (speedDelayMs : Z) (st : state) : outcome :=
  let target := with_gripper (currentPose st) GRIPPER_CLOSE in
  moveToPose fuel target speedDelayMs 2 st.

Definition resetArm (fuel : nat) (st : state) : outcome :=
  match moveToPose fuel homePose 10 3
          (emit [SerialPrintln "Resetting to home..."] st) with
  | Done st => Done (emit [SerialPrintln "At home pose."] st)
  | stop => stop
  end.

(** *** Reading the five numbers of a [d] command

    [sscanf(line, "%d %d %d %d %d", ...)]: each [%d] skips white space,
    reads an optional sign and a non-empty run of decimal digits, and
    stops at the first character that does not fit; scanning ends at
    the first conversion that fails.  What follows the fifth number is
    never looked at. *)

Definition isspace (c : ascii) : bool :=
  let n := nat_of_ascii c in
  Nat.eqb n 32 || (Nat.leb 9 n && Nat.leb n 13).

Definition isdigit (c : ascii) : bool :=
  let n := nat_of_ascii c in
  Nat.leb 48 n && Nat.leb n 57.

Definition digit_value (c : ascii) : Z := Z.of_nat (nat_of_ascii c) - 48.

Fixpoint skip_space (s : list ascii) : list ascii :=
  match s with
  | c :: rest => if isspace c then skip_space rest else s
  | [] => []
  end.

Fixpoint read_digits (acc : Z) (s : list ascii) : Z * list ascii :=
  match s with
  | c :: rest =>
      if isdigit c then read_digits (10 * acc + digit_value c) rest
      else (acc, s)
  | [] => (acc, [])
  end.

(** One [%d] conversion: the value stored and the unread input. *)
Definition scan_d (s : list ascii) : option (Z * list ascii) :=
  let s := skip_space s in
  let '(negative, s) :=
    match s with
    | "-"%char :: rest => (true, rest)
    | "+"%char :: rest => (false, rest)
    | _ => (false, s)
    end in
  match s with
  | c :: _ =>
      if isdigit c then
        let '(v, rest) := read_digits 0 s in
        Some (Int32.wrap (if negative then - v else v), rest)
      else None
  | [] => None
  end.

Fixpoint scan_ints (n : nat) (s : list ascii) : list Z :=
  match n with
  | O => []
  | S n' =>
      match scan_d s with
      | Some (v, rest) => v :: scan_ints n' rest
      | None => []
      end
  end.

(** [String::trim]: drop white space at both ends. *)
Definition trim (s : list ascii) : list ascii :=
  rev (skip_space (rev (skip_space s))).

(** Return value of [sscanf]: the number of values stored, or [EOF]
    (-1) when the input ends before anything was converted. *)
Definition sscanf_count (s : list ascii) : Z :=
  match scan_ints 5 s, skip_space s with
  | [], [] => -1
  | vs, _ => Z.of_nat (List.length vs)
  end.

Definition format_error : list event :=
  [ SerialPrintln "Format error! Use: d base shoulder elbow wrist gripper";
    SerialPrintln "Example: d 90 120 45 10 20" ].

Definition debug_report (b s e w g : Z) : list event :=
  [ SerialPrintln "DEBUG MOVE →";
    SerialPrint "  Base: "; SerialPrintlnInt b;
    SerialPrint "  Shoulder: "; SerialPrintlnInt s;
    SerialPrint "  Elbow: "; SerialPrintlnInt e;
    SerialPrint "  Wrist: "; SerialPrintlnInt w;
    SerialPrint "  Gripper: "; SerialPrintlnInt g ].

(** The variables [b], [s], [e], [w], [g] are only read after all five
    were stored. *)
Definition debugMove (fuel : nat) (line : string) (st : state) : outcome :=
  let line := trim (list_ascii_of_string line) in
  let stored := scan_ints 5 line in
  let parsed := sscanf_count line in
  if negb (parsed =? 5) then Done (emit format_error st)
  else
    let b := nth 0 stored 0 in
    let s := nth 1 stored 0 in
    let e := nth 2 stored 0 in
    let w := nth 3 stored 0 in
    let g := nth 4 stored 0 in
    let target := mkPose b s e w g in
    moveToPose fuel target 8 2 (emit (debug_report b s e w g) st).

(** *** [setup] and [loop] *)

Definition BASE_PIN : pin := GPIO 5.
Definition SHOULDER_PIN : pin := GPIO 4.
Definition ELBOW_PIN : pin := GPIO 12.
Definition WRIST_PIN : pin := GPIO 14.
Definition GRIPPER_PIN : pin := GPIO 16.

(** The globals as their initialisers leave them: [currentPose = homePose]. *)
Definition boot : state := mkState homePose [].

Definition setup (st : state) : list board_call * state :=
  ([ SerialBegin 115200;
     ServoAttach baseServo BASE_PIN;
     ServoAttach shoulderServo SHOULDER_PIN;
     ServoAttach elbowServo ELBOW_PIN;
     ServoAttach wristServo WRIST_PIN;
     ServoAttach gripperServo GRIPPER_PIN ],
   let st := writePose homePose st in
   let st := emit [Delay 1000] st in
   emit [ SerialPrintln "Arm ready!";
          SerialPrintln "Commands:";
          SerialPrintln "  r            = reset to home";
          SerialPrintln "  d a b c d e  = debug: set all 5 joints";
          SerialPrintln "    (base shoulder elbow wrist gripper)";
          SerialPrintln "Example:";
          SerialPrintln "  d 180 0 100 0 0" ] st).

Definition unknown_command : list event :=
  [ SerialPrintln "Unknown command.";
    SerialPrintln "Use:";
    SerialPrintln "  r";
    SerialPrintln "  d base shoulder elbow wrist gripper" ].

(** One call of [loop()]: the unread input and how the call ended.  The
    [d] command takes the rest of its line as parameters. *)
Definition loop (fuel : nat) (input : list ascii) (st : state)
    : list ascii * outcome :=
  match input with
  | [] => ([], Done st)
  | cmd :: input =>
      match cmd with
      | "010"%char | "013"%char => (input, Done st)
      | _ =>
          let st := emit [ SerialPrint "Received command: ";
                           SerialPrintln (String cmd EmptyString) ] st in
          let '(input, switch) :=
            match cmd with
            | "r"%char | "R"%char => (input, resetArm fuel st)
            | "d"%char | "D"%char =>
                let '(params, input) := readStringUntil "010" input in
                (input, debugMove fuel (string_of_list_ascii params) st)
            | _ => (input, Done (emit unknown_command st))
            end in
          (input,
           (st <- switch ;;
            Done (emit [SerialPrintln "Ready for next command."] st))%sketch)
      end
  end.

End DebugCode.

(** ** Reading a trace *)

Definition servo_eqb (a b : Servo) : bool :=
  match a, b with
  | baseServo, baseServo | shoulderServo, shoulderServo
  | elbowServo, elbowServo | wristServo, wristServo
  | gripperServo, gripperServo => true
  | _, _ => false
  end.

Definition is_write_to (s : Servo) (e : event) : bool :=
  match e with ServoWrite s' _ => servo_eqb s s' | _ => false end.

Definition is_delay (e : event) : bool :=
  match e with Delay _ => true | _ => false end.

Definition is_store (e : event) : bool :=
  match e with StoreCurrentPose _ => true | _ => false end.

Definition count (f : event -> bool) (evs : list event) : Z :=
  Z.of_nat (List.length (filter f evs)).

(** The field of a pose that belongs to a servo. *)
Definition joint (s : Servo) (p : Pose) : Z :=
  match s with
  | baseServo => base p
  | shoulderServo => shoulder p
  | elbowServo => elbow p
  | wristServo => wrist p
  | gripperServo => gripper p
  end.

(** ** Vocabulary of the statements *)

(** No joint difference [target - start] leaves the range of [int]
    (and none is [INT_MIN], whose absolute value does not exist). *)
Definition no_overflow (start target : Pose) : Prop :=
  forall s : Servo,
    Int32.INT_MIN < joint s target - joint s start <= Int32.INT_MAX.

(** Largest absolute joint difference, over the integers. *)
Definition max_abs_difference (start target : Pose) : Z :=
  Z.max (Z.abs (base target - base start))
    (Z.max (Z.abs (shoulder target - shoulder start))
       (Z.max (Z.abs (elbow target - elbow start))
          (Z.max (Z.abs (wrist target - wrist start))
                 (Z.abs (gripper target - gripper start))))).

(** [after] is [before] with the gripper set to [g]. *)
Definition only_gripper_changed (before after : Pose) (g : Z) : Prop :=
  base after = base before /\ shoulder after = shoulder before
  /\ elbow after = elbow before /\ wrist after = wrist before
  /\ gripper after = g.

(** Every joint value has magnitude at most 2^23, so that the values
    and their differences are [float] numbers. *)
Definition small_pose (p : Pose) : Prop :=
  forall s : Servo, - 2 ^ 23 <= joint s p <= 2 ^ 23.

(** The interpolated value as the specification words it:
    [start + round_toward_zero(delta * i / steps)], over the rationals. *)
Definition exact_lerp (start delta i steps : Z) : Z :=
  start + Z.quot (delta * i) steps.

(** *** Words of a command line, as the specification counts them *)

Fixpoint words_from (current : list ascii) (s : list ascii)
    : list (list ascii) :=
  match s with
  | [] => match current with [] => [] | _ => [rev current] end
  | c :: rest =>
      if DebugCode.isspace c then
        match current with
        | [] => words_from [] rest
        | _ => rev current :: words_from [] rest
        end
      else words_from (c :: current) rest
  end.

Definition words (line : string) : list (list ascii) :=
  words_from [] (list_ascii_of_string line).

Definition is_integer (w : list ascii) : bool :=
  match w with
  | ("-"%char | "+"%char) :: d :: rest => forallb DebugCode.isdigit (d :: rest)
  | d :: rest => forallb DebugCode.isdigit (d :: rest)
  | [] => false
  end.

(** "Exactly five integers". *)
Definition five_integers (line : string) : bool :=
  Nat.eqb (List.length (words line)) 5 && forallb is_integer (words line).

Definition digit_count (s : list ascii) : nat :=
  List.length (filter DebugCode.isdigit s).

(** ** Vocabulary of the further properties *)

(** The angles sent to a servo, in order. *)
Definition angles_sent (s : Servo) (evs : list event) : list Z :=
  flat_map (fun e => match e with
                     | ServoWrite s' a => if servo_eqb s s' then [a] else []
                     | _ => []
                     end) evs.

(** The last angle sent to a servo, if there was one. *)
Definition last_angle (s : Servo) (evs : list event) : option Z :=
  last (map Some (angles_sent s evs)) None.

(** The poses stored to [currentPose], in order. *)
Definition stores (evs : list event) : list Pose :=
  flat_map (fun e => match e with StoreCurrentPose p => [p] | _ => [] end) evs.

(** Each servo was last sent what [writePose(currentPose)] sends. *)
Definition in_sync (servoWrites : Pose -> list event) (st : state) : Prop :=
  forall s, last_angle s (trace st) = last_angle s (servoWrites (currentPose st)).

(** The configured range of a servo: the joint limits, and for the
    gripper the span between its close and its open angle. *)
Definition main_limits (s : Servo) : Z * Z :=
  match s with
  | baseServo => (MainCode.BASE_MIN, MainCode.BASE_MAX)
  | shoulderServo => (MainCode.SHOULDER_MIN, MainCode.SHOULDER_MAX)
  | elbowServo => (MainCode.ELBOW_MIN, MainCode.ELBOW_MAX)
  | wristServo => (MainCode.WRIST_MIN, MainCode.WRIST_MAX)
  | gripperServo => (MainCode.GRIPPER_CLOSE, MainCode.GRIPPER_OPEN)
  end.

Definition debug_limits (s : Servo) : Z * Z :=
  match s with
  | baseServo => (DebugCode.BASE_MIN, DebugCode.BASE_MAX)
  | shoulderServo => (DebugCode.SHOULDER_MIN, DebugCode.SHOULDER_MAX)
  | elbowServo => (DebugCode.ELBOW_MIN, DebugCode.ELBOW_MAX)
  | wristServo => (DebugCode.WRIST_MIN, DebugCode.WRIST_MAX)
  | gripperServo => (DebugCode.GRIPPER_OPEN, DebugCode.GRIPPER_CLOSE)
  end.

(** Every angle sent to a servo is within its range. *)
Definition within_limits (limits : Servo -> Z * Z) (evs : list event) : Prop :=
  forall s a, In a (angles_sent s evs) -> fst (limits s) <= a <= snd (limits s).

(** A step budget that is enough for every loop that ends. *)
Definition big_fuel : nat := Z.to_nat Int32.INT_MAX.

(** What a move that returned has done. *)
Definition moved (servoWrites : Pose -> list event)
    (lerp : Z -> Z -> Float32.float -> Z)
    (target : Pose) (ms stepSize : Z) (st st' : state) : Prop :=
  exists steps,
    stepCount (maxDelta (deltas (currentPose st) target)) stepSize = Some steps
    /\ 1 <= steps < Int32.INT_MAX
    /\ st' = mkState target
               (trace st ++ move_events servoWrites lerp (currentPose st) target
                              steps ms).

(** A move to a fixed pose, or a move of the gripper alone as
    [openGripper] and [closeGripper] make it (step size 2). *)
Inductive motion : Type :=
| MoveTo (target : Pose) (speedDelayMs stepSize : Z)
| Grip (angle speedDelayMs : Z).

Definition motion_target (m : motion) (current : Pose) : Pose :=
  match m with
  | MoveTo target _ _ => target
  | Grip angle _ => with_gripper current angle
  end.

Definition motion_delay (m : motion) : Z :=
  match m with MoveTo _ ms _ => ms | Grip _ ms => ms end.

Definition motion_step (m : motion) : Z :=
  match m with MoveTo _ _ stepSize => stepSize | Grip _ _ => 2 end.

(** The calls one after the other, each starting where the last ended. *)
Fixpoint run_motions (move : nat -> Pose -> Z -> Z -> state -> outcome)
    (fuel : nat) (ms : list motion) (st : state) : outcome :=
  match ms with
  | [] => Done st
  | m :: rest =>
      and_then
        (move fuel (motion_target m (currentPose st)) (motion_delay m)
           (motion_step m) st)
        (run_motions move fuel rest)
  end.

(** What a sequence of moves that returned has done. *)
Fixpoint ran (servoWrites : Pose -> list event)
    (lerp : Z -> Z -> Float32.float -> Z)
    (ms : list motion) (st st' : state) : Prop :=
  match ms with
  | [] => st' = st
  | m :: rest =>
      exists st1,
        moved servoWrites lerp (motion_target m (currentPose st))
          (motion_delay m) (motion_step m) st st1
        /\ ran servoWrites lerp rest st1 st'
  end.

(** The poses a sequence of moves goes through. *)
Fixpoint targets (ms : list motion) (current : Pose) : list Pose :=
  match ms with
  | [] => []
  | m :: rest =>
      let t := motion_target m current in t :: targets rest t
  end.

(** The ranges of [Main_Code.ino] with another range for the gripper. *)
Definition main_limits_with (lo hi : Z) (s : Servo) : Z * Z :=
  match s with
  | gripperServo => (lo, hi)
  | _ => main_limits s
  end.

(** A small pose whose gripper angle is within [lo, hi]. *)
Definition calm_pose (lo hi : Z) (p : Pose) : Prop :=
  small_pose p /\ lo <= gripper p <= hi.

Definition calm_motion (lo hi : Z) (m : motion) : Prop :=
  match m with
  | MoveTo target _ stepSize => calm_pose lo hi target /\ 1 < stepSize
  | Grip angle _ => lo <= angle <= hi /\ - 2 ^ 23 <= angle <= 2 ^ 23
  end.

(** The moves of a task: above the object, down to it, grip, lift,
    above the box, release pose, open, home. *)
Definition task_motions (aboveObj grabObj liftObj aboveBox release : Pose)
    : list motion :=
  [ MoveTo aboveObj 10 3; MoveTo grabObj 15 2; Grip MainCode.GRIPPER_CLOSE 10;
    MoveTo liftObj 10 2; MoveTo aboveBox 10 3; MoveTo release 15 2;
    Grip MainCode.GRIPPER_OPEN 10; MoveTo MainCode.homePose 10 3 ].

(** Serial output only. *)
Definition prints_only (evs : list event) : bool :=
  forallb (fun e => match e with
                    | SerialPrint _ | SerialPrintln _ | SerialPrintlnInt _ => true
                    | _ => false
                    end) evs.

(** What a command that returned has done: printed [intro], made the
    moves [ms], printed [outro]. *)
Definition did (servoWrites : Pose -> list event)
    (lerp : Z -> Z -> Float32.float -> Z)
    (intro : list event) (ms : list motion) (outro : list event)
    (st st' : state) : Prop :=
  exists mid,
    ran servoWrites lerp ms (emit intro st) mid /\ st' = emit outro mid.

Definition is_line_end (cmd : ascii) : bool :=
  match cmd with
  | "010"%char | "013"%char => true
  | _ => false
  end.

Definition received (cmd : ascii) : list event :=
  [ SerialPrint "Received command: "; SerialPrintln (String cmd EmptyString) ].

(** What a command byte makes [loop] of [Main_Code.ino] do: the lines
    printed first, the moves, the lines printed last. *)
Definition main_command (cmd : ascii)
    : list event * list motion * list event :=
  match cmd with
  | "1"%char =>
      (received cmd ++ [SerialPrintln "Running Task 1 (cube)..."],
       task_motions MainCode.t1_aboveObj MainCode.t1_grabObj MainCode.t1_liftObj
         MainCode.t1_aboveBox MainCode.t1_release,
       [SerialPrintln "Task 1 done.";
        SerialPrintln "Ready for next command: 1,2,3,4,r"])
  | "2"%char =>
      (received cmd ++ [SerialPrintln "Running Task 2 (cylinder)..."],
       task_motions MainCode.t2_aboveObj MainCode.t2_grabObj MainCode.t2_liftObj
         MainCode.t2_aboveBox MainCode.t2_release,
       [SerialPrintln "Task 2 done.";
        SerialPrintln "Ready for next command: 1,2,3,4,r"])
  | "3"%char =>
      (received cmd ++ [SerialPrintln "Running Task 3 (hat)..."],
       task_motions MainCode.t3_aboveObj MainCode.t3_grabObj MainCode.t3_liftObj
         MainCode.t3_aboveBox MainCode.t3_release,
       [SerialPrintln "Task 3 done.";
        SerialPrintln "Ready for next command: 1,2,3,4,r"])
  | "4"%char =>
      (received cmd ++ [SerialPrintln "Running Task 4 (boat)..."],
       task_motions MainCode.t4_aboveObj MainCode.t4_grabObj MainCode.t4_liftObj
         MainCode.t4_aboveBox MainCode.t4_release,
       [SerialPrintln "Task 4 done.";
        SerialPrintln "Ready for next command: 1,2,3,4,r"])
  | "r"%char | "R"%char =>
      (received cmd ++ [SerialPrintln "Resetting to home..."],
       [MoveTo MainCode.homePose 10 3],
       [SerialPrintln "Ready for next command: 1,2,3,4,r"])
  | _ =>
      (received cmd ++ [SerialPrintln "Unknown command. Use 1,2,3,4,r."],
       [],
       [SerialPrintln "Ready for next command: 1,2,3,4,r"])
  end.

(** What one call of [loop] of [Main_Code.ino] that returned has done. *)
Definition main_looped (input : list ascii) (st : state)
    (rest : list ascii) (st' : state) : Prop :=
  match input with
  | [] => rest = [] /\ st' = st
  | cmd :: input' =>
      rest = input'
      /\ if is_line_end cmd then st' = st
         else did MainCode.servoWrites lerp_implicit
                (fst (fst (main_command cmd))) (snd (fst (main_command cmd)))
                (snd (main_command cmd)) st st'
  end.

(** What a command byte makes [loop] of the debug sketch do: the unread
    input it leaves, the lines printed first, the moves, the lines
    printed last. *)
Definition debug_command (cmd : ascii) (input : list ascii)
    : list ascii * (list event * list motion * list event) :=
  match cmd with
  | "r"%char | "R"%char =>
      (input,
       (received cmd ++ [SerialPrintln "Resetting to home..."],
        [MoveTo DebugCode.homePose 10 3],
        [SerialPrintln "At home pose."; SerialPrintln "Ready for next command."]))
  | "d"%char | "D"%char =>
      let line := DebugCode.trim (fst (readStringUntil "010" input)) in
      let v := DebugCode.scan_ints 5 line in
      (snd (readStringUntil "010" input),
       if DebugCode.sscanf_count line =? 5 then
         (received cmd
            ++ DebugCode.debug_report (nth 0 v 0) (nth 1 v 0) (nth 2 v 0)
                 (nth 3 v 0) (nth 4 v 0),
          [MoveTo (mkPose (nth 0 v 0) (nth 1 v 0) (nth 2 v 0) (nth 3 v 0)
                     (nth 4 v 0)) 8 2],
          [SerialPrintln "Ready for next command."])
       else
         (received cmd ++ DebugCode.format_error, [],
          [SerialPrintln "Ready for next command."]))
  | _ =>
      (input,
       (received cmd ++ DebugCode.unknown_command, [],
        [SerialPrintln "Ready for next command."]))
  end.

(** What one call of [loop] of the debug sketch that returned has done. *)
Definition debug_looped (input : list ascii) (st : state)
    (rest : list ascii) (st' : state) : Prop :=
  match input with
  | [] => rest = [] /\ st' = st
  | cmd :: input' =>
      if is_line_end cmd then rest = input' /\ st' = st
      else
        rest = fst (debug_command cmd input')
        /\ did DebugCode.servoWrites lerp_cast
             (fst (fst (snd (debug_command cmd input'))))
             (snd (fst (snd (debug_command cmd input'))))
             (snd (snd (debug_command cmd input'))) st st'
  end.

(** The poses a task stores, in order: the gripper closes at the object
    and opens at the release pose. *)
Definition waypoints (aboveObj grabObj liftObj aboveBox release : Pose)
    : list Pose :=
  [ aboveObj; grabObj; with_gripper grabObj MainCode.GRIPPER_CLOSE; liftObj;
    aboveBox; release; with_gripper release MainCode.GRIPPER_OPEN;
    MainCode.homePose ].

(** The four tasks with their way points. *)
Definition main_tasks : list ((nat -> state -> outcome) * list Pose) :=
  [ (MainCode.task1,
     waypoints MainCode.t1_aboveObj MainCode.t1_grabObj MainCode.t1_liftObj
       MainCode.t1_aboveBox MainCode.t1_release);
    (MainCode.task2,
     waypoints MainCode.t2_aboveObj MainCode.t2_grabObj MainCode.t2_liftObj
       MainCode.t2_aboveBox MainCode.t2_release);
    (MainCode.task3,
     waypoints MainCode.t3_aboveObj MainCode.t3_grabObj MainCode.t3_liftObj
       MainCode.t3_aboveBox MainCode.t3_release);
    (MainCode.task4,
     waypoints MainCode.t4_aboveObj MainCode.t4_grabObj MainCode.t4_liftObj
       MainCode.t4_aboveBox MainCode.t4_release) ].

Definition main_known (cmd : ascii) : bool :=
  match cmd with
  | "1"%char | "2"%char | "3"%char | "4"%char | "r"%char | "R"%char => true
  | _ => false
  end.

Definition debug_known (cmd : ascii) : bool :=
  match cmd with
  | "r"%char | "R"%char | "d"%char | "D"%char => true
  | _ => false
  end.

(** The input with its line feeds and carriage returns taken out. *)
Definition without_line_ends (input : list ascii) : list ascii :=
  filter (fun c => negb (is_line_end c)) input.

(** *** Numbers as [Serial.println] writes them *)

Definition digit_char (d : Z) : ascii := ascii_of_nat (Z.to_nat (48 + d)).

(** The decimal digits of [n >= 0], most significant first; [fuel]
    bounds their number. *)
Fixpoint decimal_digits (fuel : nat) (n : Z) : list ascii :=
  match fuel with
  | O => []
  | S fuel' =>
      (if n <? 10 then [] else decimal_digits fuel' (n / 10))
      ++ [digit_char (n mod 10)]
  end.

(** An [int] in decimal: a minus sign for a negative number, then its
    digits (at most ten). *)
Definition decimal (n : Z) : list ascii :=
  if n <? 0 then "-"%char :: decimal_digits 10 (- n) else decimal_digits 10 n.

(** Five numbers on a line, a single space between them. *)
Definition debug_line (b s e w g : Z) : list ascii :=
  decimal b ++ " "%char :: decimal s ++ " "%char :: decimal e
    ++ " "%char :: decimal w ++ " "%char :: decimal g.

(** The number a run of digits stands for, read after [acc]. *)
Definition digits_value (acc : Z) (ds : list ascii) : Z :=
  fold_left (fun acc c => 10 * acc + DebugCode.digit_value c) ds acc.

(** Every joint value has magnitude at most 2^16. *)
Definition modest_pose (p : Pose) : Prop :=
  forall s : Servo, - 2 ^ 16 <= joint s p <= 2 ^ 16.

(** * Facts about binary32 rounding *)

Module Float32Facts.
Import Float32.
Local Open Scope Q_scope.

Lemma pow2_pos (e : Z) : 0 < 2 ^ e.
Proof. apply Qpower_0_lt. reflexivity. Qed.

Lemma pow2_add (a b : Z) : 2 ^ (a + b) == 2 ^ a * 2 ^ b.
Proof. apply Qpower_plus. discriminate. Qed.

Lemma pow2_le (a b : Z) : (a <= b)%Z -> 2 ^ a <= 2 ^ b.
Proof. intros H. apply Qpower_le_compat_l; [exact H | discriminate]. Qed.

Lemma pow2_succ (a : Z) : 2 ^ (a + 1) == 2 * 2 ^ a.
Proof. rewrite pow2_add. change (2 ^ 1) with 2. ring. Qed.

Lemma pow2_pred (a : Z) : 2 * 2 ^ (a - 1) == 2 ^ a.
Proof.
  rewrite <- pow2_succ. replace (a - 1 + 1)%Z with a by ring. reflexivity.
Qed.

Lemma pow2_Z (n : Z) : (0 <= n)%Z -> inject_Z (2 ^ n) == 2 ^ n.
Proof. intros H. apply (Zpower_Qpower 2 n H). Qed.

Lemma log2_bounds_Q (a : Z) :
  (0 < a)%Z -> 2 ^ Z.log2 a <= inject_Z a /\ inject_Z a < 2 * 2 ^ Z.log2 a.
Proof.
  intros Ha. destruct (Z.log2_spec a Ha) as [Hlo Hhi].
  pose proof (Z.log2_nonneg a) as Hnn.
  split.
  - rewrite <- pow2_Z by exact Hnn. rewrite <- Zle_Qle. exact Hlo.
  - rewrite <- pow2_succ. rewrite <- pow2_Z by lia.
    rewrite <- Zlt_Qlt. unfold Z.succ in Hhi. exact Hhi.
Qed.

Lemma mag_spec (x : Q) :
  0 < x -> 2 ^ (mag x - 1) <= x /\ x < 2 ^ mag x.
Proof.
  intros Hx. unfold mag.
  destruct x as [a b]. cbn [Qnum Qden].
  assert (Ha : (0 < a)%Z).
  { unfold Qlt in Hx. cbn in Hx. lia. }
  destruct (log2_bounds_Q a Ha) as [Ha1 Ha2].
  destruct (log2_bounds_Q (Zpos b) eq_refl) as [Hb1 Hb2].
  set (la := Z.log2 a) in *. set (lb := Z.log2 (Zpos b)) in *.
  set (k := (la - lb)%Z).
  assert (Hk : 2 ^ la == 2 ^ k * 2 ^ lb).
  { rewrite <- pow2_add. unfold k. replace (la - lb + lb)%Z with la by ring.
    reflexivity. }
  pose proof (pow2_pos k) as Pk. pose proof (pow2_pos lb) as Plb.
  assert (Hxq : (a # b) * inject_Z (Zpos b) == inject_Z a).
  { rewrite (Qmake_Qdiv a b). field.
    intros E. rewrite E in Hb1. lra. }
  set (x := a # b) in *. set (A := inject_Z a) in *.
  set (B := inject_Z (Zpos b)) in *.
  set (P := 2 ^ k) in *. set (L := 2 ^ lb) in *.
  rewrite Hk in Ha1, Ha2.
  assert (Hup : x < 2 * P).
  { destruct (Qlt_le_dec x (2 * P)) as [H|H]; [exact H|]. exfalso. nra. }
  assert (Hlow : P < 2 * x).
  { destruct (Qlt_le_dec P (2 * x)) as [H|H]; [exact H|]. exfalso. nra. }
  destruct (Qle_bool P x) eqn:E.
  - apply Qle_bool_iff in E.
    replace (k + 1 - 1)%Z with k by ring. fold P.
    split; [exact E|]. rewrite pow2_succ. fold P. exact Hup.
  - assert (E' : x < P).
    { destruct (Qlt_le_dec x P) as [H|H]; [exact H|].
      apply Qle_bool_iff in H. congruence. }
    split; [|exact E'].
    pose proof (pow2_pred k) as Hp. fold P in Hp. lra.
Qed.

Lemma mag_mono (x y : Q) : 0 < x -> x <= y -> (mag x <= mag y)%Z.
Proof.
  intros Hx Hxy.
  destruct (mag_spec x Hx) as [Hx1 _].
  destruct (mag_spec y) as [_ Hy2]; [lra|].
  destruct (Z_le_gt_dec (mag x) (mag y)) as [H|H]; [exact H|exfalso].
  pose proof (pow2_le (mag y) (mag x - 1) ltac:(lia)). lra.
Qed.

Lemma ulp_exp_mono (x y : Q) : 0 < x -> x <= y -> (ulp_exp x <= ulp_exp y)%Z.
Proof.
  intros Hx Hxy. unfold ulp_exp. pose proof (mag_mono x y Hx Hxy). lia.
Qed.

(** *** Nearest-even on rationals *)

Lemma rne_Z (n : Z) : rne (inject_Z n) = n.
Proof.
  unfold rne.
  assert (Hf : Qfloor (inject_Z n + (1 # 2)) = n).
  { pose proof (Qfloor_le (inject_Z n + (1 # 2))) as H1.
    pose proof (Qlt_floor (inject_Z n + (1 # 2))) as H2.
    set (f := Qfloor (inject_Z n + (1 # 2))) in *.
    assert (Ha : (f < n + 1)%Z).
    { rewrite Zlt_Qlt, inject_Z_plus. change (inject_Z 1) with 1. lra. }
    assert (Hb : (n < f + 1)%Z).
    { rewrite Zlt_Qlt. lra. }
    lia. }
  rewrite Hf.
  destruct (Qeq_bool (inject_Z n + (1 # 2)) (inject_Z n)) eqn:E; [|reflexivity].
  apply Qeq_bool_iff in E. lra.
Qed.

Lemma rne_mono (x y : Q) : x <= y -> (rne x <= rne y)%Z.
Proof.
  intros Hxy. unfold rne.
  assert (Hf : (Qfloor (x + (1 # 2)) <= Qfloor (y + (1 # 2)))%Z).
  { apply Qfloor_resp_le. lra. }
  set (n := Qfloor (x + (1 # 2))) in *.
  set (m := Qfloor (y + (1 # 2))) in *.
  destruct (Qeq_bool (y + (1 # 2)) (inject_Z m) && Z.odd m) eqn:Ey.
  - apply andb_prop in Ey. destruct Ey as [Ey Hodd].
    apply Qeq_bool_iff in Ey.
    destruct (Qeq_bool (x + (1 # 2)) (inject_Z n) && Z.odd n) eqn:Ex; [lia|].
    destruct (Z.eq_dec n m) as [Heq|Hne]; [|lia].
    exfalso.
    pose proof (Qfloor_le (x + (1 # 2))) as Hx1. fold n in Hx1.
    rewrite Heq in Hx1, Ex.
    assert (Hxm : x + (1 # 2) == inject_Z m) by lra.
    apply Qeq_bool_iff in Hxm. rewrite Hxm, Hodd in Ex. discriminate.
  - destruct (Qeq_bool (x + (1 # 2)) (inject_Z n) && Z.odd n); lia.
Qed.

Lemma rne_le_Z (y : Q) (n : Z) : y <= inject_Z n -> (rne y <= n)%Z.
Proof. intros H. rewrite <- (rne_Z n). apply rne_mono, H. Qed.

Lemma rne_ge_Z (y : Q) (n : Z) : inject_Z n <= y -> (n <= rne y)%Z.
Proof. intros H. rewrite <- (rne_Z n) at 1. apply rne_mono, H. Qed.

(** *** Rounding of positive numbers *)

Lemma round_pos_eq (x : Q) :
  round_pos x == inject_Z (rne (x / 2 ^ ulp_exp x)) * 2 ^ ulp_exp x.
Proof. unfold round_pos. apply Qred_correct. Qed.

Lemma scaled_lt (x : Q) : 0 < x -> x / 2 ^ ulp_exp x < 2 ^ 24.
Proof.
  intros Hx. destruct (mag_spec x Hx) as [_ H2].
  pose proof (pow2_pos (ulp_exp x)) as Pe.
  assert (Hle : 2 ^ mag x <= 2 ^ (24 + ulp_exp x)).
  { apply pow2_le. unfold ulp_exp, prec. lia. }
  rewrite pow2_add in Hle.
  apply Qlt_shift_div_r; [exact Pe|]. lra.
Qed.

Lemma scaled_ge (x : Q) :
  0 < x -> (emin < ulp_exp x)%Z -> 2 ^ 23 <= x / 2 ^ ulp_exp x.
Proof.
  intros Hx He. destruct (mag_spec x Hx) as [H1 _].
  pose proof (pow2_pos (ulp_exp x)) as Pe.
  assert (Heq : (mag x - 1 = 23 + ulp_exp x)%Z).
  { unfold ulp_exp, prec in *. lia. }
  rewrite Heq, pow2_add in H1.
  apply Qle_shift_div_l; [exact Pe|]. exact H1.
Qed.

Lemma round_pos_nonneg (x : Q) : 0 < x -> 0 <= round_pos x.
Proof.
  intros Hx. rewrite round_pos_eq.
  pose proof (pow2_pos (ulp_exp x)) as Pe.
  assert (H0 : (0 <= rne (x / 2 ^ ulp_exp x))%Z).
  { apply rne_ge_Z. apply Qle_shift_div_l; [exact Pe|]. change (inject_Z 0) with 0. lra. }
  rewrite Zle_Qle in H0. change (inject_Z 0) with 0 in H0. nra.
Qed.

Lemma round_pos_upper (x : Q) : 0 < x -> round_pos x <= 2 ^ (24 + ulp_exp x).
Proof.
  intros Hx. rewrite round_pos_eq, pow2_add.
  pose proof (pow2_pos (ulp_exp x)) as Pe.
  assert (H : (rne (x / 2 ^ ulp_exp x) <= 2 ^ 24)%Z).
  { apply rne_le_Z. rewrite pow2_Z by lia.
    apply Qlt_le_weak, scaled_lt, Hx. }
  rewrite Zle_Qle, pow2_Z in H by lia. nra.
Qed.

Lemma round_pos_lower (x : Q) :
  0 < x -> (emin < ulp_exp x)%Z -> 2 ^ (23 + ulp_exp x) <= round_pos x.
Proof.
  intros Hx He. rewrite round_pos_eq, pow2_add.
  pose proof (pow2_pos (ulp_exp x)) as Pe.
  assert (H : (2 ^ 23 <= rne (x / 2 ^ ulp_exp x))%Z).
  { apply rne_ge_Z. rewrite pow2_Z by lia. apply scaled_ge; assumption. }
  rewrite Zle_Qle, pow2_Z in H by lia. nra.
Qed.

Lemma round_pos_mono (x y : Q) :
  0 < x -> x <= y -> round_pos x <= round_pos y.
Proof.
  intros Hx Hxy. assert (Hy : 0 < y) by lra.
  pose proof (ulp_exp_mono x y Hx Hxy) as He.
  destruct (Z.eq_dec (ulp_exp x) (ulp_exp y)) as [Heq|Hne].
  - rewrite !round_pos_eq, Heq.
    pose proof (pow2_pos (ulp_exp y)) as Pe.
    assert (H : (rne (x / 2 ^ ulp_exp y) <= rne (y / 2 ^ ulp_exp y))%Z).
    { apply rne_mono. apply Qmult_le_compat_r; [exact Hxy|].
      apply Qlt_le_weak, Qinv_lt_0_compat, Pe. }
    rewrite Zle_Qle in H. nra.
  - assert (Hlt : (ulp_exp x < ulp_exp y)%Z) by lia.
    assert (Hmin : (emin < ulp_exp y)%Z).
    { unfold ulp_exp in *. lia. }
    pose proof (round_pos_upper x Hx) as Hu.
    pose proof (round_pos_lower y Hy Hmin) as Hl.
    pose proof (pow2_le (24 + ulp_exp x) (23 + ulp_exp y) ltac:(lia)).
    lra.
Qed.

(** *** Rounding of arbitrary numbers *)

Lemma round_gt (x : Q) : 0 < x -> round x = round_pos x.
Proof.
  intros H. assert (E : (x ?= 0) = Gt) by (apply Qgt_alt; exact H).
  unfold round. rewrite E. reflexivity.
Qed.

Lemma round_lt (x : Q) : x < 0 -> round x == - round_pos (- x).
Proof.
  intros H. assert (E : (x ?= 0) = Lt) by (apply Qlt_alt; exact H).
  unfold round. rewrite E. apply Qred_correct.
Qed.

Lemma round_eq0 (x : Q) : x == 0 -> round x = 0.
Proof.
  intros H. assert (E : (x ?= 0) = Eq) by (apply Qeq_alt; exact H).
  unfold round. rewrite E. reflexivity.
Qed.

Lemma round_mono (x y : Q) : x <= y -> round x <= round y.
Proof.
  intros Hxy.
  destruct (Q_dec x 0) as [[Hx|Hx]|Hx]; destruct (Q_dec y 0) as [[Hy|Hy]|Hy];
    try (exfalso; lra).
  - rewrite (round_lt x Hx), (round_lt y Hy).
    pose proof (round_pos_mono (- y) (- x) ltac:(lra) ltac:(lra)). lra.
  - rewrite (round_lt x Hx), (round_gt y Hy).
    pose proof (round_pos_nonneg (- x) ltac:(lra)).
    pose proof (round_pos_nonneg y Hy). lra.
  - rewrite (round_lt x Hx), (round_eq0 y Hy).
    pose proof (round_pos_nonneg (- x) ltac:(lra)). lra.
  - rewrite (round_gt x Hx), (round_gt y Hy). apply round_pos_mono; assumption.
  - rewrite (round_eq0 x Hx), (round_gt y Hy). apply round_pos_nonneg, Hy.
  - rewrite (round_eq0 x Hx), (round_eq0 y Hy). lra.
Qed.

Lemma round_comp (x y : Q) : x == y -> round x == round y.
Proof.
  intros H. apply Qle_antisym; apply round_mono; rewrite H; apply Qle_refl.
Qed.

Lemma rne_comp (x y : Q) : x == y -> rne x = rne y.
Proof.
  intros H. apply Z.le_antisymm; apply rne_mono; rewrite H; apply Qle_refl.
Qed.

(** A positive number that is an integer multiple of its last place
    is a binary32 number. *)
Lemma round_pos_exact (x : Q) (m : Z) :
  x == inject_Z m * 2 ^ ulp_exp x -> round_pos x == x.
Proof.
  intros H. rewrite round_pos_eq.
  pose proof (pow2_pos (ulp_exp x)) as Pe.
  assert (Hs : x / 2 ^ ulp_exp x == inject_Z m).
  { rewrite H at 1. field. lra. }
  rewrite (rne_comp _ _ Hs), rne_Z. symmetry. exact H.
Qed.

Lemma pow2_le_inv (a b : Z) : 2 ^ a <= 2 ^ b -> (a <= b)%Z.
Proof. intros H. apply (Qpower_le_compat_l_inv 2); [exact H | reflexivity]. Qed.

Lemma pow2_lt_inv (a b : Z) : 2 ^ a < 2 ^ b -> (a < b)%Z.
Proof. intros H. apply (Qpower_lt_compat_l_inv 2); [exact H | reflexivity]. Qed.

Lemma pow2_neg_Z (e : Z) :
  (e <= 0)%Z -> inject_Z (2 ^ (- e)) * 2 ^ e == 1.
Proof.
  intros He. rewrite pow2_Z by lia. rewrite <- pow2_add.
  replace (- e + e)%Z with 0%Z by ring. reflexivity.
Qed.

Lemma round_pos_int (n : Z) :
  (0 < n <= 2 ^ 24)%Z -> round_pos (inject_Z n) == inject_Z n.
Proof.
  intros [Hn0 Hn].
  assert (Hq0 : 0 < inject_Z n).
  { change 0 with (inject_Z 0). rewrite <- Zlt_Qlt. exact Hn0. }
  assert (Hq1 : 1 <= inject_Z n).
  { change 1 with (inject_Z 1). rewrite <- Zle_Qle. lia. }
  assert (Hq2 : inject_Z n <= 2 ^ 24).
  { rewrite <- pow2_Z by lia. rewrite <- Zle_Qle. exact Hn. }
  destruct (mag_spec _ Hq0) as [M1 M2].
  assert (Hk1 : (0 < mag (inject_Z n))%Z).
  { apply pow2_lt_inv. change (2 ^ 0) with 1. lra. }
  assert (Hk2 : (mag (inject_Z n) - 1 <= 24)%Z).
  { apply pow2_le_inv. lra. }
  assert (He : ulp_exp (inject_Z n) = (mag (inject_Z n) - 24)%Z).
  { unfold ulp_exp, prec, emin. lia. }
  destruct (Z_le_gt_dec (ulp_exp (inject_Z n)) 0) as [Hle|Hgt].
  - apply (round_pos_exact _ (n * 2 ^ (- ulp_exp (inject_Z n)))).
    rewrite inject_Z_mult, <- Qmult_assoc, (pow2_neg_Z _ Hle). ring.
  - assert (Hm : mag (inject_Z n) = 25%Z) by lia.
    assert (Hn24 : n = (2 ^ 24)%Z).
    { rewrite Hm in M1. change (25 - 1)%Z with 24%Z in M1.
      rewrite <- pow2_Z in M1 by lia. rewrite <- Zle_Qle in M1. lia. }
    apply (round_pos_exact _ (2 ^ 23)).
    rewrite He, Hm, Hn24. reflexivity.
Qed.

Lemma round_int (n : Z) :
  (- 2 ^ 24 <= n <= 2 ^ 24)%Z -> round (inject_Z n) == inject_Z n.
Proof.
  intros Hn.
  destruct (Z.lt_trichotomy n 0) as [Hneg|[Hz|Hpos]].
  - assert (Hq : inject_Z n < 0).
    { change 0 with (inject_Z 0). rewrite <- Zlt_Qlt. exact Hneg. }
    rewrite (round_lt _ Hq).
    assert (Ho : - inject_Z n == inject_Z (- n)).
    { rewrite inject_Z_opp. reflexivity. }
    assert (Hr : round_pos (- inject_Z n) == round_pos (inject_Z (- n))).
    { assert (0 < - inject_Z n) by lra.
      assert (0 < inject_Z (- n)) by lra.
      rewrite <- !round_gt by assumption. apply round_comp, Ho. }
    rewrite Hr, round_pos_int by lia. rewrite inject_Z_opp. ring.
  - subst n. reflexivity.
  - assert (Hq : 0 < inject_Z n).
    { change 0 with (inject_Z 0). rewrite <- Zlt_Qlt. exact Hpos. }
    rewrite (round_gt _ Hq). apply round_pos_int. lia.
Qed.

(** *** Conversion to integers *)

Lemma trunc_Z (n : Z) : trunc (inject_Z n) = n.
Proof.
  unfold trunc. destruct (Qle_bool 0 (inject_Z n));
    [apply Qfloor_Z | apply Qceiling_Z].
Qed.

Lemma trunc_mono (x y : Q) : x <= y -> (trunc x <= trunc y)%Z.
Proof.
  intros Hxy. unfold trunc.
  destruct (Qle_bool 0 x) eqn:Ex; destruct (Qle_bool 0 y) eqn:Ey.
  - apply Qfloor_resp_le, Hxy.
  - apply Qle_bool_iff in Ex.
    assert (Hy : 0 <= y) by lra. apply Qle_bool_iff in Hy. congruence.
  - assert (Hx : x < 0).
    { destruct (Qlt_le_dec x 0) as [H|H]; [exact H|].
      apply Qle_bool_iff in H. congruence. }
    apply Qle_bool_iff in Ey.
    pose proof (Qceiling_resp_le x 0 ltac:(lra)) as H1.
    pose proof (Qfloor_resp_le 0 y Ey) as H2.
    change (Qceiling 0) with 0%Z in H1. change (Qfloor 0) with 0%Z in H2. lia.
  - apply Qceiling_resp_le, Hxy.
Qed.

Lemma trunc_comp (x y : Q) : x == y -> trunc x = trunc y.
Proof.
  intros H. apply Z.le_antisymm; apply trunc_mono; rewrite H; apply Qle_refl.
Qed.

End Float32Facts.

(** * [Float32] against the standard library's binary32

    [SpecFloat] rounds by shifting the mantissa and keeping a round and a
    sticky bit; [Float32] rounds a rational.  The two give the same
    number for conversion from [int], multiplication, addition and
    division, as long as the result stays in the finite range, and
    therefore on every value the interpolation computes. *)

Lemma float_model_agrees_with_reference :
  Binary32Reference.agree_on_samples = true.
Proof. vm_compute. reflexivity. Qed.

Module Binary32Bridge.
Import Float32 Float32Facts Binary32Format.

Lemma digits2_size (p : positive) : digits2_pos p = Pos.size p.
Proof. induction p; cbn; congruence. Qed.

Lemma digits2_log2 (p : positive) : Zpos (digits2_pos p) = Z.log2 (Zpos p) + 1.
Proof.
  rewrite digits2_size. destruct p; cbn; try reflexivity; rewrite Pos.add_1_r; reflexivity.
Qed.

Local Open Scope Q_scope.

Lemma mag_unique (x : Q) (k : Z) :
  0 < x -> 2 ^ (k - 1) <= x -> x < 2 ^ k -> mag x = k.
Proof.
  intros Hx H1 H2. destruct (mag_spec x Hx) as [M1 M2].
  assert (A : (k - 1 < mag x)%Z). { apply pow2_lt_inv. lra. }
  assert (B : (mag x - 1 < k)%Z). { apply pow2_lt_inv. lra. }
  lia.
Qed.

Lemma digits_bounds (m : positive) :
  2 ^ (Zpos (digits2_pos m) - 1) <= inject_Z (Zpos m)
  /\ inject_Z (Zpos m) < 2 ^ (Zpos (digits2_pos m)).
Proof.
  rewrite digits2_log2.
  destruct (log2_bounds_Q (Zpos m) eq_refl) as [A B].
  replace (Z.log2 (Zpos m) + 1 - 1)%Z with (Z.log2 (Zpos m)) by ring.
  split; [exact A|]. rewrite pow2_succ. exact B.
Qed.

Lemma located_comp (y y' : Q) (mrs : shr_record) :
  y == y' -> located y mrs -> located y' mrs.
Proof.
  intros E [H0 H]. split; [exact H0|].
  destruct (shr_r mrs), (shr_s mrs); lra.
Qed.

Lemma inject_xO (p : positive) : inject_Z (Zpos p~0) == 2 * inject_Z (Zpos p).
Proof. change (Zpos p~0) with (2 * Zpos p)%Z. rewrite inject_Z_mult. reflexivity. Qed.

Lemma inject_xI (p : positive) : inject_Z (Zpos p~1) == 2 * inject_Z (Zpos p) + 1.
Proof.
  change (Zpos p~1) with (2 * Zpos p + 1)%Z.
  rewrite inject_Z_plus, inject_Z_mult. reflexivity.
Qed.

Lemma shr_1_located (y : Q) (mrs : shr_record) :
  located y mrs -> located (y / 2) (shr_1 mrs).
Proof.
  destruct mrs as [m r s]. unfold located. cbn [shr_m shr_r shr_s].
  intros [H0 H].
  assert (Hy : y / 2 == y * (1 # 2)) by (field).
  destruct m as [|p|p]; [| |lia].
  - cbn [shr_1 shr_m shr_r shr_s]. split; [lia|].
    change (inject_Z 0) with 0 in *.
    destruct r, s; cbn [orb] in *; lra.
  - destruct p as [p|p|]; cbn [shr_1 shr_m shr_r shr_s]; (split; [lia|]).
    + pose proof (inject_xI p) as E. destruct r, s; cbn [orb] in *; lra.
    + pose proof (inject_xO p) as E. destruct r, s; cbn [orb] in *; lra.
    + change (inject_Z 1) with 1 in *. change (inject_Z 0) with 0.
      destruct r, s; cbn [orb] in *; lra.
Qed.

Lemma pow2_xO (p : positive) : 2 ^ Zpos p~0 == 2 ^ Zpos p * 2 ^ Zpos p.
Proof. rewrite <- pow2_add. rewrite Pos2Z.inj_xO. f_equiv. lia. Qed.

Lemma pow2_xI (p : positive) : 2 ^ Zpos p~1 == 2 * (2 ^ Zpos p * 2 ^ Zpos p).
Proof.
  rewrite <- pow2_add, <- pow2_succ. rewrite Pos2Z.inj_xI. f_equiv. lia.
Qed.

Lemma iter_pos_located (p : positive) :
  forall (y : Q) (mrs : shr_record),
    located y mrs -> located (y / 2 ^ Zpos p) (iter_pos shr_1 p mrs).
Proof.
  induction p as [p IH|p IH|]; intros y mrs H; cbn [iter_pos].
  - apply shr_1_located in H. apply IH in H. apply IH in H.
    pose proof (pow2_pos (Zpos p)).
    apply (located_comp (y / 2 / 2 ^ Zpos p / 2 ^ Zpos p)); [|exact H].
    rewrite pow2_xI. field. lra.
  - apply IH in H. apply IH in H.
    pose proof (pow2_pos (Zpos p)).
    apply (located_comp (y / 2 ^ Zpos p / 2 ^ Zpos p)); [|exact H].
    rewrite pow2_xO. field. lra.
  - apply shr_1_located in H. exact H.
Qed.

Lemma floor_unique (y : Q) (n : Z) :
  inject_Z n <= y -> y < inject_Z n + 1 -> Qfloor y = n.
Proof.
  intros H1 H2.
  pose proof (Qfloor_le y) as F1. pose proof (Qlt_floor y) as F2.
  rewrite inject_Z_plus in F2. change (inject_Z 1) with 1 in F2.
  assert (A : (Qfloor y < n + 1)%Z).
  { rewrite Zlt_Qlt, inject_Z_plus. change (inject_Z 1) with 1. lra. }
  assert (B : (n < Qfloor y + 1)%Z).
  { rewrite Zlt_Qlt, inject_Z_plus. change (inject_Z 1) with 1. lra. }
  lia.
Qed.

Lemma rne_located (y : Q) (mrs : shr_record) :
  located y mrs ->
  rne y = round_nearest_even (shr_m mrs) (loc_of_shr_record mrs).
Proof.
  destruct mrs as [m r s]. unfold located. cbn [shr_m shr_r shr_s].
  intros [H0 H]. unfold rne.
  destruct r, s; cbn [loc_of_shr_record round_nearest_even].
  - (* above half *)
    assert (F : Qfloor (y + (1 # 2)) = (m + 1)%Z).
    { apply floor_unique; rewrite inject_Z_plus; change (inject_Z 1) with 1; lra. }
    rewrite F.
    destruct (Qeq_bool (y + (1 # 2)) (inject_Z (m + 1))) eqn:E; [|reflexivity].
    apply Qeq_bool_iff in E. rewrite inject_Z_plus in E.
    change (inject_Z 1) with 1 in E. lra.
  - (* half *)
    assert (F : Qfloor (y + (1 # 2)) = (m + 1)%Z).
    { apply floor_unique; rewrite inject_Z_plus; change (inject_Z 1) with 1; lra. }
    rewrite F.
    assert (E : Qeq_bool (y + (1 # 2)) (inject_Z (m + 1)) = true).
    { apply Qeq_bool_iff. rewrite inject_Z_plus. change (inject_Z 1) with 1. lra. }
    rewrite E. cbn [andb].
    change (Z.odd (m + 1)) with (Z.odd (Z.succ m)). rewrite Z.odd_succ.
    destruct (Z.even m); [lia|reflexivity].
  - (* below half *)
    assert (F : Qfloor (y + (1 # 2)) = m).
    { apply floor_unique; lra. }
    rewrite F.
    destruct (Qeq_bool (y + (1 # 2)) (inject_Z m)) eqn:E; [|reflexivity].
    apply Qeq_bool_iff in E. lra.
  - (* exact *)
    assert (F : Qfloor (y + (1 # 2)) = m).
    { apply floor_unique; lra. }
    rewrite F.
    destruct (Qeq_bool (y + (1 # 2)) (inject_Z m)) eqn:E; [|reflexivity].
    apply Qeq_bool_iff in E. lra.
Qed.

(** *** the standard rounding of a located number *)

Lemma fexp32_eq (e : Z) : fexp32 e = Z.max (e - 24) (-149).
Proof. reflexivity. Qed.

Lemma located_bounds (y : Q) (m : Z) (l : location) :
  located y (shr_record_of_loc m l) ->
  (0 <= m)%Z /\ inject_Z m <= y /\ y < inject_Z m + 1.
Proof.
  unfold located. destruct l as [|[]]; cbn [shr_record_of_loc shr_m shr_r shr_s];
    intros [H0 H]; (split; [exact H0|]); lra.
Qed.

Lemma record_bounds (y : Q) (mrs : shr_record) :
  located y mrs -> inject_Z (shr_m mrs) <= y /\ y < inject_Z (shr_m mrs) + 1.
Proof.
  unfold located. intros [H0 H]. destruct (shr_r mrs), (shr_s mrs); lra.
Qed.

Lemma first_shift (m e : Z) (l : location) (y : Q) :
  located y (shr_record_of_loc m l) ->
  (e <= fexp32 (Zdigits2 m + e))%Z ->
  exists mrs,
    shr_fexp 24 128 m e l = (mrs, fexp32 (Zdigits2 m + e))
    /\ located (y / 2 ^ (fexp32 (Zdigits2 m + e) - e)) mrs.
Proof.
  intros Hloc Hk. unfold shr_fexp, shr. fold (fexp32 (Zdigits2 m + e)).
  set (e1 := fexp32 (Zdigits2 m + e)) in *.
  destruct (e1 - e)%Z as [|p|p] eqn:Ek; [| |lia].
  - exists (shr_record_of_loc m l). split.
    + f_equal. lia.
    + apply (located_comp y); [|exact Hloc]. change (2 ^ 0) with 1. field.
  - exists (iter_pos shr_1 p (shr_record_of_loc m l)). split.
    + f_equal. lia.
    + apply iter_pos_located, Hloc.
Qed.

Lemma Zdigits2_le_24 (m : Z) : (0 < m < 2 ^ 24)%Z -> (Zdigits2 m <= 24)%Z.
Proof.
  intros [H0 H1]. destruct m as [|p|p]; try lia.
  cbn [Zdigits2]. rewrite digits2_log2.
  pose proof (proj1 (Z.log2_lt_pow2 (Zpos p) 24 ltac:(lia)) H1). lia.
Qed.

Lemma Zdigits2_ge_24 (m : Z) : (2 ^ 23 <= m)%Z -> (24 <= Zdigits2 m)%Z.
Proof.
  intros H. destruct m as [|p|p]; try lia.
  cbn [Zdigits2]. rewrite digits2_log2.
  pose proof (proj1 (Z.log2_le_pow2 (Zpos p) 23 ltac:(lia)) H). lia.
Qed.

Lemma second_shift (m1 e1 : Z) :
  (0 <= m1 <= 2 ^ 24)%Z -> (-149 <= e1)%Z ->
  (-149 < e1 -> 2 ^ 23 <= m1)%Z ->
  exists m2 e2,
    shr_fexp 24 128 m1 e1 loc_Exact = (Build_shr_record m2 false false, e2)
    /\ (0 <= m2)%Z
    /\ inject_Z m2 * 2 ^ e2 == inject_Z m1 * 2 ^ e1
    /\ (0 < m2 -> canonical m2 e2)%Z
    /\ (e2 <= e1 + 1)%Z.
Proof.
  intros Hm He Hnorm.
  destruct (Z.eq_dec m1 (2 ^ 24)) as [E|E].
  - subst m1. exists (2 ^ 23)%Z, (e1 + 1)%Z.
    unfold shr_fexp, shr. change (Zdigits2 (2 ^ 24)) with 25%Z.
    fold (fexp32 (25 + e1)). rewrite fexp32_eq.
    replace (Z.max (25 + e1 - 24) (-149) - e1)%Z with 1%Z by lia.
    split; [reflexivity|]. split; [lia|]. split.
    + rewrite pow2_succ. change (inject_Z (2 ^ 24)) with (2 * inject_Z (2 ^ 23)).
      ring.
    + split; [|lia]. intros _. unfold canonical.
      change (Zdigits2 (2 ^ 23)) with 24%Z. rewrite fexp32_eq. lia.
  - exists m1, e1.
    assert (Hd : (Zdigits2 m1 <= 24)%Z).
    { destruct (Z.eq_dec m1 0) as [->|Hz]; [cbn; lia|].
      apply Zdigits2_le_24. lia. }
    unfold shr_fexp, shr. fold (fexp32 (Zdigits2 m1 + e1)). rewrite fexp32_eq.
    destruct (Z.max (Zdigits2 m1 + e1 - 24) (-149) - e1)%Z as [|p|p] eqn:Ek;
      [| lia |].
    + split; [reflexivity|]. split; [lia|]. split; [reflexivity|].
      split; [|lia]. intros Hpos. unfold canonical. rewrite fexp32_eq. lia.
    + split; [reflexivity|]. split; [lia|]. split; [reflexivity|].
      split; [|lia]. intros Hpos. unfold canonical. rewrite fexp32_eq.
      destruct (Z.eq_dec e1 (-149)) as [->|Hne]; [lia|].
      pose proof (Zdigits2_ge_24 m1 (Hnorm ltac:(lia))). lia.
Qed.

Lemma signed_comp (s : bool) (x y : Q) : x == y -> signed s x == signed s y.
Proof. intros H. unfold signed. destruct s; rewrite H; reflexivity. Qed.

Lemma value_finite (s : bool) (m : positive) (e : Z) :
  Binary32Reference.value (S754_finite s m e)
  == signed s (inject_Z (Zpos m) * 2 ^ e).
Proof.
  unfold Binary32Reference.value, signed. rewrite Qred_correct.
  destruct s; ring.
Qed.

Lemma pow2_sub (a b : Z) : 2 ^ (a - b) == 2 ^ a / 2 ^ b.
Proof.
  pose proof (pow2_pos b).
  replace a with ((a - b) + b)%Z at 2 by ring.
  rewrite pow2_add. field. lra.
Qed.

Lemma bra_correct (sx : bool) (m e : Z) (l : location) (y : Q) :
  located y (shr_record_of_loc m l) ->
  0 < y ->
  ulp_exp (y * 2 ^ e) = fexp32 (Zdigits2 m + e) ->
  (e <= fexp32 (Zdigits2 m + e))%Z ->
  (fexp32 (Zdigits2 m + e) <= 103)%Z ->
  Binary32Reference.value (binary_round_aux 24 128 sx m e l)
    == signed sx (round_pos (y * 2 ^ e))
  /\ valid (binary_round_aux 24 128 sx m e l).
Proof.
  intros Hloc Hy Hulp Hk Hmax.
  set (e1 := fexp32 (Zdigits2 m + e)) in *.
  set (x := y * 2 ^ e) in *.
  pose proof (pow2_pos e) as Pe. pose proof (pow2_pos e1) as Pe1.
  assert (Hx : 0 < x) by (unfold x; nra).
  destruct (first_shift m e l y Hloc Hk) as [mrs [Hfirst Hmrs]].
  fold e1 in Hfirst, Hmrs.
  assert (Hscaled : y / 2 ^ (e1 - e) == x / 2 ^ ulp_exp x).
  { rewrite Hulp. unfold x. rewrite pow2_sub. field. lra. }
  apply (located_comp _ _ _ Hscaled) in Hmrs.
  pose proof (rne_located _ _ Hmrs) as Hrne.
  set (m1 := round_nearest_even (shr_m mrs) (loc_of_shr_record mrs)) in *.
  assert (Hm1 : (0 <= m1 <= 2 ^ 24)%Z).
  { rewrite <- Hrne. split.
    - apply rne_ge_Z. change (inject_Z 0) with 0.
      apply Qle_shift_div_l; [apply pow2_pos|]. lra.
    - apply rne_le_Z. rewrite pow2_Z by lia.
      apply Qlt_le_weak, scaled_lt, Hx. }
  assert (He1 : (-149 <= e1)%Z).
  { unfold e1. rewrite fexp32_eq. lia. }
  assert (Hnorm : (-149 < e1 -> 2 ^ 23 <= m1)%Z).
  { intros H. rewrite <- Hrne. apply rne_ge_Z. rewrite pow2_Z by lia.
    apply scaled_ge; [exact Hx|]. rewrite Hulp. exact H. }
  destruct (second_shift m1 e1 Hm1 He1 Hnorm) as [m2 [e2 [Hsecond [Hm2 [Hval [Hcan He2]]]]]].
  assert (Hround : round_pos x == inject_Z m1 * 2 ^ e1).
  { rewrite round_pos_eq, Hrne, Hulp. reflexivity. }
  unfold binary_round_aux. rewrite Hfirst. fold m1. rewrite Hsecond.
  cbn [shr_m].
  destruct m2 as [|p|p]; [| |lia].
  - split; [|exact I].
    cbn [Binary32Reference.value].
    rewrite (signed_comp sx _ _ Hround), (signed_comp sx _ _ (Qeq_sym _ _ Hval)).
    unfold signed. destruct sx; change (inject_Z 0) with 0; ring.
  - assert (Hle : (e2 <=? 128 - 24)%Z = true) by (apply Z.leb_le; lia).
    rewrite Hle. split.
    + rewrite value_finite. apply signed_comp. rewrite Hround, Hval. reflexivity.
    + apply Hcan. lia.
Qed.

(** *** magnitude of a located number *)

Lemma Zdigits2_pos (p : positive) : Zdigits2 (Zpos p) = Zpos (digits2_pos p).
Proof. reflexivity. Qed.

Lemma succ_le_pow2 (p : positive) :
  inject_Z (Zpos p) + 1 <= 2 ^ Zpos (digits2_pos p).
Proof.
  rewrite digits2_log2.
  destruct (Z.log2_spec (Zpos p) eq_refl) as [_ H].
  assert (H' : (Zpos p + 1 <= 2 ^ (Z.log2 (Zpos p) + 1))%Z).
  { unfold Z.succ in H. lia. }
  rewrite <- pow2_Z by (pose proof (Z.log2_nonneg (Zpos p)); lia).
  change 1 with (inject_Z 1). rewrite <- inject_Z_plus, <- Zle_Qle. exact H'.
Qed.

Lemma mag_located (m e : Z) (l : location) (y : Q) :
  (1 <= m)%Z -> located y (shr_record_of_loc m l) ->
  mag (y * 2 ^ e) = (Zdigits2 m + e)%Z.
Proof.
  intros Hm Hloc. destruct (located_bounds _ _ _ Hloc) as [_ [H1 H2]].
  destruct m as [|p|p]; try lia. rewrite Zdigits2_pos.
  destruct (digits_bounds p) as [D1 _]. pose proof (succ_le_pow2 p) as D2.
  pose proof (pow2_pos e) as Pe.
  pose proof (pow2_pos (Zpos (digits2_pos p) - 1)) as Pd.
  apply mag_unique.
  - nra.
  - replace (Zpos (digits2_pos p) + e - 1)%Z
      with ((Zpos (digits2_pos p) - 1) + e)%Z by ring.
    rewrite pow2_add. nra.
  - rewrite pow2_add. nra.
Qed.

Lemma ulp_located (m e : Z) (l : location) (y : Q) :
  (1 <= m)%Z -> located y (shr_record_of_loc m l) ->
  ulp_exp (y * 2 ^ e) = fexp32 (Zdigits2 m + e).
Proof.
  intros Hm Hloc. unfold ulp_exp. rewrite (mag_located m e l y Hm Hloc).
  reflexivity.
Qed.

Lemma located_exact (m : Z) :
  (0 <= m)%Z -> located (inject_Z m) (shr_record_of_loc m loc_Exact).
Proof. intros H. split; [exact H|]. cbn. reflexivity. Qed.

(** *** aligning a mantissa *)

Lemma iter_xO (m d : positive) :
  Zpos (Pos.iter xO m d) = (Zpos m * 2 ^ Zpos d)%Z.
Proof.
  induction d as [|d IH] using Pos.peano_ind.
  - cbn. lia.
  - rewrite Pos.iter_succ, Pos2Z.inj_succ, Z.pow_succ_r by lia.
    rewrite Pos2Z.inj_xO, IH. ring.
Qed.

Lemma shl_align_spec (mx : positive) (ex ex' : Z) :
  let '(mz, ez) := shl_align mx ex ex' in
  inject_Z (Zpos mz) * 2 ^ ez == inject_Z (Zpos mx) * 2 ^ ex
  /\ ez = Z.min ex ex'.
Proof.
  unfold shl_align. destruct (ex' - ex)%Z as [|d|d] eqn:E.
  - split; [reflexivity|lia].
  - split; [reflexivity|lia].
  - split; [|lia].
    rewrite iter_xO, inject_Z_mult, pow2_Z by lia.
    rewrite <- Qmult_assoc, <- pow2_add.
    replace (Zpos d + ex')%Z with ex by lia. reflexivity.
Qed.

Lemma mag_value (m : positive) (e : Z) :
  mag (inject_Z (Zpos m) * 2 ^ e) = (Zpos (digits2_pos m) + e)%Z.
Proof.
  apply (mag_located (Zpos m) e loc_Exact); [lia|].
  apply located_exact. lia.
Qed.

Lemma mag_comp (x y : Q) : 0 < x -> x == y -> mag x = mag y.
Proof.
  intros Hx E. destruct (mag_spec x Hx) as [A B].
  symmetry. apply mag_unique; lra.
Qed.

Lemma value_pos (m : positive) (e : Z) : 0 < inject_Z (Zpos m) * 2 ^ e.
Proof.
  pose proof (pow2_pos e).
  assert (0 < inject_Z (Zpos m)).
  { change 0 with (inject_Z 0). rewrite <- Zlt_Qlt. lia. }
  nra.
Qed.

Lemma round_pos_comp (x y : Q) : 0 < x -> x == y -> round_pos x == round_pos y.
Proof.
  intros Hx E. rewrite <- (round_gt x Hx), <- (round_gt y ltac:(lra)).
  apply round_comp, E.
Qed.

Lemma binary_round_correct (sx : bool) (mx : positive) (ex : Z) :
  (Zpos (digits2_pos mx) + ex <= 127)%Z ->
  Binary32Reference.value (binary_round 24 128 sx mx ex)
    == signed sx (round_pos (inject_Z (Zpos mx) * 2 ^ ex))
  /\ valid (binary_round 24 128 sx mx ex).
Proof.
  intros Hmax. unfold binary_round.
  fold (fexp32 (Zpos (digits2_pos mx) + ex)).
  pose proof (shl_align_spec mx ex (fexp32 (Zpos (digits2_pos mx) + ex))) as Hal.
  destruct (shl_align mx ex (fexp32 (Zpos (digits2_pos mx) + ex))) as [mz ez].
  destruct Hal as [Hval Hez].
  pose proof (value_pos mz ez) as Hpos.
  assert (Hmag : (Zpos (digits2_pos mz) + ez = Zpos (digits2_pos mx) + ex)%Z).
  { rewrite <- !mag_value. apply mag_comp; assumption. }
  assert (Hloc : located (inject_Z (Zpos mz)) (shr_record_of_loc (Zpos mz) loc_Exact)).
  { apply located_exact. lia. }
  destruct (bra_correct sx (Zpos mz) ez loc_Exact (inject_Z (Zpos mz))) as [V W].
  - exact Hloc.
  - change 0 with (inject_Z 0). rewrite <- Zlt_Qlt. lia.
  - apply (ulp_located (Zpos mz) ez loc_Exact); [lia|exact Hloc].
  - rewrite Zdigits2_pos, Hmag. lia.
  - rewrite Zdigits2_pos, Hmag, fexp32_eq. lia.
  - split; [|exact W]. rewrite V. apply signed_comp.
    apply round_pos_comp; assumption.
Qed.

(** *** signs *)

Lemma round_signed (s : bool) (a : Q) :
  0 < a -> round (signed s a) == signed s (round_pos a).
Proof.
  intros Ha. destruct s; unfold signed.
  - rewrite (round_lt (- a)) by lra.
    assert (E : round_pos (- - a) == round_pos a).
    { apply round_pos_comp; [lra|ring]. }
    rewrite E. reflexivity.
  - rewrite (round_gt a Ha). reflexivity.
Qed.

Lemma signed_mul (s1 s2 : bool) (a b : Q) :
  signed s1 a * signed s2 b == signed (xorb s1 s2) (a * b).
Proof. destruct s1, s2; unfold signed; cbn [xorb]; ring. Qed.

Lemma below_pow2_mag (x : Q) (k : Z) : 0 < x -> x < 2 ^ k -> (mag x <= k)%Z.
Proof.
  intros Hx H. destruct (mag_spec x Hx) as [A _].
  assert (mag x - 1 < k)%Z by (apply pow2_lt_inv; lra). lia.
Qed.

Lemma above_pow2_mag (x : Q) (k : Z) : 2 ^ k <= x -> (k < mag x)%Z.
Proof.
  intros H. pose proof (pow2_pos k).
  destruct (mag_spec x ltac:(lra)) as [_ B].
  apply pow2_lt_inv. lra.
Qed.

(** a canonical number is its own rounding *)
Lemma canonical_fixed (m : positive) (e : Z) :
  canonical (Zpos m) e ->
  round_pos (inject_Z (Zpos m) * 2 ^ e) == inject_Z (Zpos m) * 2 ^ e.
Proof.
  intros Hc. apply (round_pos_exact _ (Zpos m)).
  unfold ulp_exp. rewrite mag_value.
  unfold canonical in Hc. rewrite Zdigits2_pos, fexp32_eq in Hc.
  unfold prec, emin. rewrite Hc. reflexivity.
Qed.

Lemma valid_fixed (x : spec_float) :
  valid x -> round (Binary32Reference.value x) == Binary32Reference.value x.
Proof.
  destruct x as [s|s| |s m e]; cbn [valid]; try contradiction.
  - intros _. reflexivity.
  - intros Hc.
    rewrite (round_comp _ _ (value_finite s m e)), value_finite.
    rewrite (round_signed s _ (value_pos m e)).
    apply signed_comp, canonical_fixed, Hc.
Qed.

(** *** multiplication *)

Lemma digits_mul (a b : positive) :
  (Zpos (digits2_pos a) + Zpos (digits2_pos b) - 1
   <= Zpos (digits2_pos (a * b)))%Z.
Proof.
  rewrite !digits2_log2.
  pose proof (Z.log2_mul_below (Zpos a) (Zpos b) ltac:(lia) ltac:(lia)) as H.
  rewrite <- Pos2Z.inj_mul in H. lia.
Qed.

Lemma canonical_digits (m : positive) (e : Z) :
  canonical (Zpos m) e ->
  (Zpos (digits2_pos m) = 24 /\ -149 <= e)%Z
  \/ (e = -149 /\ Zpos (digits2_pos m) <= 24)%Z.
Proof.
  unfold canonical. rewrite Zdigits2_pos, fexp32_eq. lia.
Qed.

Lemma mul_finite (sx sy : bool) (mx my : positive) (ex ey : Z) :
  canonical (Zpos mx) ex -> canonical (Zpos my) ey ->
  (inject_Z (Zpos mx) * 2 ^ ex) * (inject_Z (Zpos my) * 2 ^ ey) < 2 ^ 127 ->
  Binary32Reference.value
    (SFmul 24 128 (S754_finite sx mx ex) (S754_finite sy my ey))
    == signed (xorb sx sy)
         (round_pos ((inject_Z (Zpos mx) * 2 ^ ex) * (inject_Z (Zpos my) * 2 ^ ey)))
  /\ valid (SFmul 24 128 (S754_finite sx mx ex) (S754_finite sy my ey)).
Proof.
  intros Cx Cy Hmax. cbn [SFmul].
  assert (E : inject_Z (Zpos (mx * my)) * 2 ^ (ex + ey)
              == (inject_Z (Zpos mx) * 2 ^ ex) * (inject_Z (Zpos my) * 2 ^ ey)).
  { rewrite Pos2Z.inj_mul, inject_Z_mult, pow2_add. ring. }
  pose proof (value_pos (mx * my) (ex + ey)) as Hpos.
  assert (Hloc : located (inject_Z (Zpos (mx * my)))
                   (shr_record_of_loc (Zpos (mx * my)) loc_Exact)).
  { apply located_exact. lia. }
  pose proof (mag_value (mx * my) (ex + ey)) as Hmag.
  assert (Hm : (Zpos (digits2_pos (mx * my)) + (ex + ey) <= 127)%Z).
  { rewrite <- Hmag. apply below_pow2_mag; [exact Hpos|]. rewrite E. exact Hmax. }
  pose proof (digits_mul mx my) as Hd.
  destruct (bra_correct (xorb sx sy) (Zpos (mx * my)) (ex + ey) loc_Exact
              (inject_Z (Zpos (mx * my)))) as [V W].
  - exact Hloc.
  - change 0 with (inject_Z 0). rewrite <- Zlt_Qlt. lia.
  - apply (ulp_located _ _ loc_Exact); [lia|exact Hloc].
  - rewrite Zdigits2_pos, fexp32_eq.
    destruct (canonical_digits mx ex Cx) as [[? ?]|[? ?]];
      destruct (canonical_digits my ey Cy) as [[? ?]|[? ?]];
      pose proof (Pos2Z.is_pos (digits2_pos mx));
      pose proof (Pos2Z.is_pos (digits2_pos my)); lia.
  - rewrite Zdigits2_pos, fexp32_eq. lia.
  - split; [|exact W]. rewrite V. apply signed_comp.
    apply round_pos_comp; assumption.
Qed.

Lemma Qabs_signed (s : bool) (a : Q) : 0 < a -> Qabs (signed s a) == a.
Proof.
  intros H. destruct s; unfold signed.
  - rewrite Qabs_neg by lra. ring.
  - apply Qabs_pos. lra.
Qed.

Lemma mul_bridge (x y : spec_float) :
  valid x -> valid y ->
  Qabs (Binary32Reference.value x * Binary32Reference.value y) < 2 ^ 127 ->
  Binary32Reference.value (Binary32Reference.mul x y)
    == Float32.mul (Binary32Reference.value x) (Binary32Reference.value y)
  /\ valid (Binary32Reference.mul x y).
Proof.
  unfold Binary32Reference.mul, Float32.mul.
  destruct x as [sx|sx| |sx mx ex]; cbn [valid]; try contradiction;
    destruct y as [sy|sy| |sy my ey]; cbn [valid]; try contradiction;
    intros Vx Vy Hmax.
  - split; [|exact I]. cbn [SFmul Binary32Reference.value].
    rewrite round_eq0; [reflexivity|ring].
  - split; [|exact I]. cbn [SFmul Binary32Reference.value].
    rewrite round_eq0; [reflexivity|ring].
  - split; [|exact I]. cbn [SFmul Binary32Reference.value].
    rewrite round_eq0; [reflexivity|ring].
  - pose proof (value_pos mx ex) as Px. pose proof (value_pos my ey) as Py.
    assert (E : Binary32Reference.value (S754_finite sx mx ex)
                * Binary32Reference.value (S754_finite sy my ey)
                == signed (xorb sx sy)
                     ((inject_Z (Zpos mx) * 2 ^ ex) * (inject_Z (Zpos my) * 2 ^ ey))).
    { rewrite !value_finite. apply signed_mul. }
    assert (Pxy : 0 < (inject_Z (Zpos mx) * 2 ^ ex) * (inject_Z (Zpos my) * 2 ^ ey))
      by nra.
    rewrite E, (Qabs_signed _ _ Pxy) in Hmax.
    destruct (mul_finite sx sy mx my ex ey Vx Vy Hmax) as [V W].
    split; [|exact W].
    rewrite V, (round_comp _ _ E), (round_signed _ _ Pxy). reflexivity.
Qed.

(** *** conversion from integers and addition *)

Lemma normalize_bridge (M e : Z) :
  Qabs (inject_Z M * 2 ^ e) < 2 ^ 127 ->
  Binary32Reference.value (binary_normalize 24 128 M e false)
    == round (inject_Z M * 2 ^ e)
  /\ valid (binary_normalize 24 128 M e false).
Proof.
  intros Hmax. destruct M as [|p|p]; cbn [binary_normalize].
  - split; [|exact I]. cbn [Binary32Reference.value].
    rewrite round_eq0; [reflexivity|]. change (inject_Z 0) with 0. ring.
  - pose proof (value_pos p e) as Hpos.
    rewrite Qabs_pos in Hmax by lra.
    destruct (binary_round_correct false p e) as [V W].
    { rewrite <- mag_value. apply below_pow2_mag; assumption. }
    split; [|exact W]. rewrite V. unfold signed.
    rewrite (round_gt _ Hpos). reflexivity.
  - pose proof (value_pos p e) as Hpos.
    assert (E : inject_Z (Zneg p) * 2 ^ e
                == signed true (inject_Z (Zpos p) * 2 ^ e)).
    { unfold signed. change (Zneg p) with (- Zpos p)%Z.
      rewrite inject_Z_opp. ring. }
    rewrite E, (Qabs_signed _ _ Hpos) in Hmax.
    destruct (binary_round_correct true p e) as [V W].
    { rewrite <- mag_value. apply below_pow2_mag; assumption. }
    split; [|exact W].
    rewrite V, (round_comp _ _ E), (round_signed _ _ Hpos). reflexivity.
Qed.

Lemma of_int_bridge (n : Z) :
  Qabs (inject_Z n) < 2 ^ 127 ->
  Binary32Reference.value (Binary32Reference.of_int n) == Float32.of_int n
  /\ valid (Binary32Reference.of_int n).
Proof.
  intros H. unfold Binary32Reference.of_int, Float32.of_int.
  destruct (normalize_bridge n 0) as [V W].
  - change (2 ^ 0) with 1. rewrite Qmult_1_r. exact H.
  - split; [|exact W]. rewrite V. apply round_comp.
    change (2 ^ 0) with 1. ring.
Qed.

Lemma aligned_value (s : bool) (m : positive) (e ez : Z) :
  (ez <= e)%Z ->
  inject_Z (cond_Zopp s (Zpos (fst (shl_align m e ez)))) * 2 ^ ez
  == signed s (inject_Z (Zpos m) * 2 ^ e).
Proof.
  intros Hle. pose proof (shl_align_spec m e ez) as H.
  destruct (shl_align m e ez) as [mz ez']. destruct H as [Hv Hz]. cbn [fst].
  subst ez'. replace (Z.min e ez) with ez in Hv by lia.
  unfold signed, cond_Zopp. destruct s.
  - rewrite inject_Z_opp, <- Hv. ring.
  - exact Hv.
Qed.

Lemma add_finite (sx sy : bool) (mx my : positive) (ex ey : Z) :
  Qabs (signed sx (inject_Z (Zpos mx) * 2 ^ ex)
        + signed sy (inject_Z (Zpos my) * 2 ^ ey)) < 2 ^ 127 ->
  Binary32Reference.value
    (SFadd 24 128 (S754_finite sx mx ex) (S754_finite sy my ey))
    == round (signed sx (inject_Z (Zpos mx) * 2 ^ ex)
              + signed sy (inject_Z (Zpos my) * 2 ^ ey))
  /\ valid (SFadd 24 128 (S754_finite sx mx ex) (S754_finite sy my ey)).
Proof.
  intros Hmax. cbn [SFadd].
  set (ez := Z.min ex ey).
  set (M := (cond_Zopp sx (Zpos (fst (shl_align mx ex ez)))
             + cond_Zopp sy (Zpos (fst (shl_align my ey ez))))%Z).
  assert (E : inject_Z M * 2 ^ ez
              == signed sx (inject_Z (Zpos mx) * 2 ^ ex)
                 + signed sy (inject_Z (Zpos my) * 2 ^ ey)).
  { unfold M. rewrite inject_Z_plus, Qmult_plus_distr_l.
    rewrite (aligned_value sx mx ex ez) by (unfold ez; lia).
    rewrite (aligned_value sy my ey ez) by (unfold ez; lia).
    reflexivity. }
  destruct (normalize_bridge M ez) as [V W].
  - rewrite E. exact Hmax.
  - split; [|exact W]. rewrite V. apply round_comp, E.
Qed.

Lemma add_bridge (x y : spec_float) :
  valid x -> valid y ->
  Qabs (Binary32Reference.value x + Binary32Reference.value y) < 2 ^ 127 ->
  Binary32Reference.value (Binary32Reference.add x y)
    == Float32.add (Binary32Reference.value x) (Binary32Reference.value y)
  /\ valid (Binary32Reference.add x y).
Proof.
  unfold Binary32Reference.add, Float32.add.
  destruct x as [sx|sx| |sx mx ex]; cbn [valid]; try contradiction;
    destruct y as [sy|sy| |sy my ey]; cbn [valid]; try contradiction;
    intros Vx Vy Hmax.
  - split.
    + assert (Z0' : Binary32Reference.value
                     (SFadd 24 128 (S754_zero sx) (S754_zero sy)) = 0).
      { destruct sx, sy; reflexivity. }
      rewrite Z0'. reflexivity.
    + destruct sx, sy; exact I.
  - cbn [SFadd]. split; [|exact Vy].
    rewrite <- (valid_fixed (S754_finite sy my ey) Vy) at 1.
    apply round_comp. cbn [Binary32Reference.value]. ring.
  - cbn [SFadd]. split; [|exact Vx].
    rewrite <- (valid_fixed (S754_finite sx mx ex) Vx) at 1.
    apply round_comp. cbn [Binary32Reference.value]. ring.
  - assert (E : Binary32Reference.value (S754_finite sx mx ex)
                + Binary32Reference.value (S754_finite sy my ey)
                == signed sx (inject_Z (Zpos mx) * 2 ^ ex)
                   + signed sy (inject_Z (Zpos my) * 2 ^ ey)).
    { rewrite !value_finite. reflexivity. }
    rewrite E in Hmax.
    destruct (add_finite sx sy mx my ex ey Hmax) as [V W].
    split; [|exact W]. rewrite V. apply round_comp. symmetry. exact E.
Qed.

(** *** division *)

Lemma inject_pos (z : Z) : (0 < z)%Z -> 0 < inject_Z z.
Proof. intros H. change 0 with (inject_Z 0). rewrite <- Zlt_Qlt. exact H. Qed.

Lemma inject_nonneg (z : Z) : (0 <= z)%Z -> 0 <= inject_Z z.
Proof. intros H. change 0 with (inject_Z 0). rewrite <- Zle_Qle. exact H. Qed.

Lemma new_location_located (n k q : Z) :
  (0 < n)%Z -> (0 <= k < n)%Z -> (0 <= q)%Z ->
  located (inject_Z q + inject_Z k / inject_Z n)
          (shr_record_of_loc q (new_location n k)).
Proof.
  intros Hn Hk Hq.
  pose proof (inject_pos n Hn) as PN.
  set (f := inject_Z k / inject_Z n).
  assert (Hf : f * inject_Z n == inject_Z k).
  { unfold f. field. lra. }
  assert (cmp_lt : forall a b : Z, (a < b)%Z -> inject_Z a < inject_Z b).
  { intros a b H. rewrite <- Zlt_Qlt. exact H. }
  assert (H2k : inject_Z (2 * k) == 2 * inject_Z k).
  { rewrite inject_Z_mult. reflexivity. }
  assert (Hexact : k = 0%Z ->
            located (inject_Z q + f) (shr_record_of_loc q loc_Exact)).
  { intros K0.
    assert (Hz : f == 0).
    { unfold f. rewrite K0. change (inject_Z 0) with 0. field. lra. }
    split; [exact Hq|]. cbn [shr_record_of_loc shr_m shr_r shr_s]. lra. }
  unfold new_location.
  destruct (Z.even n) eqn:Ev; unfold new_location_even, new_location_odd;
    destruct (Z.eqb_spec k 0) as [K0|K0]; try (apply Hexact; exact K0).
  - assert (Kpos : 0 < inject_Z k) by (apply inject_pos; lia).
    assert (Fpos : 0 < f) by (unfold f; apply Qlt_shift_div_l; lra).
    destruct (Z.compare_spec (2 * k) n) as [E|E|E];
      (split; [exact Hq|]); cbn [shr_record_of_loc shr_m shr_r shr_s].
    + assert (inject_Z (2 * k) == inject_Z n) by (rewrite E; reflexivity). nra.
    + apply cmp_lt in E. nra.
    + apply cmp_lt in E.
      assert (Hk' : inject_Z k < inject_Z n) by (apply cmp_lt; lia).
      split; nra.
  - assert (Kpos : 0 < inject_Z k) by (apply inject_pos; lia).
    assert (Fpos : 0 < f) by (unfold f; apply Qlt_shift_div_l; lra).
    assert (Hodd : (2 * k <> n)%Z).
    { intros E. rewrite <- E, Z.even_mul in Ev. discriminate. }
    destruct (Z.compare_spec (2 * k + 1) n) as [E|E|E];
      (split; [exact Hq|]); cbn [shr_record_of_loc shr_m shr_r shr_s].
    + assert (E' : (2 * k < n)%Z) by lia. apply cmp_lt in E'. nra.
    + assert (E' : (2 * k < n)%Z) by lia. apply cmp_lt in E'. nra.
    + assert (E' : (n < 2 * k)%Z) by lia. apply cmp_lt in E'.
      assert (Hk' : inject_Z k < inject_Z n) by (apply cmp_lt; lia).
      split; nra.
Qed.

Lemma fexp32_mono (a b : Z) : (a <= b)%Z -> (fexp32 a <= fexp32 b)%Z.
Proof. rewrite !fexp32_eq. lia. Qed.

Lemma div_finite (sx sy : bool) (mx my : positive) (ex ey : Z) :
  let x := (inject_Z (Zpos mx) * 2 ^ ex) / (inject_Z (Zpos my) * 2 ^ ey) in
  2 ^ (-124) <= x -> x < 2 ^ 127 ->
  Binary32Reference.value
    (SFdiv 24 128 (S754_finite sx mx ex) (S754_finite sy my ey))
    == signed (xorb sx sy) (round_pos x)
  /\ valid (SFdiv 24 128 (S754_finite sx mx ex) (S754_finite sy my ey)).
Proof.
  intros x Hlow Hhigh.
  pose proof (value_pos mx ex) as Px. pose proof (value_pos my ey) as Py.
  assert (Hx : 0 < x).
  { pose proof (pow2_pos (-124)). lra. }
  set (d1 := Zpos (digits2_pos mx)). set (d2 := Zpos (digits2_pos my)).
  set (g := (d1 + ex - (d2 + ey))%Z).
  (* magnitude of the quotient *)
  assert (Hg : (g <= mag x)%Z).
  { assert (A : 2 ^ (g - 1) <= x).
    { destruct (digits_bounds mx) as [A1 _]. destruct (digits_bounds my) as [_ B2].
      fold d1 in A1. fold d2 in B2.
      pose proof (pow2_pos ex). pose proof (pow2_pos ey).
      pose proof (pow2_pos (d1 - 1)). pose proof (pow2_pos d2).
      assert (N : 2 ^ (d1 - 1 + ex) <= inject_Z (Zpos mx) * 2 ^ ex).
      { rewrite pow2_add. nra. }
      assert (D : inject_Z (Zpos my) * 2 ^ ey <= 2 ^ (d2 + ey)).
      { rewrite pow2_add. nra. }
      replace (g - 1)%Z with ((d1 - 1 + ex) - (d2 + ey))%Z by (unfold g; ring).
      rewrite pow2_sub. unfold x.
      pose proof (pow2_pos (d1 - 1 + ex)). pose proof (pow2_pos (d2 + ey)).
      apply Qle_shift_div_l; [lra|].
      assert (Q1 : 2 ^ (d1 - 1 + ex) / 2 ^ (d2 + ey) * 2 ^ (d2 + ey)
                   == 2 ^ (d1 - 1 + ex)) by (field; lra).
      assert (Q2 : 0 < 2 ^ (d1 - 1 + ex) / 2 ^ (d2 + ey)).
      { apply Qlt_shift_div_l; lra. }
      nra. }
    pose proof (above_pow2_mag x (g - 1) A). lia. }
  assert (Hm1 : (-124 < mag x)%Z) by (apply above_pow2_mag, Hlow).
  assert (Hm2 : (mag x <= 127)%Z) by (apply below_pow2_mag; assumption).
  cbn [SFdiv]. unfold SFdiv_core_binary.
  rewrite !Zdigits2_pos. fold d1 d2. fold (fexp32 (d1 + ex - (d2 + ey))). fold g.
  set (e' := Z.min (fexp32 g) (ex - ey)).
  set (s := (ex - ey - e')%Z).
  assert (Hs : (0 <= s)%Z) by (unfold s, e'; lia).
  set (m' := match s with
             | 0%Z => Zpos mx
             | Zpos _ => Z.shiftl (Zpos mx) s
             | Zneg _ => 0%Z
             end).
  assert (Hm' : m' = (Zpos mx * 2 ^ s)%Z).
  { unfold m'. destruct s as [|p|p] eqn:Es.
    - lia.
    - rewrite Z.shiftl_mul_pow2 by lia. reflexivity.
    - lia. }
  pose proof (Z.div_eucl_eq m' (Zpos my) ltac:(lia)) as Hdiv.
  pose proof (Z.mod_pos_bound m' (Zpos my) ltac:(lia)) as Hmod.
  unfold Z.modulo in Hmod.
  destruct (Z.div_eucl m' (Zpos my)) as [q r].
  set (y := inject_Z q + inject_Z r / inject_Z (Zpos my)).
  pose proof (inject_pos (Zpos my) eq_refl) as PM.
  assert (Hy : y == inject_Z m' / inject_Z (Zpos my)).
  { unfold y. rewrite Hdiv, inject_Z_plus, inject_Z_mult. field. lra. }
  pose proof (pow2_pos e') as Pe'. pose proof (pow2_pos ex). pose proof (pow2_pos ey).
  pose proof (pow2_pos s) as Ps.
  assert (Hxy : y * 2 ^ e' == x).
  { rewrite Hy, Hm', inject_Z_mult, pow2_Z by exact Hs. unfold x.
    assert (P : 2 ^ ex == 2 ^ s * 2 ^ e' * 2 ^ ey).
    { rewrite <- !pow2_add. f_equiv. unfold s. ring. }
    rewrite P. field. split; lra. }
  (* the quotient mantissa is at least 1 *)
  assert (He' : (e' <= mag x - 1)%Z).
  { unfold e'. rewrite fexp32_eq. lia. }
  assert (Hy1 : 1 <= y).
  { destruct (mag_spec x Hx) as [M1 _].
    pose proof (pow2_le e' (mag x - 1) He') as L.
    assert (Y : y == x / 2 ^ e') by (rewrite <- Hxy; field; lra).
    rewrite Y. apply Qle_shift_div_l; lra. }
  assert (Hq0 : (0 <= q)%Z).
  { assert (0 <= m')%Z by (rewrite Hm'; pose proof (Z.pow_nonneg 2 s); nia).
    nia. }
  assert (Hloc : located y (shr_record_of_loc q (new_location (Zpos my) r))).
  { apply new_location_located; lia. }
  assert (Hq1 : (1 <= q)%Z).
  { destruct (located_bounds _ _ _ Hloc) as [_ [_ B]].
    assert (Q0 : inject_Z 0 < inject_Z q).
    { change (inject_Z 0) with 0. lra. }
    rewrite <- Zlt_Qlt in Q0. lia. }
  assert (Hmag : (Zdigits2 q + e')%Z = mag x).
  { rewrite <- (mag_located q e' _ y Hq1 Hloc). apply mag_comp; [|exact Hxy]. nra. }
  destruct (bra_correct (xorb sx sy) q e' (new_location (Zpos my) r) y) as [V W].
  - exact Hloc.
  - lra.
  - apply (ulp_located q e' _ y Hq1 Hloc).
  - rewrite Hmag. pose proof (fexp32_mono g (mag x) Hg). unfold e'. lia.
  - rewrite Hmag, fexp32_eq. lia.
  - split; [|exact W]. rewrite V. apply signed_comp.
    apply round_pos_comp; [nra|exact Hxy].
Qed.

Lemma signed_div (s1 s2 : bool) (a b : Q) :
  ~ b == 0 -> signed s1 a / signed s2 b == signed (xorb s1 s2) (a / b).
Proof. intros Hb. destruct s1, s2; unfold signed; cbn [xorb]; field; lra. Qed.

Lemma div_bridge (x y : spec_float) :
  valid x -> valid y ->
  2 ^ (-124) <= Qabs (Binary32Reference.value x / Binary32Reference.value y) ->
  Qabs (Binary32Reference.value x / Binary32Reference.value y) < 2 ^ 127 ->
  Binary32Reference.value (Binary32Reference.div x y)
    == Float32.div (Binary32Reference.value x) (Binary32Reference.value y)
  /\ valid (Binary32Reference.div x y).
Proof.
  unfold Binary32Reference.div, Float32.div.
  pose proof (pow2_pos (-124)) as P.
  assert (Z1 : forall v, ~ 2 ^ (-124) <= Qabs (0 / v)).
  { intros v H. assert (E : 0 / v == 0) by (unfold Qdiv; ring).
    rewrite E in H. change (Qabs 0) with 0 in H. lra. }
  assert (Z2 : forall v, ~ 2 ^ (-124) <= Qabs (v / 0)).
  { intros v H. assert (E : v / 0 == 0).
    { unfold Qdiv. change (/ 0) with 0. ring. }
    rewrite E in H. change (Qabs 0) with 0 in H. lra. }
  destruct x as [sx|sx| |sx mx ex]; cbn [valid]; try contradiction;
    destruct y as [sy|sy| |sy my ey]; cbn [valid]; try contradiction;
    intros Vx Vy Hmin Hmax; cbn [Binary32Reference.value] in Hmin;
    try (exfalso; eapply Z1; exact Hmin); try (exfalso; eapply Z2; exact Hmin).
  fold (Binary32Reference.value (S754_finite sx mx ex)) in Hmin.
  fold (Binary32Reference.value (S754_finite sy my ey)) in Hmin.
  pose proof (value_pos mx ex) as Px. pose proof (value_pos my ey) as Py.
  assert (E : Binary32Reference.value (S754_finite sx mx ex)
              / Binary32Reference.value (S754_finite sy my ey)
              == signed (xorb sx sy)
                   ((inject_Z (Zpos mx) * 2 ^ ex) / (inject_Z (Zpos my) * 2 ^ ey))).
  { rewrite !value_finite. apply signed_div. lra. }
  assert (Pxy : 0 < (inject_Z (Zpos mx) * 2 ^ ex) / (inject_Z (Zpos my) * 2 ^ ey)).
  { apply Qlt_shift_div_l; lra. }
  rewrite E, (Qabs_signed _ _ Pxy) in Hmin, Hmax.
  destruct (div_finite sx sy mx my ex ey Hmin Hmax) as [V W].
  split; [|exact W].
  rewrite V, (round_comp _ _ E), (round_signed _ _ Pxy). reflexivity.
Qed.

(** *** bounds on rounded values *)

Lemma round_pow2 (k : Z) : (-149 <= k)%Z -> round (2 ^ k) == 2 ^ k.
Proof.
  intros Hk. pose proof (pow2_pos k) as P.
  rewrite (round_gt _ P).
  assert (M : mag (2 ^ k) = (k + 1)%Z).
  { pose proof (pow2_succ k) as S. apply mag_unique; [exact P| |lra].
    replace (k + 1 - 1)%Z with k by ring. lra. }
  set (e := ulp_exp (2 ^ k)).
  assert (He : (e <= k)%Z).
  { unfold e, ulp_exp, prec, emin. rewrite M. lia. }
  apply (round_pos_exact _ (2 ^ (k - e))). fold e.
  rewrite pow2_Z by lia. rewrite <- pow2_add. f_equiv. ring.
Qed.

Lemma round_opp (x : Q) : round (- x) == - round x.
Proof.
  destruct (Qlt_le_dec 0 x) as [H|H].
  - rewrite (round_lt (- x)) by lra. rewrite (round_gt x H).
    assert (E : round_pos (- - x) == round_pos x).
    { apply round_pos_comp; [lra|ring]. }
    rewrite E. reflexivity.
  - destruct (Qlt_le_dec x 0) as [H'|H'].
    + rewrite (round_lt x H'). rewrite (round_gt (- x)) by lra. ring.
    + assert (E : x == 0) by lra.
      rewrite (round_eq0 x E). rewrite (round_eq0 (- x)) by lra. reflexivity.
Qed.

Lemma round_abs_le (x : Q) (k : Z) :
  (-149 <= k)%Z -> Qabs x <= 2 ^ k -> Qabs (round x) <= 2 ^ k.
Proof.
  intros Hk H. apply Qabs_Qle_condition in H. destruct H as [H1 H2].
  apply Qabs_Qle_condition. split.
  - rewrite <- (round_pow2 k Hk), <- round_opp. apply round_mono, H1.
  - rewrite <- (round_pow2 k Hk). apply round_mono, H2.
Qed.

Lemma round_ge_pow2 (x : Q) (k : Z) :
  (-149 <= k)%Z -> 2 ^ k <= x -> 2 ^ k <= round x.
Proof.
  intros Hk H. rewrite <- (round_pow2 k Hk). apply round_mono, H.
Qed.

Lemma of_int_bounds (n : Z) :
  Int32.in_range n -> Qabs (inject_Z n) <= 2 ^ 31.
Proof.
  unfold Int32.in_range, Int32.INT_MIN, Int32.INT_MAX. intros H.
  apply Qabs_Qle_condition.
  rewrite <- (pow2_Z 31) by lia. rewrite <- inject_Z_opp, <- !Zle_Qle. lia.
Qed.

Lemma pow2_lt (a b : Z) : (a < b)%Z -> 2 ^ a < 2 ^ b.
Proof.
  intros H. pose proof (pow2_le (a + 1) b ltac:(lia)) as L.
  rewrite pow2_succ in L. pose proof (pow2_pos a). lra.
Qed.

(** *** the interpolation expressions

    For every start angle, difference, loop index and step count the
    program can hold, the fraction [i / steps], the product with the
    difference and the sum with the start angle are the same numbers in
    [SpecFloat]'s binary32 and in [Float32]. *)

Theorem float_model_is_binary32 (start delta i steps : Z) :
  Int32.in_range start -> Int32.in_range delta ->
  Int32.in_range i -> Int32.in_range steps ->
  (1 <= i)%Z -> (1 <= steps)%Z ->
  Binary32Reference.agree start delta i steps = true.
Proof.
  intros Rs Rd Ri Rn Hi Hn. unfold Binary32Reference.agree.
  pose proof (pow2_lt 31 127 eq_refl) as L31.
  pose proof (pow2_lt 62 127 eq_refl) as L62.
  pose proof (pow2_lt 63 127 eq_refl) as L63.
  destruct (of_int_bridge i) as [Vi Wi].
  { pose proof (of_int_bounds i Ri). lra. }
  destruct (of_int_bridge steps) as [Vn Wn].
  { pose proof (of_int_bounds steps Rn). lra. }
  destruct (of_int_bridge delta) as [Vd Wd].
  { pose proof (of_int_bounds delta Rd). lra. }
  destruct (of_int_bridge start) as [Vs Ws].
  { pose proof (of_int_bounds start Rs). lra. }
  (* the operands of the division *)
  assert (Bi : 1 <= Float32.of_int i /\ Float32.of_int i <= 2 ^ 31).
  { unfold Float32.of_int. split.
    - change 1 with (2 ^ 0). apply round_ge_pow2; [lia|].
      change (2 ^ 0) with (inject_Z 1). rewrite <- Zle_Qle. exact Hi.
    - pose proof (round_abs_le _ 31 ltac:(lia) (of_int_bounds i Ri)) as B.
      apply Qabs_Qle_condition in B. lra. }
  assert (Bn : 1 <= Float32.of_int steps /\ Float32.of_int steps <= 2 ^ 31).
  { unfold Float32.of_int. split.
    - change 1 with (2 ^ 0). apply round_ge_pow2; [lia|].
      change (2 ^ 0) with (inject_Z 1). rewrite <- Zle_Qle. exact Hn.
    - pose proof (round_abs_le _ 31 ltac:(lia) (of_int_bounds steps Rn)) as B.
      apply Qabs_Qle_condition in B. lra. }
  set (q := Float32.of_int i / Float32.of_int steps).
  assert (Bq : 2 ^ (-31) <= q /\ q <= 2 ^ 31).
  { unfold q. destruct Bi as [I1 I2], Bn as [N1 N2].
    assert (P31 : 2 ^ (-31) * 2 ^ 31 == 1) by reflexivity.
    pose proof (pow2_pos (-31)). pose proof (pow2_pos 31).
    split.
    - apply Qle_shift_div_l; [lra|]. nra.
    - apply Qle_shift_div_r; [lra|]. nra. }
  assert (Eq : Binary32Reference.value (Binary32Reference.of_int i)
               / Binary32Reference.value (Binary32Reference.of_int steps) == q).
  { unfold q. rewrite Vi, Vn. reflexivity. }
  destruct (div_bridge _ _ Wi Wn) as [Vt Wt].
  { rewrite Eq, Qabs_pos by lra.
    pose proof (pow2_le (-124) (-31) ltac:(lia)). lra. }
  { rewrite Eq, Qabs_pos by lra. lra. }
  set (t := Binary32Reference.div (Binary32Reference.of_int i)
              (Binary32Reference.of_int steps)) in *.
  assert (Et : Binary32Reference.value t
               == Float32.div (Float32.of_int i) (Float32.of_int steps)).
  { rewrite Vt. unfold Float32.div. apply round_comp. exact Eq. }
  assert (Bt : Qabs (Float32.div (Float32.of_int i) (Float32.of_int steps))
               <= 2 ^ 31).
  { unfold Float32.div. fold q. apply round_abs_le; [lia|].
    rewrite Qabs_pos by lra. lra. }
  assert (Bd : Qabs (Float32.of_int delta) <= 2 ^ 31).
  { unfold Float32.of_int. apply round_abs_le; [lia|]. apply of_int_bounds, Rd. }
  assert (Bs : Qabs (Float32.of_int start) <= 2 ^ 31).
  { unfold Float32.of_int. apply round_abs_le; [lia|]. apply of_int_bounds, Rs. }
  set (tq := Float32.div (Float32.of_int i) (Float32.of_int steps)) in *.
  set (pq := Float32.of_int delta * tq).
  assert (Bp : Qabs pq <= 2 ^ 62).
  { unfold pq. rewrite Qabs_Qmult.
    assert (P62 : 2 ^ 62 == 2 ^ 31 * 2 ^ 31) by reflexivity.
    pose proof (Qabs_nonneg (Float32.of_int delta)).
    pose proof (Qabs_nonneg tq). pose proof (pow2_pos 31). nra. }
  assert (Ep : Binary32Reference.value (Binary32Reference.of_int delta)
               * Binary32Reference.value t == pq).
  { unfold pq. rewrite Vd, Et. reflexivity. }
  destruct (mul_bridge _ _ Wd Wt) as [Vp Wp].
  { rewrite Ep. lra. }
  set (p := Binary32Reference.mul (Binary32Reference.of_int delta) t) in *.
  assert (Ep' : Binary32Reference.value p == Float32.mul (Float32.of_int delta) tq).
  { rewrite Vp. unfold Float32.mul. apply round_comp. exact Ep. }
  assert (Bp' : Qabs (Float32.mul (Float32.of_int delta) tq) <= 2 ^ 62).
  { unfold Float32.mul. apply round_abs_le; [lia|]. exact Bp. }
  set (mq := Float32.mul (Float32.of_int delta) tq) in *.
  assert (Es : Binary32Reference.value (Binary32Reference.of_int start)
               + Binary32Reference.value p == Float32.of_int start + mq).
  { rewrite Vs, Ep'. reflexivity. }
  destruct (add_bridge _ _ Ws Wp) as [Va Wa].
  { rewrite Es.
    pose proof (Qabs_triangle (Float32.of_int start) mq) as T.
    assert (P63 : 2 ^ 63 == 2 * 2 ^ 62) by reflexivity.
    pose proof (pow2_le 31 62 ltac:(lia)). lra. }
  rewrite !andb_true_iff. repeat split; apply Qeq_bool_iff.
  - exact Et.
  - exact Ep'.
  - rewrite Va. unfold Float32.add. apply round_comp. exact Es.
Qed.

End Binary32Bridge.

(** * Facts about [int] arithmetic and the step count *)

Module Int32Facts.
Import Int32.

Lemma wrap_in_range (z : Z) : in_range (wrap z).
Proof.
  unfold in_range, wrap, INT_MIN, INT_MAX.
  pose proof (Z.mod_pos_bound (z + 2 ^ 31) (2 ^ 32) ltac:(lia)). lia.
Qed.

Lemma wrap_id (z : Z) : in_range z -> wrap z = z.
Proof.
  unfold in_range, wrap, INT_MIN, INT_MAX. intros H.
  rewrite Z.mod_small by lia. lia.
Qed.

Lemma sub_in_range (a b : Z) : in_range (sub a b).
Proof. apply wrap_in_range. Qed.

Lemma abs_in_range (x : Z) : in_range x -> in_range (abs x).
Proof.
  intros H. unfold abs. destruct (x >? 0); [exact H | apply wrap_in_range].
Qed.

Lemma abs_exact (x : Z) : INT_MIN < x <= INT_MAX -> abs x = Z.abs x.
Proof.
  unfold abs, neg, INT_MIN, INT_MAX. intros H.
  destruct (Z.gtb_spec x 0) as [Hp|Hn]; [lia|].
  rewrite wrap_id by (unfold in_range, INT_MIN, INT_MAX; lia). lia.
Qed.

Lemma div_nonzero (a b : Z) : b <> 0 -> div a b = Some (wrap (Z.quot a b)).
Proof.
  intros H. unfold div. destruct (Z.eqb_spec b 0) as [E|E]; [contradiction|reflexivity].
Qed.

End Int32Facts.

Lemma max5_spec (a b c d e : Z) :
  max5 a b c d e = Z.max a (Z.max b (Z.max c (Z.max d e))).
Proof.
  unfold max5. cbv zeta.
  repeat (match goal with
          | |- context [?x >? ?y] =>
              is_var x; is_var y; destruct (Z.gtb_spec x y)
          end; cbv iota); lia.
Qed.

Lemma max5_in_range (a b c d e : Z) :
  Int32.in_range a -> Int32.in_range b -> Int32.in_range c ->
  Int32.in_range d -> Int32.in_range e -> Int32.in_range (max5 a b c d e).
Proof.
  unfold Int32.in_range. intros. rewrite max5_spec. lia.
Qed.

Lemma maxDelta_in_range (start target : Pose) :
  Int32.in_range (maxDelta (deltas start target)).
Proof.
  unfold maxDelta, deltas; cbn [base shoulder elbow wrist gripper].
  apply max5_in_range; apply Int32Facts.abs_in_range, Int32Facts.sub_in_range.
Qed.

Lemma stepCount_some (m stepSize : Z) :
  stepSize <> 0 ->
  stepCount m stepSize =
    Some (if Int32.wrap (Z.quot m stepSize) <? 1 then 1
          else Int32.wrap (Z.quot m stepSize)).
Proof.
  intros H. unfold stepCount. rewrite Int32Facts.div_nonzero by exact H.
  reflexivity.
Qed.

Lemma stepCount_bounds (m stepSize steps : Z) :
  stepCount m stepSize = Some steps -> 1 <= steps <= Int32.INT_MAX.
Proof.
  unfold stepCount, Int32.div.
  destruct (stepSize =? 0); [discriminate|].
  intros H. injection H as <-.
  pose proof (Int32Facts.wrap_in_range (Z.quot m stepSize)) as R.
  unfold Int32.in_range, Int32.INT_MAX, Int32.INT_MIN in *.
  destruct (Z.ltb_spec (Int32.wrap (Z.quot m stepSize)) 1); lia.
Qed.

Lemma quot_in_range (m stepSize : Z) :
  Int32.in_range m -> 0 < stepSize -> Int32.in_range (Z.quot m stepSize).
Proof.
  unfold Int32.in_range, Int32.INT_MIN, Int32.INT_MAX. intros Hm Hs.
  destruct (Z.le_gt_cases 0 m) as [Hp|Hn].
  - pose proof (Z.quot_pos m stepSize Hp Hs).
    pose proof (Z.quot_le_upper_bound m stepSize m Hs ltac:(nia)). lia.
  - assert (Hq : Z.quot m stepSize = - Z.quot (- m) stepSize).
    { rewrite Z.quot_opp_l by lia. lia. }
    pose proof (Z.quot_pos (- m) stepSize ltac:(lia) Hs).
    pose proof (Z.quot_le_upper_bound (- m) stepSize (- m) Hs ltac:(nia)). lia.
Qed.

(** For a positive step size the count is [max(1, floor(maxDelta/stepSize))]. *)
Lemma stepCount_positive (m stepSize : Z) :
  0 <= m <= Int32.INT_MAX -> 0 < stepSize ->
  stepCount m stepSize = Some (Z.max 1 (m / stepSize)).
Proof.
  intros Hm Hs. rewrite stepCount_some by lia.
  assert (Hq : Z.quot m stepSize = m / stepSize).
  { apply Z.quot_div_nonneg; lia. }
  rewrite Int32Facts.wrap_id.
  - rewrite Hq. destruct (Z.ltb_spec (m / stepSize) 1); f_equal; lia.
  - apply quot_in_range; [|exact Hs].
    unfold Int32.in_range, Int32.INT_MIN, Int32.INT_MAX in *. lia.
Qed.

(** A negative step size always yields a single step. *)
Lemma stepCount_negative (m stepSize : Z) :
  0 <= m <= Int32.INT_MAX -> stepSize < 0 -> stepCount m stepSize = Some 1.
Proof.
  intros Hm Hs. rewrite stepCount_some by lia.
  assert (Hq : - m <= Z.quot m stepSize <= 0).
  { rewrite <- (Z.opp_involutive stepSize), Z.quot_opp_r by lia.
    pose proof (Z.quot_pos m (- stepSize) ltac:(lia) ltac:(lia)).
    pose proof (Z.quot_le_upper_bound m (- stepSize) m ltac:(lia) ltac:(nia)).
    lia. }
  rewrite Int32Facts.wrap_id.
  - destruct (Z.ltb_spec (Z.quot m stepSize) 1); [reflexivity|lia].
  - unfold Int32.in_range, Int32.INT_MAX, Int32.INT_MIN in *. lia.
Qed.

(** * The interpolation loop *)

Lemma emit_nil (st : state) : emit [] st = st.
Proof. destruct st. unfold emit. cbn. rewrite app_nil_r. reflexivity. Qed.

Lemma emit_emit (a b : list event) (st : state) :
  emit b (emit a st) = emit (a ++ b) st.
Proof. unfold emit. cbn. rewrite app_assoc. reflexivity. Qed.

Section InterpolatorFacts.

Variable servoWrites : Pose -> list event.
Variable lerp : Z -> Z -> Float32.float -> Z.

Local Abbreviation run_loop := (move_loop servoWrites lerp).
Local Abbreviation run_move := (moveToPose servoWrites lerp).
Local Abbreviation events_of_loop := (loop_events servoWrites lerp).
Local Abbreviation events_of_move := (move_events servoWrites lerp).

Lemma loop_body (fuel : nat) (start delta : Pose) (steps ms i : Z) (st : state) :
  i <= steps ->
  run_loop (S fuel) start delta steps ms i st =
  run_loop fuel start delta steps ms (Int32.add i 1)
    (emit (step_events servoWrites lerp start delta steps ms i) st).
Proof.
  intros Hi. cbn [move_loop].
  destruct (Z.leb_spec i steps) as [_|H]; [|lia].
  unfold writePose. rewrite emit_emit. reflexivity.
Qed.

Lemma loop_exit (fuel : nat) (start delta : Pose) (steps ms i : Z) (st : state) :
  steps < i -> run_loop fuel start delta steps ms i st = Done st.
Proof.
  intros Hi.   destruct fuel; cbn [move_loop];
    destruct (Z.leb_spec i steps) as [H|_]; try lia; reflexivity.
Qed.

Lemma loop_no_fuel (start delta : Pose) (steps ms i : Z) (st : state) :
  i <= steps -> run_loop O start delta steps ms i st = OutOfFuel.
Proof.
  intros Hi. cbn [move_loop].
  destruct (Z.leb_spec i steps) as [_|H]; [reflexivity|lia].
Qed.

Lemma next_index (i steps : Z) :
  Int32.in_range i -> i <= steps -> steps < Int32.INT_MAX ->
  Int32.add i 1 = i + 1.
Proof.
  intros Hr Hi Hs. apply Int32Facts.wrap_id.
  unfold Int32.in_range, Int32.INT_MAX, Int32.INT_MIN in *. lia.
Qed.

(** Enough fuel runs the loop to its end. *)
Lemma move_loop_complete (start delta : Pose) (steps ms : Z) :
  steps < Int32.INT_MAX ->
  forall (len : nat) (i : Z) (st : state) (fuel : nat),
    Int32.in_range i -> i + Z.of_nat len = steps + 1 -> (len <= fuel)%nat ->
    run_loop fuel start delta steps ms i st =
    Done (emit (events_of_loop start delta steps ms i len) st).
Proof.
  intros Hs. induction len as [|len IH]; intros i st fuel Hr Hlen Hfuel.
  - rewrite loop_exit by lia. cbn. rewrite emit_nil. reflexivity.
  - destruct fuel as [|fuel]; [lia|].
    rewrite loop_body by lia. rewrite (next_index i steps) by (assumption || lia).
    rewrite IH.
    + rewrite emit_emit. reflexivity.
    + unfold Int32.in_range, Int32.INT_MAX, Int32.INT_MIN in *. lia.
    + lia.
    + lia.
Qed.

(** A loop that ends has run exactly the remaining indices. *)
Lemma move_loop_done (start delta : Pose) (steps ms : Z) :
  steps < Int32.INT_MAX ->
  forall (fuel : nat) (i : Z) (st st' : state),
    Int32.in_range i ->
    run_loop fuel start delta steps ms i st = Done st' ->
    st' = emit (events_of_loop start delta steps ms i (Z.to_nat (steps + 1 - i))) st.
Proof.
  intros Hs. induction fuel as [|fuel IH]; intros i st st' Hr Hrun.
  - destruct (Z.le_gt_cases i steps) as [Hi|Hi].
    + rewrite loop_no_fuel in Hrun by exact Hi. discriminate.
    + rewrite loop_exit in Hrun by lia. injection Hrun as <-.
      replace (Z.to_nat (steps + 1 - i)) with O by lia.
      cbn. rewrite emit_nil. reflexivity.
  - destruct (Z.le_gt_cases i steps) as [Hi|Hi].
    + rewrite loop_body in Hrun by exact Hi.
      rewrite (next_index i steps) in Hrun by assumption.
      apply IH in Hrun.
      * rewrite emit_emit in Hrun. subst st'.
        replace (Z.to_nat (steps + 1 - i))
          with (S (Z.to_nat (steps + 1 - (i + 1)))) by lia.
        reflexivity.
      * unfold Int32.in_range, Int32.INT_MAX, Int32.INT_MIN in *. lia.
    + rewrite loop_exit in Hrun by lia. injection Hrun as <-.
      replace (Z.to_nat (steps + 1 - i)) with O by lia.
      cbn. rewrite emit_nil. reflexivity.
Qed.

(** With [steps = INT_MAX] the test [i <= steps] never fails. *)
Lemma move_loop_never (start delta : Pose) (ms : Z) :
  forall (fuel : nat) (i : Z) (st st' : state),
    Int32.in_range i ->
    run_loop fuel start delta Int32.INT_MAX ms i st <> Done st'.
Proof.
  induction fuel as [|fuel IH]; intros i st st' Hr.
  - rewrite loop_no_fuel by apply Hr. discriminate.
  - rewrite loop_body by apply Hr. apply IH, Int32Facts.wrap_in_range.
Qed.

Lemma one_in_range : Int32.in_range 1.
Proof. unfold Int32.in_range, Int32.INT_MIN, Int32.INT_MAX. lia. Qed.

Lemma moveToPose_unfold (fuel : nat) (target : Pose) (ms stepSize : Z) (st : state) :
  run_move fuel target ms stepSize st =
  match stepCount (maxDelta (deltas (currentPose st) target)) stepSize with
  | None => DivisionByZero
  | Some steps =>
      match run_loop fuel (currentPose st) (deltas (currentPose st) target)
              steps ms 1 st with
      | Done st1 =>
          Done (mkState target
                  (trace st1 ++ [StoreCurrentPose target] ++ servoWrites target))
      | stop => stop
      end
  end.
Proof.
  unfold moveToPose.
  destruct (stepCount _ _); [|reflexivity].
  destruct (move_loop _ _ _ _ _ _ _ _ _); try reflexivity.
  unfold writePose, store_currentPose, emit. cbn. rewrite <- app_assoc.
  reflexivity.
Qed.

Lemma moveToPose_complete (fuel : nat) (target : Pose) (ms stepSize steps : Z)
    (st : state) :
  stepCount (maxDelta (deltas (currentPose st) target)) stepSize = Some steps ->
  steps < Int32.INT_MAX ->
  (Z.to_nat steps <= fuel)%nat ->
  run_move fuel target ms stepSize st =
  Done (mkState target
          (trace st ++ events_of_move (currentPose st) target steps ms)).
Proof.
  intros Hc Hs Hf. rewrite moveToPose_unfold, Hc.
  pose proof (stepCount_bounds _ _ _ Hc) as Hb.
  rewrite (move_loop_complete _ _ _ _ Hs (Z.to_nat steps));
    [|apply one_in_range|lia|exact Hf].
  unfold emit, move_events. cbn [trace currentPose].
  rewrite <- app_assoc. reflexivity.
Qed.

Lemma moveToPose_done (fuel : nat) (target : Pose) (ms stepSize : Z)
    (st st' : state) :
  run_move fuel target ms stepSize st = Done st' ->
  exists steps,
    stepCount (maxDelta (deltas (currentPose st) target)) stepSize = Some steps
    /\ steps < Int32.INT_MAX
    /\ st' = mkState target
               (trace st ++ events_of_move (currentPose st) target steps ms).
Proof.
  rewrite moveToPose_unfold.
  destruct (stepCount _ _) as [steps|] eqn:Hc; [|discriminate].
  pose proof (stepCount_bounds _ _ _ Hc) as Hb.
  destruct (run_loop fuel _ _ steps ms 1 st) as [st1| |] eqn:Hl;
    try discriminate.
  intros H. injection H as <-. exists steps.
  destruct (Z.eq_dec steps Int32.INT_MAX) as [E|E].
  - subst steps. exfalso.
    exact (move_loop_never _ _ _ _ _ _ _ one_in_range Hl).
  - assert (Hs : steps < Int32.INT_MAX) by lia.
    apply (move_loop_done _ _ _ _ Hs) in Hl; [|apply one_in_range].
    subst st1. split; [reflexivity|]. split; [exact Hs|].
    unfold emit, move_events. cbn [trace currentPose].
    replace (steps + 1 - 1) with steps by ring.
    rewrite <- app_assoc. reflexivity.
Qed.

Lemma moveToPose_step_zero (fuel : nat) (target : Pose) (ms : Z) (st : state) :
  run_move fuel target ms 0 st = DivisionByZero.
Proof. rewrite moveToPose_unfold. reflexivity. Qed.

End InterpolatorFacts.

(** * Counting events *)

Lemma count_app (f : event -> bool) (a b : list event) :
  count f (a ++ b) = count f a + count f b.
Proof.
  unfold count. rewrite filter_app, length_app. lia.
Qed.

Section CountingFacts.

Variable servoWrites : Pose -> list event.
Variable lerp : Z -> Z -> Float32.float -> Z.
Variable f : event -> bool.
Variable c : Z.
Hypothesis writes_count : forall p, count f (servoWrites p) = c.

Lemma count_loop_events (start delta : Pose) (steps ms : Z) (len : nat) :
  forall from,
    count f (loop_events servoWrites lerp start delta steps ms from len) =
    Z.of_nat len * (c + count f [Delay ms]).
Proof.
  induction len as [|len IH]; intros from.
  - reflexivity.
  - unfold loop_events in *. cbn [zseq flat_map].
    rewrite count_app, IH. unfold step_events.
    rewrite count_app, writes_count. lia.
Qed.

End CountingFacts.

(** Every [writePose] call of either sketch writes each servo once and
    does nothing else. *)
Lemma main_writes_once (s : Servo) (p : Pose) :
  count (is_write_to s) (MainCode.servoWrites p) = 1.
Proof. destruct s; reflexivity. Qed.

Lemma debug_writes_once (s : Servo) (p : Pose) :
  count (is_write_to s) (DebugCode.servoWrites p) = 1.
Proof. destruct s; reflexivity. Qed.

Lemma main_writes_only (p : Pose) :
  count is_delay (MainCode.servoWrites p) = 0
  /\ count is_store (MainCode.servoWrites p) = 0.
Proof. split; reflexivity. Qed.

Lemma debug_writes_only (p : Pose) :
  count is_delay (DebugCode.servoWrites p) = 0
  /\ count is_store (DebugCode.servoWrites p) = 0.
Proof. split; reflexivity. Qed.

(** * Termination of a move *)

Lemma stepCount_below_max (m stepSize : Z) :
  Int32.in_range m -> 0 < stepSize ->
  (stepSize = 1 -> m <> Int32.INT_MAX) ->
  exists steps, stepCount m stepSize = Some steps /\ steps < Int32.INT_MAX.
Proof.
  intros Hm Hs Hcorner. rewrite stepCount_some by lia.
  pose proof (quot_in_range m stepSize Hm Hs) as Hq.
  rewrite Int32Facts.wrap_id by exact Hq.
  eexists. split; [reflexivity|].
  unfold Int32.in_range, Int32.INT_MIN, Int32.INT_MAX in *.
  destruct (Z.ltb_spec (Z.quot m stepSize) 1) as [H|H]; [lia|].
  destruct (Z.eq_dec stepSize 1) as [E|E].
  - subst stepSize. rewrite Z.quot_1_r in *.
    specialize (Hcorner eq_refl). lia.
  - assert (Hpos : 0 <= m).
    { destruct (Z.le_gt_cases 0 m) as [Hp|Hn]; [exact Hp|].
      pose proof (Z.quot_opp_l m stepSize ltac:(lia)) as Ho.
      pose proof (Z.quot_pos (- m) stepSize ltac:(lia) Hs). lia. }
    pose proof (Z.quot_rem' m stepSize) as Hqr.
    pose proof (Z.rem_nonneg m stepSize ltac:(lia) Hpos). nia.
Qed.

Section TerminationFacts.

Variable servoWrites : Pose -> list event.
Variable lerp : Z -> Z -> Float32.float -> Z.

Lemma moveToPose_terminates (target : Pose) (ms stepSize : Z) (st : state) :
  0 < stepSize ->
  (stepSize = 1 -> maxDelta (deltas (currentPose st) target) <> Int32.INT_MAX) ->
  exists st',
    terminates (fun fuel => moveToPose servoWrites lerp fuel target ms stepSize st) st'.
Proof.
  intros Hs Hcorner.
  destruct (stepCount_below_max _ stepSize
              (maxDelta_in_range (currentPose st) target) Hs Hcorner)
    as [steps [Hc Hlt]].
  eexists. exists (Z.to_nat steps).
  apply (moveToPose_complete servoWrites lerp _ _ _ _ steps _ Hc Hlt).
  apply Nat.le_refl.
Qed.

Lemma moveToPose_currentPose (fuel : nat) (target : Pose) (ms stepSize : Z)
    (st st' : state) :
  moveToPose servoWrites lerp fuel target ms stepSize st = Done st' ->
  currentPose st' = target.
Proof.
  intros H. apply moveToPose_done in H.
  destruct H as [steps [_ [_ ->]]]. reflexivity.
Qed.

End TerminationFacts.

(** * Shape of the events of a move *)

Section MoveShape.

Variable servoWrites : Pose -> list event.
Variable lerp : Z -> Z -> Float32.float -> Z.
Hypothesis writes_once : forall s p, count (is_write_to s) (servoWrites p) = 1.
Hypothesis writes_no_delay : forall p, count is_delay (servoWrites p) = 0.
Hypothesis writes_no_store : forall p, count is_store (servoWrites p) = 0.

Lemma loop_events_counts (start delta : Pose) (steps ms from : Z) (len : nat) :
  (forall s, count (is_write_to s)
               (loop_events servoWrites lerp start delta steps ms from len)
             = Z.of_nat len)
  /\ count is_delay (loop_events servoWrites lerp start delta steps ms from len)
     = Z.of_nat len
  /\ count is_store (loop_events servoWrites lerp start delta steps ms from len)
     = 0.
Proof.
  split; [|split].
  - intros s.
    rewrite (count_loop_events servoWrites lerp (is_write_to s) 1 (writes_once s)).
    cbn. lia.
  - rewrite (count_loop_events servoWrites lerp is_delay 0 writes_no_delay).
    cbn. lia.
  - rewrite (count_loop_events servoWrites lerp is_store 0 writes_no_store).
    cbn. lia.
Qed.

End MoveShape.

(** * Gripper helpers *)

Section GripperFacts.

Variable servoWrites : Pose -> list event.
Variable lerp : Z -> Z -> Float32.float -> Z.

(** A move with step size 2 over one changed field always returns. *)
Lemma gripper_move (ms g : Z) (st : state) :
  exists st',
    terminates
      (fun fuel => moveToPose servoWrites lerp fuel
                     (with_gripper (currentPose st) g) ms 2 st) st'
    /\ only_gripper_changed (currentPose st) (currentPose st') g.
Proof.
  destruct (moveToPose_terminates servoWrites lerp
              (with_gripper (currentPose st) g) ms 2 st ltac:(lia))
    as [st' [fuel Hrun]].
  { intros E. discriminate E. }
  exists st'. split; [exists fuel; exact Hrun|].
  apply moveToPose_currentPose in Hrun. rewrite Hrun.
  unfold only_gripper_changed, with_gripper. cbn. repeat split.
Qed.

Lemma gripper_move_done (fuel : nat) (ms g : Z) (st st' : state) :
  moveToPose servoWrites lerp fuel (with_gripper (currentPose st) g) ms 2 st
    = Done st' ->
  only_gripper_changed (currentPose st) (currentPose st') g.
Proof.
  intros Hrun. apply moveToPose_currentPose in Hrun. rewrite Hrun.
  unfold only_gripper_changed, with_gripper. cbn. repeat split.
Qed.

End GripperFacts.

(** * The step count *)

Lemma joint_deltas (start target : Pose) (s : Servo) :
  joint s (deltas start target) = Int32.sub (joint s target) (joint s start).
Proof. destruct s; reflexivity. Qed.

Lemma deltas_exact (start target : Pose) :
  no_overflow start target ->
  forall s, joint s (deltas start target) = joint s target - joint s start.
Proof.
  intros H s. rewrite joint_deltas. apply Int32Facts.wrap_id.
  specialize (H s). unfold Int32.in_range. lia.
Qed.

Lemma maxDelta_exact (start target : Pose) :
  no_overflow start target ->
  maxDelta (deltas start target) = max_abs_difference start target.
Proof.
  intros H. unfold maxDelta. rewrite max5_spec.
  pose proof (deltas_exact start target H) as D.
  pose proof (D baseServo) as Db. pose proof (D shoulderServo) as Dsh.
  pose proof (D elbowServo) as De. pose proof (D wristServo) as Dw.
  pose proof (D gripperServo) as Dg. cbn [joint] in *.
  pose proof (H baseServo) as Hb. pose proof (H shoulderServo) as Hsh.
  pose proof (H elbowServo) as He. pose proof (H wristServo) as Hw.
  pose proof (H gripperServo) as Hg. cbn [joint] in *.
  rewrite Db, Dsh, De, Dw, Dg.
  rewrite !Int32Facts.abs_exact by assumption.
  reflexivity.
Qed.

Lemma max_abs_difference_bounds (start target : Pose) :
  no_overflow start target ->
  0 <= max_abs_difference start target <= Int32.INT_MAX.
Proof.
  intros H. unfold max_abs_difference.
  pose proof (H baseServo) as Hb. pose proof (H shoulderServo) as Hsh.
  pose proof (H elbowServo) as He. pose proof (H wristServo) as Hw.
  pose proof (H gripperServo) as Hg. cbn [joint] in *.
  unfold Int32.INT_MIN, Int32.INT_MAX in *. lia.
Qed.

Lemma stepCount_positive_quot (m stepSize : Z) :
  Int32.in_range m -> 0 < stepSize ->
  stepCount m stepSize = Some (Z.max 1 (Z.quot m stepSize)).
Proof.
  intros Hm Hs. rewrite stepCount_some by lia.
  rewrite Int32Facts.wrap_id by (apply quot_in_range; assumption).
  destruct (Z.ltb_spec (Z.quot m stepSize) 1); f_equal; lia.
Qed.

(** * What [writePose] sends *)

Lemma clampAngle_spec (v lo hi : Z) :
  lo <= hi ->
  clampAngle v lo hi = Z.max lo (Z.min v hi) /\ lo <= clampAngle v lo hi <= hi.
Proof.
  intros H. unfold clampAngle.
  destruct (Z.ltb_spec v lo); [lia|].
  destruct (Z.gtb_spec v hi); lia.
Qed.

(** With the bounds in either order the result stays between them, but
    with [lo > hi] it is one of the two bounds, never the value itself. *)
Lemma clampAngle_between (v lo hi : Z) :
  Z.min lo hi <= clampAngle v lo hi <= Z.max lo hi.
Proof.
  unfold clampAngle.
  destruct (Z.ltb_spec v lo); [lia|].
  destruct (Z.gtb_spec v hi); lia.
Qed.

(** * Arithmetic of one interpolated field *)

Lemma of_int_exact (n : Z) :
  - 2 ^ 24 <= n <= 2 ^ 24 -> (Float32.of_int n == inject_Z n)%Q.
Proof. apply Float32Facts.round_int. Qed.

Lemma to_int_exact (x : Q) (n : Z) :
  (x == inject_Z n)%Q -> Int32.in_range n -> Float32.to_int x = n.
Proof.
  intros Hx Hn. unfold Float32.to_int.
  rewrite (Float32Facts.trunc_comp _ _ Hx), Float32Facts.trunc_Z.
  apply Int32Facts.wrap_id, Hn.
Qed.

Lemma zero_product (t : Q) : Float32.mul (Float32.of_int 0) t = 0%Q.
Proof.
  unfold Float32.mul. apply Float32Facts.round_eq0.
  change (Float32.of_int 0) with 0%Q. ring.
Qed.

Lemma small_in_range (n : Z) : - 2 ^ 24 <= n <= 2 ^ 24 -> Int32.in_range n.
Proof. unfold Int32.in_range, Int32.INT_MIN, Int32.INT_MAX. lia. Qed.

(** With a zero difference the interpolated value is the start value. *)
Lemma lerp_cast_rest (x : Z) (t : Q) :
  Int32.in_range x -> lerp_cast x 0 t = x.
Proof.
  intros Hx. unfold lerp_cast. rewrite zero_product.
  change (Float32.to_int 0%Q) with 0. unfold Int32.add.
  rewrite Z.add_0_r. apply Int32Facts.wrap_id, Hx.
Qed.

Lemma lerp_implicit_rest (x : Z) (t : Q) :
  - 2 ^ 24 <= x <= 2 ^ 24 -> lerp_implicit x 0 t = x.
Proof.
  intros Hx. unfold lerp_implicit. rewrite zero_product.
  apply to_int_exact; [|apply small_in_range, Hx].
  unfold Float32.add.
  rewrite (Float32Facts.round_comp _ (inject_Z x)).
  - apply Float32Facts.round_int, Hx.
  - rewrite (of_int_exact x Hx). ring.
Qed.

Lemma deltas_same (p : Pose) : deltas p p = mkPose 0 0 0 0 0.
Proof.
  unfold deltas, Int32.sub. rewrite !Z.sub_diag. reflexivity.
Qed.

Lemma pose_eta (p : Pose) :
  mkPose (base p) (shoulder p) (elbow p) (wrist p) (gripper p) = p.
Proof. destruct p. reflexivity. Qed.

Lemma main_intermediate_rest (p : Pose) (i steps : Z) :
  (forall s, - 2 ^ 24 <= joint s p <= 2 ^ 24) ->
  MainCode.intermediate p (mkPose 0 0 0 0 0) i steps = p.
Proof.
  intros H. unfold MainCode.intermediate, intermediate.
  cbn [base shoulder elbow wrist gripper].
  rewrite (lerp_implicit_rest _ _ (H baseServo)),
    (lerp_implicit_rest _ _ (H shoulderServo)),
    (lerp_implicit_rest _ _ (H elbowServo)),
    (lerp_implicit_rest _ _ (H wristServo)),
    (lerp_implicit_rest _ _ (H gripperServo)).
  apply pose_eta.
Qed.

Lemma debug_intermediate_rest (p : Pose) (i steps : Z) :
  (forall s, Int32.in_range (joint s p)) ->
  DebugCode.intermediate p (mkPose 0 0 0 0 0) i steps = p.
Proof.
  intros H. unfold DebugCode.intermediate, intermediate.
  cbn [base shoulder elbow wrist gripper].
  rewrite (lerp_cast_rest _ _ (H baseServo)),
    (lerp_cast_rest _ _ (H shoulderServo)),
    (lerp_cast_rest _ _ (H elbowServo)),
    (lerp_cast_rest _ _ (H wristServo)),
    (lerp_cast_rest _ _ (H gripperServo)).
  apply pose_eta.
Qed.

Lemma stepCount_at_rest (stepSize : Z) :
  stepSize <> 0 -> stepCount 0 stepSize = Some 1.
Proof.
  intros H. rewrite stepCount_some by exact H.
  rewrite Z.quot_0_l by exact H. reflexivity.
Qed.

(** * Monotonicity of the interpolation *)

Section LerpFacts.

Local Open Scope Q_scope.

Lemma round_one : Float32.round 1 = 1.
Proof. reflexivity. Qed.

Lemma round_zero : Float32.round 0 = 0.
Proof. reflexivity. Qed.

Lemma of_int_mono (a b : Z) :
  (a <= b)%Z -> Float32.of_int a <= Float32.of_int b.
Proof.
  intros H. apply Float32Facts.round_mono. rewrite <- Zle_Qle. exact H.
Qed.

Lemma of_int_ge_1 (n : Z) : (1 <= n)%Z -> 1 <= Float32.of_int n.
Proof.
  intros H. change 1 with (Float32.of_int 1) at 1. apply of_int_mono, H.
Qed.

Lemma of_int_nonneg (n : Z) : (0 <= n)%Z -> 0 <= Float32.of_int n.
Proof.
  intros H. change 0 with (Float32.of_int 0) at 1. apply of_int_mono, H.
Qed.

Lemma fraction_mono (i i' steps : Z) :
  (1 <= steps)%Z -> (i <= i')%Z -> fraction i steps <= fraction i' steps.
Proof.
  intros Hs Hi. unfold fraction, Float32.div. apply Float32Facts.round_mono.
  pose proof (of_int_ge_1 steps Hs) as Hn.
  pose proof (of_int_mono i i' Hi) as Hii.
  apply Qmult_le_compat_r; [exact Hii|].
  apply Qlt_le_weak, Qinv_lt_0_compat. lra.
Qed.

Lemma fraction_full (steps : Z) : (1 <= steps)%Z -> fraction steps steps == 1.
Proof.
  intros Hs. unfold fraction, Float32.div.
  pose proof (of_int_ge_1 steps Hs) as Hn.
  rewrite (Float32Facts.round_comp _ 1).
  - rewrite round_one. reflexivity.
  - field. lra.
Qed.

Lemma fraction_le_1 (i steps : Z) :
  (1 <= steps)%Z -> (i <= steps)%Z -> fraction i steps <= 1.
Proof.
  intros Hs Hi. rewrite <- (fraction_full steps Hs).
  apply fraction_mono; assumption.
Qed.

Lemma fraction_nonneg (i steps : Z) :
  (1 <= steps)%Z -> (0 <= i)%Z -> 0 <= fraction i steps.
Proof.
  intros Hs Hi. unfold fraction, Float32.div.
  pose proof (of_int_ge_1 steps Hs) as Hn.
  pose proof (of_int_nonneg i Hi) as Hi'.
  apply (Qle_trans _ (Float32.round 0)).
  - rewrite round_zero. apply Qle_refl.
  - apply Float32Facts.round_mono. apply Qle_shift_div_l; lra.
Qed.

(** The rounded product [delta * t], for [t] between 0 and 1. *)
Lemma product_eq (d : Z) (t : Q) :
  (- 2 ^ 24 <= d <= 2 ^ 24)%Z ->
  Float32.mul (Float32.of_int d) t == Float32.round (inject_Z d * t).
Proof.
  intros Hd. unfold Float32.mul. apply Float32Facts.round_comp.
  rewrite (of_int_exact d Hd). reflexivity.
Qed.

Lemma product_mono_nonneg (d : Z) (t t' : Q) :
  (0 <= d <= 2 ^ 24)%Z -> 0 <= t -> t <= t' -> t' <= 1 ->
  0 <= Float32.mul (Float32.of_int d) t
  /\ Float32.mul (Float32.of_int d) t <= Float32.mul (Float32.of_int d) t'
  /\ Float32.mul (Float32.of_int d) t' <= inject_Z d.
Proof.
  intros Hd H0 Htt H1.
  assert (Hd' : (- 2 ^ 24 <= d <= 2 ^ 24)%Z) by lia.
  rewrite !(product_eq d _ Hd').
  assert (HD : 0 <= inject_Z d).
  { change 0 with (inject_Z 0). rewrite <- Zle_Qle. lia. }
  split; [|split].
  - apply (Qle_trans _ (Float32.round 0)).
    + rewrite round_zero. apply Qle_refl.
    + apply Float32Facts.round_mono. nra.
  - apply Float32Facts.round_mono. nra.
  - apply (Qle_trans _ (Float32.round (inject_Z d))).
    + apply Float32Facts.round_mono. nra.
    + rewrite (Float32Facts.round_int d Hd'). apply Qle_refl.
Qed.

Lemma product_mono_nonpos (d : Z) (t t' : Q) :
  (- 2 ^ 24 <= d <= 0)%Z -> 0 <= t -> t <= t' -> t' <= 1 ->
  inject_Z d <= Float32.mul (Float32.of_int d) t'
  /\ Float32.mul (Float32.of_int d) t' <= Float32.mul (Float32.of_int d) t
  /\ Float32.mul (Float32.of_int d) t <= 0.
Proof.
  intros Hd H0 Htt H1.
  assert (Hd' : (- 2 ^ 24 <= d <= 2 ^ 24)%Z) by lia.
  rewrite !(product_eq d _ Hd').
  assert (HD : inject_Z d <= 0).
  { change 0 with (inject_Z 0). rewrite <- Zle_Qle. lia. }
  split; [|split].
  - apply (Qle_trans _ (Float32.round (inject_Z d))).
    + rewrite (Float32Facts.round_int d Hd'). apply Qle_refl.
    + apply Float32Facts.round_mono. nra.
  - apply Float32Facts.round_mono. nra.
  - apply (Qle_trans _ (Float32.round 0)).
    + apply Float32Facts.round_mono. nra.
    + rewrite round_zero. apply Qle_refl.
Qed.

Lemma trunc_between (x : Q) (a b : Z) :
  inject_Z a <= x -> x <= inject_Z b ->
  (a <= Float32.trunc x <= b)%Z.
Proof.
  intros Ha Hb.
  pose proof (Float32Facts.trunc_mono _ _ Ha) as H1.
  pose proof (Float32Facts.trunc_mono _ _ Hb) as H2.
  rewrite Float32Facts.trunc_Z in H1, H2. lia.
Qed.

End LerpFacts.

Section LerpBounds.

Local Open Scope Q_scope.

Lemma to_int_between (x y : Q) (lo hi : Z) :
  inject_Z lo <= x -> x <= y -> y <= inject_Z hi ->
  Int32.in_range lo -> Int32.in_range hi ->
  (lo <= Float32.to_int x)%Z /\ (Float32.to_int x <= Float32.to_int y)%Z
  /\ (Float32.to_int y <= hi)%Z.
Proof.
  intros Hlo Hxy Hhi Rlo Rhi.
  pose proof (trunc_between x lo hi Hlo ltac:(lra)) as Hx.
  pose proof (trunc_between y lo hi ltac:(lra) Hhi) as Hy.
  pose proof (Float32Facts.trunc_mono x y Hxy) as Hm.
  unfold Float32.to_int.
  rewrite !Int32Facts.wrap_id
    by (unfold Int32.in_range, Int32.INT_MIN, Int32.INT_MAX in *; lia).
  lia.
Qed.

(** [start + (int)(delta * t)] *)
Lemma lerp_cast_up (s d : Z) (t t' : Q) :
  Int32.in_range s -> Int32.in_range (s + d) -> (0 <= d <= 2 ^ 24)%Z ->
  0 <= t -> t <= t' -> t' <= 1 ->
  (s <= lerp_cast s d t)%Z /\ (lerp_cast s d t <= lerp_cast s d t')%Z
  /\ (lerp_cast s d t' <= s + d)%Z.
Proof.
  intros Rs Rsd Hd H0 Htt H1.
  destruct (product_mono_nonneg d t t' Hd H0 Htt H1) as [P0 [P1 P2]].
  destruct (to_int_between _ _ 0 d P0 P1 P2) as [A [B C]];
    try (unfold Int32.in_range, Int32.INT_MIN, Int32.INT_MAX in *; lia).
  unfold lerp_cast, Int32.add.
  rewrite !Int32Facts.wrap_id
    by (unfold Int32.in_range, Int32.INT_MIN, Int32.INT_MAX in *; lia).
  lia.
Qed.

Lemma lerp_cast_down (s d : Z) (t t' : Q) :
  Int32.in_range s -> Int32.in_range (s + d) -> (- 2 ^ 24 <= d <= 0)%Z ->
  0 <= t -> t <= t' -> t' <= 1 ->
  (s + d <= lerp_cast s d t')%Z /\ (lerp_cast s d t' <= lerp_cast s d t)%Z
  /\ (lerp_cast s d t <= s)%Z.
Proof.
  intros Rs Rsd Hd H0 Htt H1.
  destruct (product_mono_nonpos d t t' Hd H0 Htt H1) as [P0 [P1 P2]].
  destruct (to_int_between _ _ d 0 P0 P1 P2) as [A [B C]];
    try (unfold Int32.in_range, Int32.INT_MIN, Int32.INT_MAX in *; lia).
  unfold lerp_cast, Int32.add.
  rewrite !Int32Facts.wrap_id
    by (unfold Int32.in_range, Int32.INT_MIN, Int32.INT_MAX in *; lia).
  lia.
Qed.

(** [(int)(start + delta * t)] *)
Lemma sum_eq (s : Z) (p : Q) :
  (- 2 ^ 24 <= s <= 2 ^ 24)%Z ->
  Float32.add (Float32.of_int s) p == Float32.round (inject_Z s + p).
Proof.
  intros Hs. unfold Float32.add. apply Float32Facts.round_comp.
  rewrite (of_int_exact s Hs). reflexivity.
Qed.

Lemma lerp_implicit_up (s d : Z) (t t' : Q) :
  (- 2 ^ 24 <= s <= 2 ^ 24)%Z -> (- 2 ^ 24 <= s + d <= 2 ^ 24)%Z ->
  (0 <= d <= 2 ^ 24)%Z ->
  0 <= t -> t <= t' -> t' <= 1 ->
  (s <= lerp_implicit s d t)%Z
  /\ (lerp_implicit s d t <= lerp_implicit s d t')%Z
  /\ (lerp_implicit s d t' <= s + d)%Z.
Proof.
  intros Hs Hsd Hd H0 Htt H1.
  destruct (product_mono_nonneg d t t' Hd H0 Htt H1) as [P0 [P1 P2]].
  unfold lerp_implicit.
  apply to_int_between; try (apply small_in_range; assumption).
  - rewrite (sum_eq s _ Hs).
    apply (Qle_trans _ (Float32.round (inject_Z s))).
    + rewrite (Float32Facts.round_int s Hs). apply Qle_refl.
    + apply Float32Facts.round_mono. lra.
  - rewrite !(sum_eq s _ Hs). apply Float32Facts.round_mono. lra.
  - rewrite (sum_eq s _ Hs).
    apply (Qle_trans _ (Float32.round (inject_Z (s + d)))).
    + apply Float32Facts.round_mono. rewrite inject_Z_plus. lra.
    + rewrite (Float32Facts.round_int (s + d) Hsd). apply Qle_refl.
Qed.

Lemma lerp_implicit_down (s d : Z) (t t' : Q) :
  (- 2 ^ 24 <= s <= 2 ^ 24)%Z -> (- 2 ^ 24 <= s + d <= 2 ^ 24)%Z ->
  (- 2 ^ 24 <= d <= 0)%Z ->
  0 <= t -> t <= t' -> t' <= 1 ->
  (s + d <= lerp_implicit s d t')%Z
  /\ (lerp_implicit s d t' <= lerp_implicit s d t)%Z
  /\ (lerp_implicit s d t <= s)%Z.
Proof.
  intros Hs Hsd Hd H0 Htt H1.
  destruct (product_mono_nonpos d t t' Hd H0 Htt H1) as [P0 [P1 P2]].
  unfold lerp_implicit.
  apply to_int_between; try (apply small_in_range; assumption).
  - rewrite (sum_eq s _ Hs).
    apply (Qle_trans _ (Float32.round (inject_Z (s + d)))).
    + rewrite (Float32Facts.round_int (s + d) Hsd). apply Qle_refl.
    + apply Float32Facts.round_mono. rewrite inject_Z_plus. lra.
  - rewrite !(sum_eq s _ Hs). apply Float32Facts.round_mono. lra.
  - rewrite (sum_eq s _ Hs).
    apply (Qle_trans _ (Float32.round (inject_Z s))).
    + apply Float32Facts.round_mono. lra.
    + rewrite (Float32Facts.round_int s Hs). apply Qle_refl.
Qed.

End LerpBounds.

Lemma joint_intermediate
    (lerp : Z -> Z -> Float32.float -> Z) (start delta : Pose) (i steps : Z)
    (s : Servo) :
  joint s (intermediate lerp start delta i steps) =
  lerp (joint s start) (joint s delta) (fraction i steps).
Proof. destruct s; reflexivity. Qed.

Lemma small_pose_difference (start target : Pose) :
  small_pose start -> small_pose target ->
  no_overflow start target
  /\ forall s, - 2 ^ 24 <= joint s target - joint s start <= 2 ^ 24.
Proof.
  intros Hs Ht. split; intros s; specialize (Hs s); specialize (Ht s);
    unfold Int32.INT_MIN, Int32.INT_MAX; lia.
Qed.

(** * Scanning a debug line *)

Section ScanFacts.

Import DebugCode.

Lemma digit_count_cons (c : ascii) (s : list ascii) :
  digit_count (c :: s) =
  ((if isdigit c then 1 else 0) + digit_count s)%nat.
Proof. unfold digit_count. cbn [filter]. destruct (isdigit c); reflexivity. Qed.

Lemma digit_count_tail (c : ascii) (s : list ascii) :
  (digit_count s <= digit_count (c :: s))%nat.
Proof. rewrite digit_count_cons. lia. Qed.

Lemma digit_count_rev (s : list ascii) : digit_count (rev s) = digit_count s.
Proof.
  unfold digit_count. induction s as [|c s IH]; [reflexivity|].
  cbn [rev filter]. rewrite filter_app, length_app, IH. cbn [filter].
  destruct (isdigit c); cbn; lia.
Qed.

Lemma skip_space_count (s : list ascii) :
  (digit_count (skip_space s) <= digit_count s)%nat.
Proof.
  induction s as [|c s IH]; [apply Nat.le_refl|].
  cbn [skip_space]. destruct (isspace c); [|apply Nat.le_refl].
  pose proof (digit_count_tail c s). lia.
Qed.

Lemma read_digits_count (s : list ascii) :
  forall acc, (digit_count (snd (read_digits acc s)) <= digit_count s)%nat.
Proof.
  induction s as [|c s IH]; intros acc; [apply Nat.le_refl|].
  cbn [read_digits]. destruct (isdigit c) eqn:E; [|apply Nat.le_refl].
  specialize (IH (10 * acc + digit_value c)).
  pose proof (digit_count_tail c s). lia.
Qed.

Lemma read_digits_consumes (c : ascii) (s : list ascii) (acc : Z) :
  isdigit c = true ->
  (S (digit_count (snd (read_digits acc (c :: s)))) <= digit_count (c :: s))%nat.
Proof.
  intros E. cbn [read_digits]. rewrite E, digit_count_cons, E.
  pose proof (read_digits_count s (10 * acc + digit_value c)). lia.
Qed.

(** Every conversion uses up at least one digit. *)
Lemma scan_d_consumes (s rest : list ascii) (v : Z) :
  scan_d s = Some (v, rest) -> (S (digit_count rest) <= digit_count s)%nat.
Proof.
  unfold scan_d. pose proof (skip_space_count s) as Hskip.
  set (s1 := skip_space s) in *.
  assert (Hgen : forall (negative : bool) (s2 : list ascii),
             (digit_count s2 <= digit_count s1)%nat ->
             match s2 with
             | c :: _ =>
                 if isdigit c then
                   let '(v0, rest0) := read_digits 0 s2 in
                   Some (Int32.wrap (if negative then - v0 else v0), rest0)
                 else None
             | [] => None
             end = Some (v, rest) ->
             (S (digit_count rest) <= digit_count s)%nat).
  { intros negative s2 Hle. destruct s2 as [|c s2]; [discriminate|].
    destruct (isdigit c) eqn:E; [|discriminate].
    pose proof (read_digits_consumes c s2 0 E) as Hc.
    destruct (read_digits 0 (c :: s2)) as [v0 rest0]. cbn [snd] in Hc.
    intros H. injection H as _ <-. lia. }
  destruct s1 as [|c s2].
  - discriminate.
  - destruct (Ascii.eqb c "-") eqn:Em.
    + apply Ascii.eqb_eq in Em. subst c.
      apply (Hgen true s2). apply digit_count_tail.
    + destruct (Ascii.eqb c "+") eqn:Ep.
      * apply Ascii.eqb_eq in Ep. subst c.
        apply (Hgen false s2). apply digit_count_tail.
      * assert (Hsame :
          (let '(negative, s0) :=
             match c :: s2 with
             | "-"%char :: rest0 => (true, rest0)
             | "+"%char :: rest0 => (false, rest0)
             | _ => (false, c :: s2)
             end in
           match s0 with
           | c0 :: _ =>
               if isdigit c0 then
                 let '(v0, rest0) := read_digits 0 s0 in
                 Some (Int32.wrap (if negative then - v0 else v0), rest0)
               else None
           | [] => None
           end) =
          match c :: s2 with
          | c0 :: _ =>
              if isdigit c0 then
                let '(v0, rest0) := read_digits 0 (c :: s2) in
                Some (Int32.wrap v0, rest0)
              else None
          | [] => None
          end).
        { destruct c as [[] [] [] [] [] [] [] []];
            try discriminate Em; try discriminate Ep; reflexivity. }
        rewrite Hsame. apply (Hgen false (c :: s2)). apply Nat.le_refl.
Qed.

Lemma scan_ints_count (n : nat) :
  forall s, (List.length (scan_ints n s) <= digit_count s)%nat.
Proof.
  induction n as [|n IH]; intros s; [cbn; lia|].
  cbn [scan_ints]. destruct (scan_d s) as [[v rest]|] eqn:E; [|cbn; lia].
  apply scan_d_consumes in E. specialize (IH rest). cbn [List.length]. lia.
Qed.

Lemma trim_count (s : list ascii) :
  (digit_count (trim s) <= digit_count s)%nat.
Proof.
  unfold trim. rewrite digit_count_rev.
  pose proof (skip_space_count (rev (skip_space s))) as H1.
  rewrite digit_count_rev in H1.
  pose proof (skip_space_count s). lia.
Qed.

Lemma sscanf_count_le (s : list ascii) :
  sscanf_count s <= Z.of_nat (digit_count s).
Proof.
  unfold sscanf_count. pose proof (scan_ints_count 5 s) as H.
  destruct (scan_ints 5 s) as [|v vs]; [destruct (skip_space s)|]; cbn in *; lia.
Qed.

Lemma debugMove_rejects (fuel : nat) (line : string) (st : state) :
  sscanf_count (trim (list_ascii_of_string line)) <> 5 ->
  debugMove fuel line st = Done (emit format_error st).
Proof.
  intros H. unfold debugMove.
  destruct (Z.eqb_spec (sscanf_count (trim (list_ascii_of_string line))) 5)
    as [E|E]; [contradiction|reflexivity].
Qed.

Lemma debugMove_accepts (fuel : nat) (line : string) (st : state) :
  sscanf_count (trim (list_ascii_of_string line)) = 5 ->
  debugMove fuel line st =
  let stored := scan_ints 5 (trim (list_ascii_of_string line)) in
  let target := mkPose (nth 0 stored 0) (nth 1 stored 0) (nth 2 stored 0)
                       (nth 3 stored 0) (nth 4 stored 0) in
  DebugCode.moveToPose fuel target 8 2
    (emit (debug_report (nth 0 stored 0) (nth 1 stored 0) (nth 2 stored 0)
             (nth 3 stored 0) (nth 4 stored 0)) st).
Proof.
  intros H. unfold debugMove. rewrite H. reflexivity.
Qed.

End ScanFacts.

(** * Commands: moves in sequence, the tasks and [loop] *)

(** ** Reading angles and stores off a trace *)

Lemma angles_sent_app (s : Servo) (a b : list event) :
  angles_sent s (a ++ b) = angles_sent s a ++ angles_sent s b.
Proof. unfold angles_sent. apply flat_map_app. Qed.

Lemma stores_app (a b : list event) : stores (a ++ b) = stores a ++ stores b.
Proof. unfold stores. apply flat_map_app. Qed.

Lemma last_app_some {A : Type} (a b : list A) (d : A) :
  b <> [] -> last (a ++ b) d = last b d.
Proof.
  intros Hb. induction a as [|x a IH]; [reflexivity|].
  cbn [app]. destruct (a ++ b) eqn:E.
  - destruct a; [cbn in E; contradiction|discriminate].
  - cbn [last]. exact IH.
Qed.

Lemma last_angle_app (s : Servo) (a b : list event) :
  last_angle s (a ++ b) =
  match angles_sent s b with
  | [] => last_angle s a
  | _ => last_angle s b
  end.
Proof.
  unfold last_angle. rewrite angles_sent_app, map_app.
  destruct (angles_sent s b) as [|x l] eqn:E.
  - cbn [map]. rewrite app_nil_r. reflexivity.
  - apply last_app_some. discriminate.
Qed.

Lemma within_limits_app (limits : Servo -> Z * Z) (a b : list event) :
  within_limits limits (a ++ b) <->
  within_limits limits a /\ within_limits limits b.
Proof.
  unfold within_limits. split.
  - intros H. split; intros s x Hx; apply H; rewrite angles_sent_app;
      apply in_or_app; [left|right]; exact Hx.
  - intros [Ha Hb] s x Hx. rewrite angles_sent_app in Hx.
    apply in_app_or in Hx. destruct Hx; [apply Ha|apply Hb]; assumption.
Qed.

Lemma main_angles (s : Servo) (p : Pose) :
  angles_sent s (MainCode.servoWrites p) =
  [match s with
   | baseServo => clampAngle (base p) MainCode.BASE_MIN MainCode.BASE_MAX
   | shoulderServo =>
       clampAngle (shoulder p) MainCode.SHOULDER_MIN MainCode.SHOULDER_MAX
   | elbowServo => clampAngle (elbow p) MainCode.ELBOW_MIN MainCode.ELBOW_MAX
   | wristServo => clampAngle (wrist p) MainCode.WRIST_MIN MainCode.WRIST_MAX
   | gripperServo => gripper p
   end].
Proof. destruct s; reflexivity. Qed.

Lemma debug_angles (s : Servo) (p : Pose) :
  angles_sent s (DebugCode.servoWrites p) =
  [clampAngle (joint s p) (fst (debug_limits s)) (snd (debug_limits s))].
Proof. destruct s; reflexivity. Qed.

(** ** Sequencing *)

Lemma and_then_done (o : outcome) (k : state -> outcome) (st' : state) :
  and_then o k = Done st' -> exists st1, o = Done st1 /\ k st1 = Done st'.
Proof.
  destruct o as [st1| |]; cbn [and_then]; intros H; try discriminate.
  exists st1. split; [reflexivity|exact H].
Qed.

(** ** One move, for a step size of at least 2 *)

Section MoveFacts.

Variable servoWrites : Pose -> list event.
Variable lerp : Z -> Z -> Float32.float -> Z.

Lemma big_fuel_enough (steps : Z) (fuel : nat) :
  steps < Int32.INT_MAX -> (big_fuel <= fuel)%nat -> (Z.to_nat steps <= fuel)%nat.
Proof.
  intros Hs Hf. apply (Nat.le_trans _ big_fuel); [|exact Hf].
  unfold big_fuel.
  destruct (Z.le_gt_cases 0 steps) as [H|H].
  - apply Z2Nat.inj_le; [exact H| |lia].
    unfold Int32.INT_MAX. lia.
  - destruct steps; lia.
Qed.

Lemma moved_done (fuel : nat) (target : Pose) (ms stepSize : Z) (st st' : state) :
  moveToPose servoWrites lerp fuel target ms stepSize st = Done st' ->
  moved servoWrites lerp target ms stepSize st st'.
Proof.
  intros H. apply moveToPose_done in H. destruct H as [steps [Hc [Hlt E]]].
  exists steps. split; [exact Hc|]. split; [|exact E].
  pose proof (stepCount_bounds _ _ _ Hc). lia.
Qed.

Lemma moved_runs (fuel : nat) (target : Pose) (ms stepSize : Z) (st st' : state) :
  moved servoWrites lerp target ms stepSize st st' -> (big_fuel <= fuel)%nat ->
  moveToPose servoWrites lerp fuel target ms stepSize st = Done st'.
Proof.
  intros [steps [Hc [Hb ->]]] Hf.
  apply (moveToPose_complete servoWrites lerp fuel target ms stepSize steps st Hc);
    [lia|].
  apply big_fuel_enough; [lia|exact Hf].
Qed.

Lemma moved_exists (target : Pose) (ms stepSize : Z) (st : state) :
  1 < stepSize -> exists st', moved servoWrites lerp target ms stepSize st st'.
Proof.
  intros Hs.
  destruct (stepCount_below_max _ stepSize
              (maxDelta_in_range (currentPose st) target) ltac:(lia)
              ltac:(lia)) as [steps [Hc Hlt]].
  eexists. exists steps. split; [exact Hc|]. split; [|reflexivity].
  pose proof (stepCount_bounds _ _ _ Hc). lia.
Qed.

Lemma moved_currentPose (target : Pose) (ms stepSize : Z) (st st' : state) :
  moved servoWrites lerp target ms stepSize st st' -> currentPose st' = target.
Proof. intros [steps [_ [_ ->]]]. reflexivity. Qed.

Lemma moved_unique (target : Pose) (ms stepSize : Z) (st st1 st2 : state) :
  moved servoWrites lerp target ms stepSize st st1 -> moved servoWrites lerp target ms stepSize st st2 -> st1 = st2.
Proof.
  intros [n1 [H1 [_ ->]]] [n2 [H2 [_ ->]]]. rewrite H1 in H2.
  injection H2 as ->. reflexivity.
Qed.

End MoveFacts.

(** ** The angles a move sends *)

Section MoveAngles.

Variable servoWrites : Pose -> list event.
Variable lerp : Z -> Z -> Float32.float -> Z.

Lemma loop_events_angles (s : Servo) (a : Z) (start delta : Pose) (steps ms : Z)
    (len : nat) :
  forall from,
    In a (angles_sent s (loop_events servoWrites lerp start delta steps ms from len)) ->
    exists i, from <= i < from + Z.of_nat len
      /\ In a (angles_sent s (servoWrites (intermediate lerp start delta i steps))).
Proof.
  induction len as [|len IH]; intros from H.
  - contradiction.
  - unfold loop_events in H. cbn [zseq flat_map] in H.
    rewrite angles_sent_app in H. apply in_app_or in H. destruct H as [H|H].
    + unfold step_events in H. rewrite angles_sent_app in H.
      apply in_app_or in H. destruct H as [H|H]; [|contradiction].
      exists from. split; [lia|exact H].
    + destruct (IH (from + 1) H) as [i [Hi Hin]].
      exists i. split; [lia|exact Hin].
Qed.

Lemma move_events_angles (s : Servo) (a : Z) (start target : Pose) (steps ms : Z) :
  1 <= steps ->
  In a (angles_sent s (move_events servoWrites lerp start target steps ms)) ->
  (exists i, 1 <= i <= steps
     /\ In a (angles_sent s
                (servoWrites (intermediate lerp start (deltas start target) i steps))))
  \/ In a (angles_sent s (servoWrites target)).
Proof.
  intros Hs H. unfold move_events in H.
  rewrite !angles_sent_app in H. apply in_app_or in H. destruct H as [H|H].
  - left. apply loop_events_angles in H. destruct H as [i [Hi Hin]].
    exists i. split; [|exact Hin]. rewrite Z2Nat.id in Hi by lia. lia.
  - right. apply in_app_or in H. destruct H as [H|H]; [contradiction|exact H].
Qed.

(** Every [writePose] reaches every servo. *)
Hypothesis writes_all : forall s p, angles_sent s (servoWrites p) <> [].

Lemma move_events_last (s : Servo) (before : list event) (start target : Pose)
    (steps ms : Z) :
  last_angle s (before ++ move_events servoWrites lerp start target steps ms)
  = last_angle s (servoWrites target).
Proof.
  unfold move_events. rewrite !app_assoc. rewrite last_angle_app.
  destruct (angles_sent s (servoWrites target)) eqn:E; [|reflexivity].
  exfalso. exact (writes_all s target E).
Qed.

Lemma moved_in_sync (target : Pose) (ms stepSize : Z) (st st' : state) :
  moved servoWrites lerp target ms stepSize st st' -> in_sync servoWrites st'.
Proof.
  intros [steps [_ [_ ->]]] s. cbn [trace currentPose].
  apply move_events_last.
Qed.

End MoveAngles.

Lemma main_writes_all (s : Servo) (p : Pose) :
  angles_sent s (MainCode.servoWrites p) <> [].
Proof. rewrite main_angles. discriminate. Qed.

Lemma debug_writes_all (s : Servo) (p : Pose) :
  angles_sent s (DebugCode.servoWrites p) <> [].
Proof. rewrite debug_angles. discriminate. Qed.

(** ** Intermediate values stay between start and target *)

Lemma fraction_unit (i steps : Z) :
  1 <= i <= steps -> (0 <= fraction i steps /\ fraction i steps <= 1)%Q.
Proof.
  intros H. split.
  - apply fraction_nonneg; lia.
  - apply fraction_le_1; lia.
Qed.

Lemma small_joint (p : Pose) (s : Servo) :
  small_pose p -> - 2 ^ 24 <= joint s p <= 2 ^ 24.
Proof. intros H. specialize (H s). lia. Qed.

Lemma main_intermediate_between (start target : Pose) (i steps : Z) (s : Servo) :
  small_pose start -> small_pose target -> 1 <= i <= steps ->
  Z.min (joint s start) (joint s target)
  <= joint s (MainCode.intermediate start (deltas start target) i steps)
  <= Z.max (joint s start) (joint s target).
Proof.
  intros Hs Ht Hi.
  destruct (small_pose_difference start target Hs Ht) as [Hfit Hd].
  unfold MainCode.intermediate. rewrite joint_intermediate.
  rewrite (deltas_exact start target Hfit s).
  destruct (fraction_unit i steps Hi) as [T0 T1].
  pose proof (small_joint start s Hs) as Rs.
  pose proof (small_joint target s Ht) as Rt.
  specialize (Hd s).
  set (a := joint s start) in *. set (b := joint s target) in *.
  destruct (Z.le_gt_cases a b) as [Hab|Hab].
  - destruct (lerp_implicit_up a (b - a) (fraction i steps) (fraction i steps)
                Rs ltac:(lia) ltac:(lia) T0 (Qle_refl _) T1) as [A1 [_ A3]].
    lia.
  - destruct (lerp_implicit_down a (b - a) (fraction i steps) (fraction i steps)
                Rs ltac:(lia) ltac:(lia) T0 (Qle_refl _) T1) as [A1 [_ A3]].
    lia.
Qed.

(** ** Servo limits *)

Lemma main_pose_within (p : Pose) (lo hi : Z) :
  lo <= gripper p <= hi ->
  forall s a, In a (angles_sent s (MainCode.servoWrites p)) ->
    match s with
    | gripperServo => lo <= a <= hi
    | _ => fst (main_limits s) <= a <= snd (main_limits s)
    end.
Proof.
  intros Hg s a H. rewrite main_angles in H. destruct H as [<-|[]].
  destruct s; cbn [main_limits fst snd]; try exact Hg;
    apply clampAngle_spec; discriminate.
Qed.

Lemma debug_pose_within (p : Pose) :
  within_limits debug_limits (DebugCode.servoWrites p).
Proof.
  intros s a H. rewrite debug_angles in H. destruct H as [<-|[]].
  apply clampAngle_spec. destruct s; discriminate.
Qed.

Lemma debug_move_within (start target : Pose) (steps ms : Z) :
  1 <= steps ->
  within_limits debug_limits
    (move_events DebugCode.servoWrites lerp_cast start target steps ms).
Proof.
  intros Hs s a H. apply move_events_angles in H; [|exact Hs].
  destruct H as [[i [_ H]]|H]; exact (debug_pose_within _ s a H).
Qed.

(** The gripper angles of a move of [Main_Code.ino] between small poses stay
    between the gripper angles of its two ends. *)
Lemma main_move_within (start target : Pose) (steps ms lo hi : Z) :
  1 <= steps -> small_pose start -> small_pose target ->
  lo <= gripper start <= hi -> lo <= gripper target <= hi ->
  forall s a,
    In a (angles_sent s
            (move_events MainCode.servoWrites lerp_implicit start target steps ms)) ->
    match s with
    | gripperServo => lo <= a <= hi
    | _ => fst (main_limits s) <= a <= snd (main_limits s)
    end.
Proof.
  intros Hsteps Hs Ht Gs Gt s a H.
  apply move_events_angles in H; [|exact Hsteps].
  destruct H as [[i [Hi H]]|H].
  - apply (main_pose_within _ lo hi) in H; [exact H|].
    pose proof (main_intermediate_between start target i steps gripperServo
                  Hs Ht Hi) as B.
    cbn [joint] in B. unfold MainCode.intermediate in B. lia.
  - apply (main_pose_within _ lo hi) in H; [exact H|exact Gt].
Qed.

Lemma and_then_assoc (o : outcome) (k1 k2 : state -> outcome) :
  and_then (and_then o k1) k2 = and_then o (fun st => and_then (k1 st) k2).
Proof. destruct o; reflexivity. Qed.

Lemma and_then_ext (o : outcome) (k1 k2 : state -> outcome) :
  (forall st, k1 st = k2 st) -> and_then o k1 = and_then o k2.
Proof. intros H. destruct o; cbn [and_then]; [apply H|reflexivity|reflexivity]. Qed.

(** ** Moves in sequence *)

Lemma last_cons_default {A : Type} (l : list A) :
  forall x d d', last (x :: l) d = last (x :: l) d'.
Proof.
  induction l as [|y l IH]; intros x d d'; [reflexivity|].
  change (last (x :: y :: l) d) with (last (y :: l) d).
  change (last (x :: y :: l) d') with (last (y :: l) d').
  apply IH.
Qed.

Section MotionFacts.

Variable servoWrites : Pose -> list event.
Variable lerp : Z -> Z -> Float32.float -> Z.

Local Abbreviation run_all := (run_motions (moveToPose servoWrites lerp)).
Local Abbreviation all_ran := (ran servoWrites lerp).

Lemma ran_done (fuel : nat) (ms : list motion) :
  forall st st', run_all fuel ms st = Done st' -> all_ran ms st st'.
Proof.
  induction ms as [|m ms IH]; intros st st' H.
  - cbn in H. injection H as <-. reflexivity.
  - cbn [run_motions] in H. apply and_then_done in H.
    destruct H as [st1 [H1 H2]]. exists st1. split.
    + apply (moved_done _ _ fuel), H1.
    + apply IH, H2.
Qed.

Lemma ran_runs (fuel : nat) (ms : list motion) :
  (big_fuel <= fuel)%nat ->
  forall st st', all_ran ms st st' -> run_all fuel ms st = Done st'.
Proof.
  intros Hf. induction ms as [|m ms IH]; intros st st' H.
  - cbn in H. subst st'. reflexivity.
  - destruct H as [st1 [H1 H2]]. cbn [run_motions].
    rewrite (moved_runs _ _ fuel _ _ _ _ _ H1 Hf). cbn [and_then].
    apply IH, H2.
Qed.

Lemma ran_exists (ms : list motion) :
  Forall (fun m => 1 < motion_step m) ms ->
  forall st, exists st', all_ran ms st st'.
Proof.
  induction 1 as [|m ms Hm _ IH]; intros st.
  - exists st. reflexivity.
  - destruct (moved_exists servoWrites lerp
                (motion_target m (currentPose st)) (motion_delay m)
                (motion_step m) st Hm) as [st1 H1].
    destruct (IH st1) as [st' H2].
    exists st', st1. split; assumption.
Qed.

Lemma ran_unique (ms : list motion) :
  forall st st1 st2, all_ran ms st st1 -> all_ran ms st st2 -> st1 = st2.
Proof.
  induction ms as [|m ms IH]; intros st st1 st2 H1 H2.
  - cbn in *. congruence.
  - destruct H1 as [a [A1 A2]], H2 as [b [B1 B2]].
    pose proof (moved_unique _ _ _ _ _ _ _ _ A1 B1) as ->.
    exact (IH _ _ _ A2 B2).
Qed.

(** A sequence of moves only adds to the trace. *)
Lemma ran_extends (ms : list motion) :
  forall st st', all_ran ms st st' -> exists new, trace st' = trace st ++ new.
Proof.
  induction ms as [|m ms IH]; intros st st' H.
  - cbn in H. subst. exists []. symmetry. apply app_nil_r.
  - destruct H as [st1 [[steps [_ [_ ->]]] H2]].
    destruct (IH _ _ H2) as [new Hn]. cbn [trace] in Hn.
    eexists. rewrite Hn, <- app_assoc. reflexivity.
Qed.

Lemma ran_currentPose (ms : list motion) :
  forall st st', all_ran ms st st' ->
    currentPose st' = last (targets ms (currentPose st)) (currentPose st).
Proof.
  induction ms as [|m ms IH]; intros st st' H.
  - cbn in H. subst. reflexivity.
  - destruct H as [st1 [H1 H2]].
    pose proof (moved_currentPose _ _ _ _ _ _ _ H1) as E1.
    rewrite (IH _ _ H2), E1. cbn [targets].
    destruct ms as [|m' ms']; [reflexivity|].
    cbn [targets].
    set (t := motion_target m (currentPose st)).
    set (t' := motion_target m' t).
    change (last (t :: t' :: targets ms' t') (currentPose st))
      with (last (t' :: targets ms' t') (currentPose st)).
    apply last_cons_default.
Qed.

(** [writePose] stores nothing. *)
Hypothesis writes_no_store : forall p, stores (servoWrites p) = [].

Lemma loop_events_stores (start delta : Pose) (steps ms : Z) (len : nat) :
  forall from,
    stores (loop_events servoWrites lerp start delta steps ms from len) = [].
Proof.
  induction len as [|len IH]; intros from; [reflexivity|].
  unfold loop_events. cbn [zseq flat_map]. rewrite stores_app.
  unfold step_events at 1. rewrite stores_app, writes_no_store.
  cbn [stores flat_map app]. apply IH.
Qed.

Lemma move_events_stores (start target : Pose) (steps ms : Z) :
  stores (move_events servoWrites lerp start target steps ms) = [target].
Proof.
  unfold move_events. rewrite !stores_app, loop_events_stores, writes_no_store.
  reflexivity.
Qed.

Lemma ran_stores (ms : list motion) :
  forall st st', all_ran ms st st' ->
    stores (trace st') = stores (trace st) ++ targets ms (currentPose st).
Proof.
  induction ms as [|m ms IH]; intros st st' H.
  - cbn in H. subst. cbn [targets]. symmetry. apply app_nil_r.
  - destruct H as [st1 [H1 H2]].
    rewrite (IH _ _ H2). destruct H1 as [steps [_ [_ ->]]].
    cbn [trace currentPose targets].
    rewrite stores_app, move_events_stores, <- app_assoc. reflexivity.
Qed.

(** Every [writePose] reaches every servo. *)
Hypothesis writes_all : forall s p, angles_sent s (servoWrites p) <> [].

Lemma ran_in_sync (ms : list motion) :
  forall st st', in_sync servoWrites st -> all_ran ms st st' ->
    in_sync servoWrites st'.
Proof.
  induction ms as [|m ms IH]; intros st st' Hst H.
  - cbn in H. subst. exact Hst.
  - destruct H as [st1 [H1 H2]]. apply (IH st1); [|exact H2].
    apply (moved_in_sync servoWrites lerp writes_all _ _ _ _ _ H1).
Qed.

Lemma ran_resyncs (ms : list motion) :
  ms <> [] ->
  forall st st', all_ran ms st st' -> in_sync servoWrites st'.
Proof.
  destruct ms as [|m ms]; [contradiction|]. intros _ st st' [st1 [H1 H2]].
  apply (ran_in_sync ms st1); [|exact H2].
  apply (moved_in_sync servoWrites lerp writes_all _ _ _ _ _ H1).
Qed.

End MotionFacts.

(** ** Calm poses: the gripper range of [Main_Code.ino] *)

Lemma main_limits_with_eq (s : Servo) :
  main_limits_with MainCode.GRIPPER_CLOSE MainCode.GRIPPER_OPEN s = main_limits s.
Proof. destruct s; reflexivity. Qed.

Lemma main_move_within_limits (start target : Pose) (steps ms lo hi : Z) :
  1 <= steps -> calm_pose lo hi start -> calm_pose lo hi target ->
  within_limits (main_limits_with lo hi)
    (move_events MainCode.servoWrites lerp_implicit start target steps ms).
Proof.
  intros Hsteps [Hs Gs] [Ht Gt] s a H.
  pose proof (main_move_within start target steps ms lo hi Hsteps Hs Ht Gs Gt
                s a H) as B.
  destruct s; exact B.
Qed.

Lemma with_gripper_calm (lo hi g : Z) (p : Pose) :
  small_pose p -> lo <= g <= hi -> - 2 ^ 23 <= g <= 2 ^ 23 ->
  calm_pose lo hi (with_gripper p g).
Proof.
  intros Hp Hg Hsmall. split; [|exact Hg].
  intros s. specialize (Hp s). destruct s; cbn in *; lia.
Qed.

Lemma motion_target_calm (lo hi : Z) (m : motion) (p : Pose) :
  calm_motion lo hi m -> calm_pose lo hi p ->
  calm_pose lo hi (motion_target m p).
Proof.
  destruct m as [target ms stepSize|g ms]; cbn [calm_motion motion_target].
  - intros [H _] _. exact H.
  - intros [Hg Hs] [Hp _]. apply with_gripper_calm; assumption.
Qed.

Lemma calm_motion_step (lo hi : Z) (m : motion) :
  calm_motion lo hi m -> 1 < motion_step m.
Proof. destruct m; cbn; [intros [_ H]; exact H|lia]. Qed.

(** Moves of [Main_Code.ino] between calm poses keep every servo in range. *)
Lemma main_ran_within (lo hi : Z) (ms : list motion) :
  Forall (calm_motion lo hi) ms ->
  forall st st' new,
    calm_pose lo hi (currentPose st) ->
    ran MainCode.servoWrites lerp_implicit ms st st' ->
    trace st' = trace st ++ new ->
    within_limits (main_limits_with lo hi) new
    /\ calm_pose lo hi (currentPose st').
Proof.
  induction 1 as [|m ms Hm _ IH]; intros st st' new Hc Hran Hnew.
  - cbn in Hran. subst st'.
    assert (new = []) as ->.
    { apply (app_inv_head (trace st)). rewrite app_nil_r. symmetry. exact Hnew. }
    split; [|exact Hc]. intros s a [].
  - destruct Hran as [st1 [H1 H2]].
    pose proof (motion_target_calm lo hi m _ Hm Hc) as Ht.
    destruct H1 as [steps [_ [Hsteps E1]]].
    destruct (ran_extends _ _ _ _ _ H2) as [rest Hrest].
    assert (Hc1 : calm_pose lo hi (currentPose st1)) by (subst st1; exact Ht).
    destruct (IH st1 st' rest Hc1 H2 Hrest) as [Hw Hc'].
    split; [|exact Hc'].
    assert (new = move_events MainCode.servoWrites lerp_implicit (currentPose st)
                    (motion_target m (currentPose st)) steps (motion_delay m)
                  ++ rest) as ->.
    { apply (app_inv_head (trace st)). rewrite <- Hnew, Hrest, E1.
      cbn [trace]. rewrite app_assoc. reflexivity. }
    apply within_limits_app. split; [|exact Hw].
    apply main_move_within_limits; [lia|exact Hc|exact Ht].
Qed.

Lemma debug_ran_within (ms : list motion) :
  forall st st' new,
    ran DebugCode.servoWrites lerp_cast ms st st' ->
    trace st' = trace st ++ new ->
    within_limits debug_limits new.
Proof.
  induction ms as [|m ms IH]; intros st st' new Hran Hnew.
  - cbn in Hran. subst st'.
    assert (new = []) as ->.
    { apply (app_inv_head (trace st)). rewrite app_nil_r. symmetry. exact Hnew. }
    intros s a [].
  - destruct Hran as [st1 [H1 H2]].
    destruct H1 as [steps [_ [Hsteps E1]]].
    destruct (ran_extends _ _ _ _ _ H2) as [rest Hrest].
    pose proof (IH st1 st' rest H2 Hrest) as Hw.
    assert (new = move_events DebugCode.servoWrites lerp_cast (currentPose st)
                    (motion_target m (currentPose st)) steps (motion_delay m)
                  ++ rest) as ->.
    { apply (app_inv_head (trace st)). rewrite <- Hnew, Hrest, E1.
      cbn [trace]. rewrite app_assoc. reflexivity. }
    apply within_limits_app. split; [|exact Hw].
    apply debug_move_within. lia.
Qed.

(** ** The tasks as sequences of moves *)

Lemma task1_motions (fuel : nat) (st : state) :
  MainCode.task1 fuel st =
  and_then
    (run_motions MainCode.moveToPose fuel
       (task_motions MainCode.t1_aboveObj MainCode.t1_grabObj MainCode.t1_liftObj
          MainCode.t1_aboveBox MainCode.t1_release)
       (emit [SerialPrintln "Running Task 1 (cube)..."] st))
    (fun st => Done (emit [SerialPrintln "Task 1 done."] st)).
Proof.
  unfold MainCode.task1, task_motions. cbn [run_motions].
  repeat (rewrite and_then_assoc; apply and_then_ext; intros ?;
          cbn [run_motions]).
  reflexivity.
Qed.

(** ** Commands: output, moves, output *)

Lemma prints_only_angles (evs : list event) (s : Servo) :
  prints_only evs = true -> angles_sent s evs = [].
Proof.
  induction evs as [|e evs IH]; [reflexivity|].
  cbn. intros H. apply andb_prop in H. destruct H as [He H].
  destruct e; try discriminate; cbn; apply IH; exact H.
Qed.

Lemma prints_only_stores (evs : list event) :
  prints_only evs = true -> stores evs = [].
Proof.
  induction evs as [|e evs IH]; [reflexivity|].
  cbn. intros H. apply andb_prop in H. destruct H as [He H].
  destruct e; try discriminate; cbn; apply IH; exact H.
Qed.

Lemma emit_in_sync (servoWrites : Pose -> list event) (evs : list event)
    (st : state) :
  prints_only evs = true -> in_sync servoWrites st ->
  in_sync servoWrites (emit evs st).
Proof.
  intros Hq H s. cbn [emit trace currentPose]. rewrite last_angle_app.
  rewrite (prints_only_angles evs s Hq). apply H.
Qed.

Lemma prints_within (limits : Servo -> Z * Z) (evs : list event) :
  prints_only evs = true -> within_limits limits evs.
Proof. intros H s a Hin. rewrite (prints_only_angles evs s H) in Hin. destruct Hin. Qed.

Section CommandFacts.

Variable servoWrites : Pose -> list event.
Variable lerp : Z -> Z -> Float32.float -> Z.
Variables (intro outro : list event) (ms : list motion).

Local Abbreviation command :=
  (fun fuel st =>
     and_then (run_motions (moveToPose servoWrites lerp) fuel ms (emit intro st))
              (fun st => Done (emit outro st))).
Local Abbreviation command_did := (did servoWrites lerp intro ms outro).

Lemma did_done (fuel : nat) (st st' : state) :
  command fuel st = Done st' -> command_did st st'.
Proof.
  intros H. apply and_then_done in H. destruct H as [mid [H1 H2]].
  exists mid. split; [apply (ran_done _ _ fuel), H1|].
  injection H2 as <-. reflexivity.
Qed.

Lemma did_runs (fuel : nat) (st st' : state) :
  command_did st st' -> (big_fuel <= fuel)%nat -> command fuel st = Done st'.
Proof.
  intros [mid [H ->]] Hf.
  rewrite (ran_runs servoWrites lerp fuel ms Hf _ _ H). reflexivity.
Qed.

Lemma did_exists (st : state) :
  Forall (fun m => 1 < motion_step m) ms -> exists st', command_did st st'.
Proof.
  intros Hms. destruct (ran_exists servoWrites lerp ms Hms (emit intro st))
    as [mid H].
  exists (emit outro mid), mid. split; [exact H|reflexivity].
Qed.

Lemma did_currentPose (st st' : state) :
  command_did st st' ->
  currentPose st' = last (targets ms (currentPose st)) (currentPose st).
Proof.
  intros [mid [H ->]]. cbn [emit currentPose].
  apply (ran_currentPose servoWrites lerp ms _ _ H).
Qed.

(** The events of a command: [intro], what the moves add, [outro]. *)
Lemma did_trace (st st' : state) :
  command_did st st' ->
  exists moves,
    trace st' = trace st ++ intro ++ moves ++ outro
    /\ forall mid, ran servoWrites lerp ms (emit intro st) mid ->
         trace mid = trace (emit intro st) ++ moves.
Proof.
  intros [mid [H ->]].
  destruct (ran_extends servoWrites lerp ms _ _ H) as [moves Hm].
  exists moves. split.
  - cbn [emit trace] in *. rewrite Hm, <- !app_assoc. reflexivity.
  - intros mid' H'. rewrite (ran_unique servoWrites lerp ms _ _ _ H' H).
    exact Hm.
Qed.

Hypothesis writes_no_store : forall p, stores (servoWrites p) = [].
Hypothesis writes_all : forall s p, angles_sent s (servoWrites p) <> [].
Hypothesis intro_prints : prints_only intro = true.
Hypothesis outro_prints : prints_only outro = true.

Lemma did_stores (st st' : state) :
  command_did st st' ->
  stores (trace st') = stores (trace st) ++ targets ms (currentPose st).
Proof.
  intros [mid [H ->]]. cbn [emit trace].
  rewrite stores_app, (prints_only_stores outro outro_prints), app_nil_r.
  rewrite (ran_stores servoWrites lerp writes_no_store ms _ _ H).
  cbn [emit trace currentPose].
  rewrite stores_app, (prints_only_stores intro intro_prints), app_nil_r.
  reflexivity.
Qed.

Lemma did_in_sync (st st' : state) :
  in_sync servoWrites st -> command_did st st' -> in_sync servoWrites st'.
Proof.
  intros Hs [mid [H ->]]. apply emit_in_sync; [exact outro_prints|].
  apply (ran_in_sync servoWrites lerp writes_all ms (emit intro st)); [|exact H].
  apply emit_in_sync; [exact intro_prints|exact Hs].
Qed.

Lemma did_resyncs (st st' : state) :
  ms <> [] -> command_did st st' -> in_sync servoWrites st'.
Proof.
  intros Hne [mid [H ->]]. apply emit_in_sync; [exact outro_prints|].
  exact (ran_resyncs servoWrites lerp writes_all ms Hne _ _ H).
Qed.

End CommandFacts.

Lemma main_no_store (p : Pose) : stores (MainCode.servoWrites p) = [].
Proof. reflexivity. Qed.

Lemma debug_no_store (p : Pose) : stores (DebugCode.servoWrites p) = [].
Proof. reflexivity. Qed.

(** Commands of [Main_Code.ino] whose moves are between calm poses keep
    every servo in range. *)
Lemma main_did_within (lo hi : Z) (intro outro : list event) (ms : list motion)
    (st st' : state) :
  prints_only intro = true -> prints_only outro = true ->
  Forall (calm_motion lo hi) ms ->
  calm_pose lo hi (currentPose st) ->
  did MainCode.servoWrites lerp_implicit intro ms outro st st' ->
  (forall new, trace st' = trace st ++ new ->
               within_limits (main_limits_with lo hi) new)
  /\ calm_pose lo hi (currentPose st').
Proof.
  intros Hi Ho Hms Hc [mid [H ->]].
  destruct (ran_extends _ _ _ _ _ H) as [moves Hm].
  destruct (main_ran_within lo hi ms Hms (emit intro st) mid moves Hc H Hm)
    as [Hw Hc'].
  split; [|exact Hc'].
  intros new Hnew. cbn [emit trace] in Hnew, Hm.
  assert (new = intro ++ moves ++ outro) as ->.
  { apply (app_inv_head (trace st)). rewrite <- Hnew, Hm, <- !app_assoc.
    reflexivity. }
  apply within_limits_app. split; [apply prints_within, Hi|].
  apply within_limits_app. split; [exact Hw|apply prints_within, Ho].
Qed.

Lemma debug_did_within (intro outro : list event) (ms : list motion)
    (st st' : state) :
  prints_only intro = true -> prints_only outro = true ->
  did DebugCode.servoWrites lerp_cast intro ms outro st st' ->
  forall new, trace st' = trace st ++ new -> within_limits debug_limits new.
Proof.
  intros Hi Ho [mid [H ->]].
  destruct (ran_extends _ _ _ _ _ H) as [moves Hm].
  pose proof (debug_ran_within ms (emit intro st) mid moves H Hm) as Hw.
  intros new Hnew. cbn [emit trace] in Hnew, Hm.
  assert (new = intro ++ moves ++ outro) as ->.
  { apply (app_inv_head (trace st)). rewrite <- Hnew, Hm, <- !app_assoc.
    reflexivity. }
  apply within_limits_app. split; [apply prints_within, Hi|].
  apply within_limits_app. split; [exact Hw|apply prints_within, Ho].
Qed.

Lemma task2_motions (fuel : nat) (st : state) :
  MainCode.task2 fuel st =
  and_then
    (run_motions MainCode.moveToPose fuel
       (task_motions MainCode.t2_aboveObj MainCode.t2_grabObj MainCode.t2_liftObj
          MainCode.t2_aboveBox MainCode.t2_release)
       (emit [SerialPrintln "Running Task 2 (cylinder)..."] st))
    (fun st => Done (emit [SerialPrintln "Task 2 done."] st)).
Proof.
  unfold MainCode.task2, task_motions. cbn [run_motions].
  repeat (rewrite and_then_assoc; apply and_then_ext; intros ?;
          cbn [run_motions]).
  reflexivity.
Qed.

Lemma task3_motions (fuel : nat) (st : state) :
  MainCode.task3 fuel st =
  and_then
    (run_motions MainCode.moveToPose fuel
       (task_motions MainCode.t3_aboveObj MainCode.t3_grabObj MainCode.t3_liftObj
          MainCode.t3_aboveBox MainCode.t3_release)
       (emit [SerialPrintln "Running Task 3 (hat)..."] st))
    (fun st => Done (emit [SerialPrintln "Task 3 done."] st)).
Proof.
  unfold MainCode.task3, task_motions. cbn [run_motions].
  repeat (rewrite and_then_assoc; apply and_then_ext; intros ?;
          cbn [run_motions]).
  reflexivity.
Qed.

Lemma task4_motions (fuel : nat) (st : state) :
  MainCode.task4 fuel st =
  and_then
    (run_motions MainCode.moveToPose fuel
       (task_motions MainCode.t4_aboveObj MainCode.t4_grabObj MainCode.t4_liftObj
          MainCode.t4_aboveBox MainCode.t4_release)
       (emit [SerialPrintln "Running Task 4 (boat)..."] st))
    (fun st => Done (emit [SerialPrintln "Task 4 done."] st)).
Proof.
  unfold MainCode.task4, task_motions. cbn [run_motions].
  repeat (rewrite and_then_assoc; apply and_then_ext; intros ?;
          cbn [run_motions]).
  reflexivity.
Qed.

(** ** [resetArm] and one call of [loop] of [Main_Code.ino] *)

Lemma and_then_Done (o : outcome) : and_then o Done = o.
Proof. destruct o; reflexivity. Qed.

Lemma main_resetArm_motions (fuel : nat) (st : state) :
  MainCode.resetArm fuel st =
  and_then
    (run_motions MainCode.moveToPose fuel [MoveTo MainCode.homePose 10 3]
       (emit [SerialPrintln "Resetting to home..."] st))
    (fun st => Done (emit [] st)).
Proof.
  unfold MainCode.resetArm. cbn [run_motions motion_target motion_delay motion_step].
  rewrite and_then_Done.
  destruct (MainCode.moveToPose fuel MainCode.homePose 10 3 _) as [s| |];
    cbn [and_then]; [rewrite emit_nil|..]; reflexivity.
Qed.

Lemma debug_resetArm_motions (fuel : nat) (st : state) :
  DebugCode.resetArm fuel st =
  and_then
    (run_motions DebugCode.moveToPose fuel [MoveTo DebugCode.homePose 10 3]
       (emit [SerialPrintln "Resetting to home..."] st))
    (fun st => Done (emit [SerialPrintln "At home pose."] st)).
Proof.
  unfold DebugCode.resetArm. cbn [run_motions motion_target motion_delay motion_step].
  rewrite and_then_Done.
  destruct (DebugCode.moveToPose fuel DebugCode.homePose 10 3 _) as [s| |];
    reflexivity.
Qed.

(** A command followed by more output is a command with a longer [outro]. *)
Lemma command_then_print (move : nat -> Pose -> Z -> Z -> state -> outcome)
    (fuel : nat) (ms : list motion) (outro more : list event) (st : state) :
  and_then
    (and_then (run_motions move fuel ms st) (fun st => Done (emit outro st)))
    (fun st => Done (emit more st))
  = and_then (run_motions move fuel ms st)
      (fun st => Done (emit (outro ++ more) st)).
Proof.
  rewrite and_then_assoc. apply and_then_ext. intros s.
  cbn [and_then]. rewrite emit_emit. reflexivity.
Qed.

Lemma main_loop_idle (fuel : nat) (st : state) :
  MainCode.loop fuel [] st = ([], Done st).
Proof. reflexivity. Qed.

Lemma main_loop_line_end (fuel : nat) (cmd : ascii) (input : list ascii)
    (st : state) :
  is_line_end cmd = true -> MainCode.loop fuel (cmd :: input) st = (input, Done st).
Proof.
  destruct cmd as [[] [] [] [] [] [] [] []]; intros H; try discriminate H;
    reflexivity.
Qed.

(** Case analysis on a command byte, one bit at a time and only as far as
    the [switch] looks. *)
Ltac split_command :=
  repeat match goal with
         | |- context [match ?b with true => _ | false => _ end] =>
             is_var b; destruct b
         end.

Lemma main_loop_command (fuel : nat) (cmd : ascii) (input : list ascii)
    (st : state) :
  is_line_end cmd = false ->
  MainCode.loop fuel (cmd :: input) st =
  (input,
   and_then
     (run_motions MainCode.moveToPose fuel (snd (fst (main_command cmd)))
        (emit (fst (fst (main_command cmd))) st))
     (fun st => Done (emit (snd (main_command cmd)) st))).
Proof.
  intros H. destruct cmd as [b0 b1 b2 b3 b4 b5 b6 b7].
  unfold MainCode.loop, main_command, is_line_end in *; split_command;
    try discriminate H;
    cbv beta iota zeta delta [fst snd received]; f_equal;
    first
      [ rewrite task1_motions | rewrite task2_motions | rewrite task3_motions
      | rewrite task4_motions | rewrite main_resetArm_motions | idtac ];
    rewrite ?command_then_print, ?emit_emit; cbn [run_motions and_then app];
    rewrite ?emit_emit; reflexivity.
Qed.

Lemma main_command_prints (cmd : ascii) :
  prints_only (fst (fst (main_command cmd))) = true
  /\ prints_only (snd (main_command cmd)) = true.
Proof.
  destruct cmd as [b0 b1 b2 b3 b4 b5 b6 b7].
  unfold main_command; split_command; split; reflexivity.
Qed.

Lemma concrete_small (b s e w g : Z) :
  - 2 ^ 23 <= b <= 2 ^ 23 -> - 2 ^ 23 <= s <= 2 ^ 23 ->
  - 2 ^ 23 <= e <= 2 ^ 23 -> - 2 ^ 23 <= w <= 2 ^ 23 ->
  - 2 ^ 23 <= g <= 2 ^ 23 -> small_pose (mkPose b s e w g).
Proof. intros Hb Hs He Hw Hg j. destruct j; assumption. Qed.

Lemma servo_range_calm (b s e w g : Z) :
  0 <= b <= 180 -> 0 <= s <= 180 -> 0 <= e <= 180 -> 0 <= w <= 180 ->
  MainCode.GRIPPER_CLOSE <= g <= MainCode.GRIPPER_OPEN ->
  calm_pose MainCode.GRIPPER_CLOSE MainCode.GRIPPER_OPEN (mkPose b s e w g).
Proof.
  unfold MainCode.GRIPPER_CLOSE, MainCode.GRIPPER_OPEN.
  intros Hb Hs He Hw Hg. split; [|exact Hg].
  apply concrete_small; lia.
Qed.

Lemma task_motions_calm (a g l b r : Pose) :
  calm_pose MainCode.GRIPPER_CLOSE MainCode.GRIPPER_OPEN a ->
  calm_pose MainCode.GRIPPER_CLOSE MainCode.GRIPPER_OPEN g ->
  calm_pose MainCode.GRIPPER_CLOSE MainCode.GRIPPER_OPEN l ->
  calm_pose MainCode.GRIPPER_CLOSE MainCode.GRIPPER_OPEN b ->
  calm_pose MainCode.GRIPPER_CLOSE MainCode.GRIPPER_OPEN r ->
  Forall (calm_motion MainCode.GRIPPER_CLOSE MainCode.GRIPPER_OPEN)
    (task_motions a g l b r).
Proof.
  intros Ha Hg Hl Hb Hr. unfold task_motions.
  repeat (apply Forall_cons; [cbn [calm_motion]|]); try apply Forall_nil;
    try (split; [assumption|lia]);
    try (unfold MainCode.GRIPPER_CLOSE, MainCode.GRIPPER_OPEN; lia).
  split; [|lia]. apply servo_range_calm;
    unfold MainCode.GRIPPER_CLOSE, MainCode.GRIPPER_OPEN; lia.
Qed.

Lemma main_home_calm :
  calm_pose MainCode.GRIPPER_CLOSE MainCode.GRIPPER_OPEN MainCode.homePose.
Proof.
  apply servo_range_calm; unfold MainCode.GRIPPER_CLOSE, MainCode.GRIPPER_OPEN; lia.
Qed.

Lemma main_command_calm (cmd : ascii) :
  Forall (calm_motion MainCode.GRIPPER_CLOSE MainCode.GRIPPER_OPEN)
    (snd (fst (main_command cmd))).
Proof.
  destruct cmd as [b0 b1 b2 b3 b4 b5 b6 b7].
  unfold main_command; split_command; cbn [fst snd];
    try apply Forall_nil;
    try (apply task_motions_calm; apply servo_range_calm;
         unfold MainCode.GRIPPER_CLOSE, MainCode.GRIPPER_OPEN; lia);
    (apply Forall_cons; [split; [apply main_home_calm|lia]|apply Forall_nil]).
Qed.

Lemma main_command_steps (cmd : ascii) :
  Forall (fun m => 1 < motion_step m) (snd (fst (main_command cmd))).
Proof.
  apply (Forall_impl _ (calm_motion_step MainCode.GRIPPER_CLOSE MainCode.GRIPPER_OPEN)),
    main_command_calm.
Qed.

Lemma main_command_end (cmd : ascii) (p : Pose) :
  last (targets (snd (fst (main_command cmd))) p) p = p
  \/ last (targets (snd (fst (main_command cmd))) p) p = MainCode.homePose.
Proof.
  destruct cmd as [b0 b1 b2 b3 b4 b5 b6 b7].
  unfold main_command; split_command; cbn [fst snd];
    first [left; reflexivity | right; reflexivity].
Qed.

Lemma main_loop_done (fuel : nat) (input rest : list ascii) (st st' : state) :
  MainCode.loop fuel input st = (rest, Done st') -> main_looped input st rest st'.
Proof.
  destruct input as [|cmd input]; intros H.
  - rewrite main_loop_idle in H. injection H as <- <-. split; reflexivity.
  - cbn [main_looped]. destruct (is_line_end cmd) eqn:E.
    + rewrite (main_loop_line_end _ _ _ _ E) in H. injection H as <- <-.
      split; reflexivity.
    + rewrite (main_loop_command _ _ _ _ E) in H. injection H as <- H.
      split; [reflexivity|]. apply (did_done _ _ _ _ _ fuel), H.
Qed.

Lemma main_loop_runs (fuel : nat) (input rest : list ascii) (st st' : state) :
  main_looped input st rest st' -> (big_fuel <= fuel)%nat ->
  MainCode.loop fuel input st = (rest, Done st').
Proof.
  destruct input as [|cmd input]; cbn [main_looped]; intros [-> H] Hf.
  - subst st'. reflexivity.
  - destruct (is_line_end cmd) eqn:E.
    + subst st'. apply main_loop_line_end, E.
    + rewrite (main_loop_command _ _ _ _ E). f_equal.
      apply did_runs; assumption.
Qed.

Lemma main_looped_exists (input : list ascii) (st : state) :
  exists rest st', main_looped input st rest st'.
Proof.
  destruct input as [|cmd input].
  - exists [], st. split; reflexivity.
  - cbn [main_looped]. destruct (is_line_end cmd).
    + exists input, st. split; reflexivity.
    + destruct (did_exists MainCode.servoWrites lerp_implicit
                  (fst (fst (main_command cmd))) (snd (main_command cmd))
                  (snd (fst (main_command cmd))) st (main_command_steps cmd))
        as [st' H].
      exists input, st'. split; [reflexivity|exact H].
Qed.

(** ** Repeated calls of [loop] *)

Section RunFacts.

Variable loop : nat -> list ascii -> state -> list ascii * outcome.
Variable looped : list ascii -> state -> list ascii -> state -> Prop.

Hypothesis loop_done :
  forall fuel input rest st st',
    loop fuel input st = (rest, Done st') -> looped input st rest st'.
Hypothesis loop_runs :
  forall fuel input rest st st',
    looped input st rest st' -> (big_fuel <= fuel)%nat ->
    loop fuel input st = (rest, Done st').
Hypothesis looped_exists :
  forall input st, exists rest st', looped input st rest st'.

Lemma run_returns (n : nat) :
  forall input st,
    exists rest st', forall fuel, (big_fuel <= fuel)%nat ->
      run loop n fuel input st = (rest, Done st').
Proof.
  induction n as [|n IH]; intros input st.
  - exists input, st. reflexivity.
  - destruct (looped_exists input st) as [rest1 [st1 H1]].
    destruct (IH rest1 st1) as [rest [st' H]].
    exists rest, st'. intros fuel Hf. cbn [run].
    rewrite (loop_runs fuel _ _ _ _ H1 Hf). apply H, Hf.
Qed.

Variable inv : state -> Prop.
Hypothesis looped_inv :
  forall input rest st st', inv st -> looped input st rest st' -> inv st'.

Lemma run_invariant (n : nat) :
  forall fuel input rest st st',
    inv st -> run loop n fuel input st = (rest, Done st') -> inv st'.
Proof.
  induction n as [|n IH]; intros fuel input rest st st' Hinv H.
  - cbn in H. injection H as _ <-. exact Hinv.
  - cbn [run] in H.
    destruct (loop fuel input st) as [rest1 [st1| |]] eqn:E; try discriminate H.
    apply (IH fuel rest1 rest st1 st'); [|exact H].
    apply (looped_inv input rest1 st st1 Hinv), (loop_done fuel), E.
Qed.

End RunFacts.

(** ** One call of [loop] of the debug sketch *)

Lemma debugMove_motions (fuel : nat) (params : list ascii) (st : state) :
  DebugCode.debugMove fuel (string_of_list_ascii params) st =
  let line := DebugCode.trim params in
  let v := DebugCode.scan_ints 5 line in
  if DebugCode.sscanf_count line =? 5 then
    run_motions DebugCode.moveToPose fuel
      [MoveTo (mkPose (nth 0 v 0) (nth 1 v 0) (nth 2 v 0) (nth 3 v 0) (nth 4 v 0))
         8 2]
      (emit (DebugCode.debug_report (nth 0 v 0) (nth 1 v 0) (nth 2 v 0)
               (nth 3 v 0) (nth 4 v 0)) st)
  else Done (emit DebugCode.format_error st).
Proof.
  unfold DebugCode.debugMove. rewrite list_ascii_of_string_of_list_ascii.
  cbv zeta. destruct (DebugCode.sscanf_count (DebugCode.trim params) =? 5);
    cbn [negb]; [|reflexivity].
  cbn [run_motions motion_target motion_delay motion_step].
  rewrite and_then_Done. reflexivity.
Qed.

Lemma debug_loop_idle (fuel : nat) (st : state) :
  DebugCode.loop fuel [] st = ([], Done st).
Proof. reflexivity. Qed.

Lemma debug_loop_line_end (fuel : nat) (cmd : ascii) (input : list ascii)
    (st : state) :
  is_line_end cmd = true -> DebugCode.loop fuel (cmd :: input) st = (input, Done st).
Proof.
  intros H. destruct cmd as [b0 b1 b2 b3 b4 b5 b6 b7].
  unfold DebugCode.loop, is_line_end in *; split_command;
    try discriminate H; reflexivity.
Qed.

Lemma debug_loop_command (fuel : nat) (cmd : ascii) (input : list ascii)
    (st : state) :
  is_line_end cmd = false ->
  DebugCode.loop fuel (cmd :: input) st =
  (fst (debug_command cmd input),
   and_then
     (run_motions DebugCode.moveToPose fuel
        (snd (fst (snd (debug_command cmd input))))
        (emit (fst (fst (snd (debug_command cmd input)))) st))
     (fun st => Done (emit (snd (snd (debug_command cmd input))) st))).
Proof.
  intros H. destruct cmd as [b0 b1 b2 b3 b4 b5 b6 b7].
  unfold DebugCode.loop, debug_command, is_line_end in *; split_command;
    try discriminate H;
    cbv beta iota zeta delta [fst snd received];
    try (destruct (readStringUntil "010" input) as [params rest];
         rewrite debugMove_motions; cbv beta iota zeta delta [fst snd];
         destruct (DebugCode.sscanf_count (DebugCode.trim params) =? 5));
    f_equal;
    try rewrite debug_resetArm_motions;
    rewrite ?command_then_print, ?emit_emit; cbn [run_motions and_then app];
    rewrite ?emit_emit; try reflexivity.
Qed.

Lemma debug_command_prints (cmd : ascii) (input : list ascii) :
  prints_only (fst (fst (snd (debug_command cmd input)))) = true
  /\ prints_only (snd (snd (debug_command cmd input))) = true.
Proof.
  destruct cmd as [b0 b1 b2 b3 b4 b5 b6 b7].
  unfold debug_command; split_command; cbv beta iota zeta delta [fst snd];
    try (destruct (DebugCode.sscanf_count _ =? 5));
    split; reflexivity.
Qed.

Lemma debug_command_steps (cmd : ascii) (input : list ascii) :
  Forall (fun m => 1 < motion_step m) (snd (fst (snd (debug_command cmd input)))).
Proof.
  destruct cmd as [b0 b1 b2 b3 b4 b5 b6 b7].
  unfold debug_command; split_command; cbv beta iota zeta delta [fst snd];
    try (destruct (DebugCode.sscanf_count _ =? 5));
    try apply Forall_nil;
    (apply Forall_cons; [cbn; lia|apply Forall_nil]).
Qed.

Lemma debug_loop_done (fuel : nat) (input rest : list ascii) (st st' : state) :
  DebugCode.loop fuel input st = (rest, Done st') -> debug_looped input st rest st'.
Proof.
  destruct input as [|cmd input]; intros H.
  - rewrite debug_loop_idle in H. injection H as <- <-. split; reflexivity.
  - cbn [debug_looped]. destruct (is_line_end cmd) eqn:E.
    + rewrite (debug_loop_line_end _ _ _ _ E) in H. injection H as <- <-.
      split; reflexivity.
    + rewrite (debug_loop_command _ _ _ _ E) in H. injection H as <- H.
      split; [reflexivity|]. apply (did_done _ _ _ _ _ fuel), H.
Qed.

Lemma debug_loop_runs (fuel : nat) (input rest : list ascii) (st st' : state) :
  debug_looped input st rest st' -> (big_fuel <= fuel)%nat ->
  DebugCode.loop fuel input st = (rest, Done st').
Proof.
  destruct input as [|cmd input]; cbn [debug_looped].
  - intros [-> ->] _. reflexivity.
  - destruct (is_line_end cmd) eqn:E.
    + intros [-> ->] _. apply debug_loop_line_end, E.
    + intros [-> H] Hf. rewrite (debug_loop_command _ _ _ _ E). f_equal.
      apply did_runs; assumption.
Qed.

Lemma debug_looped_exists (input : list ascii) (st : state) :
  exists rest st', debug_looped input st rest st'.
Proof.
  destruct input as [|cmd input].
  - exists [], st. split; reflexivity.
  - cbn [debug_looped]. destruct (is_line_end cmd).
    + exists input, st. split; reflexivity.
    + destruct (did_exists DebugCode.servoWrites lerp_cast
                  (fst (fst (snd (debug_command cmd input))))
                  (snd (snd (debug_command cmd input)))
                  (snd (fst (snd (debug_command cmd input)))) st
                  (debug_command_steps cmd input))
        as [st' H].
      exists (fst (debug_command cmd input)), st'. split; [reflexivity|exact H].
Qed.

(** ** What every call of [loop] keeps *)

Lemma main_looped_in_sync (input rest : list ascii) (st st' : state) :
  in_sync MainCode.servoWrites st -> main_looped input st rest st' ->
  in_sync MainCode.servoWrites st'.
Proof.
  destruct input as [|cmd input]; cbn [main_looped]; intros Hs [_ H].
  - subst. exact Hs.
  - destruct (is_line_end cmd); [subst; exact Hs|].
    destruct (main_command_prints cmd) as [Pi Po].
    exact (did_in_sync MainCode.servoWrites lerp_implicit _ _ _ main_writes_all
             Pi Po st st' Hs H).
Qed.

Lemma debug_looped_in_sync (input rest : list ascii) (st st' : state) :
  in_sync DebugCode.servoWrites st -> debug_looped input st rest st' ->
  in_sync DebugCode.servoWrites st'.
Proof.
  destruct input as [|cmd input]; cbn [debug_looped].
  - intros Hs [_ ->]. exact Hs.
  - destruct (is_line_end cmd); [intros Hs [_ ->]; exact Hs|].
    intros Hs [_ H].
    destruct (debug_command_prints cmd input) as [Pi Po].
    exact (did_in_sync DebugCode.servoWrites lerp_cast _ _ _ debug_writes_all
             Pi Po st st' Hs H).
Qed.

Lemma did_extends (servoWrites : Pose -> list event)
    (lerp : Z -> Z -> Float32.float -> Z)
    (intro outro : list event) (ms : list motion) (st st' : state) :
  did servoWrites lerp intro ms outro st st' ->
  exists new, trace st' = trace st ++ new.
Proof.
  intros H. destruct (did_trace _ _ _ _ _ _ _ H) as [moves [E _]].
  eexists. exact E.
Qed.

Lemma main_looped_within (input rest : list ascii) (st st' : state) :
  within_limits main_limits (trace st)
  /\ calm_pose MainCode.GRIPPER_CLOSE MainCode.GRIPPER_OPEN (currentPose st) ->
  main_looped input st rest st' ->
  within_limits main_limits (trace st')
  /\ calm_pose MainCode.GRIPPER_CLOSE MainCode.GRIPPER_OPEN (currentPose st').
Proof.
  destruct input as [|cmd input]; cbn [main_looped]; intros [Hw Hc] [_ H].
  - subst. split; assumption.
  - destruct (is_line_end cmd); [subst; split; assumption|].
    destruct (main_command_prints cmd) as [Pi Po].
    destruct (main_did_within _ _ _ _ _ st st' Pi Po (main_command_calm cmd) Hc H)
      as [Hnew Hc'].
    split; [|exact Hc'].
    destruct (did_extends _ _ _ _ _ _ _ H) as [new E].
    rewrite E. apply within_limits_app. split; [exact Hw|].
    intros s a Hin. rewrite <- main_limits_with_eq. exact (Hnew new E s a Hin).
Qed.

Lemma debug_looped_within (input rest : list ascii) (st st' : state) :
  within_limits debug_limits (trace st) ->
  debug_looped input st rest st' ->
  within_limits debug_limits (trace st').
Proof.
  destruct input as [|cmd input]; cbn [debug_looped].
  - intros Hw [_ ->]. exact Hw.
  - destruct (is_line_end cmd); [intros Hw [_ ->]; exact Hw|].
    intros Hw [_ H].
    destruct (debug_command_prints cmd input) as [Pi Po].
    destruct (did_extends _ _ _ _ _ _ _ H) as [new E].
    rewrite E. apply within_limits_app. split; [exact Hw|].
    exact (debug_did_within _ _ _ st st' Pi Po H new E).
Qed.

Lemma main_looped_home (input rest : list ascii) (st st' : state) :
  currentPose st = MainCode.homePose -> main_looped input st rest st' ->
  currentPose st' = MainCode.homePose.
Proof.
  destruct input as [|cmd input]; cbn [main_looped]; intros Hh [_ H].
  - subst. exact Hh.
  - destruct (is_line_end cmd); [subst; exact Hh|].
    rewrite (did_currentPose _ _ _ _ _ _ _ H).
    destruct (main_command_end cmd (currentPose st)) as [E|E]; rewrite E;
      [exact Hh|reflexivity].
Qed.

(** ** The last and the first step of a move *)

Lemma pose_ext (p q : Pose) : (forall s, joint s p = joint s q) -> p = q.
Proof.
  intros H. destruct p, q.
  pose proof (H baseServo). pose proof (H shoulderServo).
  pose proof (H elbowServo). pose proof (H wristServo).
  pose proof (H gripperServo). cbn in *. congruence.
Qed.

Lemma lerp_implicit_full (s d : Z) (t : Q) :
  (t == 1)%Q -> - 2 ^ 24 <= s <= 2 ^ 24 -> - 2 ^ 24 <= d <= 2 ^ 24 ->
  - 2 ^ 24 <= s + d <= 2 ^ 24 ->
  lerp_implicit s d t = s + d.
Proof.
  intros Ht Hs Hd Hsd. unfold lerp_implicit.
  apply to_int_exact; [|apply small_in_range, Hsd].
  rewrite sum_eq by exact Hs.
  assert (P : (Float32.mul (Float32.of_int d) t == inject_Z d)%Q).
  { rewrite product_eq by exact Hd.
    apply (Qeq_trans _ (Float32.round (inject_Z d)));
      [|apply Float32Facts.round_int, Hd].
    apply Float32Facts.round_comp. rewrite Ht. ring. }
  apply (Qeq_trans _ (Float32.round (inject_Z (s + d))));
    [|apply Float32Facts.round_int, Hsd].
  apply Float32Facts.round_comp. rewrite P, inject_Z_plus. reflexivity.
Qed.

Lemma lerp_cast_full (s d : Z) (t : Q) :
  (t == 1)%Q -> Int32.in_range s -> - 2 ^ 24 <= d <= 2 ^ 24 ->
  Int32.in_range (s + d) ->
  lerp_cast s d t = s + d.
Proof.
  intros Ht Hs Hd Hsd. unfold lerp_cast.
  assert (P : (Float32.mul (Float32.of_int d) t == inject_Z d)%Q).
  { rewrite product_eq by exact Hd.
    apply (Qeq_trans _ (Float32.round (inject_Z d)));
      [|apply Float32Facts.round_int, Hd].
    apply Float32Facts.round_comp. rewrite Ht. ring. }
  rewrite (to_int_exact _ d P (small_in_range d Hd)).
  unfold Int32.add. apply Int32Facts.wrap_id, Hsd.
Qed.

Lemma main_task_cases (task : nat -> state -> outcome) (points : list Pose) :
  In (task, points) main_tasks ->
  exists intro outro a g l b r,
    points = waypoints a g l b r
    /\ prints_only intro = true /\ prints_only outro = true
    /\ forall fuel st,
         task fuel st =
         and_then (run_motions MainCode.moveToPose fuel (task_motions a g l b r)
                     (emit intro st))
                  (fun st => Done (emit outro st)).
Proof.
  intros H. cbn in H.
  destruct H as [H|[H|[H|[H|[]]]]]; injection H as <- <-;
    do 2 eexists; do 5 eexists;
    (split; [reflexivity|]); (split; [|split]);
    [ | | intros fuel st; apply task1_motions
    | | | intros fuel st; apply task2_motions
    | | | intros fuel st; apply task3_motions
    | | | intros fuel st; apply task4_motions ]; reflexivity.
Qed.

Lemma task_motions_steps (a g l b r : Pose) :
  Forall (fun m => 1 < motion_step m) (task_motions a g l b r).
Proof. unfold task_motions. repeat constructor. Qed.

Lemma main_command_unknown (cmd : ascii) :
  main_known cmd = false ->
  main_command cmd =
  (received cmd ++ [SerialPrintln "Unknown command. Use 1,2,3,4,r."], [],
   [SerialPrintln "Ready for next command: 1,2,3,4,r"]).
Proof.
  intros H. destruct cmd as [b0 b1 b2 b3 b4 b5 b6 b7].
  unfold main_command, main_known in *; split_command;
    try discriminate H; reflexivity.
Qed.

Lemma main_command_known (cmd : ascii) (p : Pose) :
  main_known cmd = true ->
  last (targets (snd (fst (main_command cmd))) p) p = MainCode.homePose
  /\ exists before,
       snd (main_command cmd)
       = before ++ [SerialPrintln "Ready for next command: 1,2,3,4,r"].
Proof.
  intros H. destruct cmd as [b0 b1 b2 b3 b4 b5 b6 b7].
  unfold main_command, main_known in *; split_command;
    try discriminate H; cbn [fst snd];
    (split; [reflexivity|]);
    first [ exists [SerialPrintln "Task 1 done."]; reflexivity
          | exists [SerialPrintln "Task 2 done."]; reflexivity
          | exists [SerialPrintln "Task 3 done."]; reflexivity
          | exists [SerialPrintln "Task 4 done."]; reflexivity
          | exists []; reflexivity ].
Qed.

(** ** Command bytes *)

Lemma main_known_no_line_end (cmd : ascii) :
  main_known cmd = true -> is_line_end cmd = false.
Proof.
  intros H. destruct cmd as [b0 b1 b2 b3 b4 b5 b6 b7].
  unfold main_known, is_line_end in *; split_command;
    try discriminate H; reflexivity.
Qed.

Lemma main_command_moves (cmd : ascii) :
  main_known cmd = true -> snd (fst (main_command cmd)) <> [].
Proof.
  intros H. destruct cmd as [b0 b1 b2 b3 b4 b5 b6 b7].
  unfold main_command, main_known in *; split_command;
    try discriminate H; discriminate.
Qed.

Lemma terminates_of_did (servoWrites : Pose -> list event)
    (lerp : Z -> Z -> Float32.float -> Z)
    (intro outro : list event) (ms : list motion) (st : state) :
  Forall (fun m => 1 < motion_step m) ms ->
  exists st',
    did servoWrites lerp intro ms outro st st'
    /\ terminates
         (fun fuel =>
            and_then
              (run_motions (moveToPose servoWrites lerp) fuel ms (emit intro st))
              (fun st => Done (emit outro st))) st'.
Proof.
  intros Hms. destruct (did_exists servoWrites lerp intro outro ms st Hms)
    as [st' H].
  exists st'. split; [exact H|]. exists big_fuel.
  apply did_runs; [exact H|apply Nat.le_refl].
Qed.

Lemma readStringUntil_line (t : ascii) (line rest : list ascii) :
  ~ In t line ->
  readStringUntil t (line ++ t :: rest) = (line, rest)
  /\ readStringUntil t line = (line, []).
Proof.
  induction line as [|c line IH]; intros Hn.
  - cbn. rewrite Ascii.eqb_refl. split; reflexivity.
  - assert (Hc : Ascii.eqb c t = false).
    { apply Ascii.eqb_neq. intros ->. apply Hn. left. reflexivity. }
    destruct IH as [IH1 IH2]; [intros Hin; apply Hn; right; exact Hin|].
    cbn [app readStringUntil]. rewrite Hc, IH1, IH2. split; reflexivity.
Qed.

Lemma debug_loop_d (fuel : nat) (cmd : ascii) (input : list ascii) (st : state) :
  cmd = "d"%char \/ cmd = "D"%char ->
  DebugCode.loop fuel (cmd :: input) st =
  (snd (readStringUntil "010" input),
   and_then
     (DebugCode.debugMove fuel
        (string_of_list_ascii (fst (readStringUntil "010" input)))
        (emit (received cmd) st))
     (fun st => Done (emit [SerialPrintln "Ready for next command."] st))).
Proof.
  intros [->| ->]; cbv beta iota zeta delta [DebugCode.loop received];
    destruct (readStringUntil "010" input) as [params rest]; reflexivity.
Qed.

Lemma debug_command_unknown (cmd : ascii) (input : list ascii) :
  debug_known cmd = false ->
  debug_command cmd input =
  (input,
   (received cmd ++ DebugCode.unknown_command, [],
    [SerialPrintln "Ready for next command."])).
Proof.
  intros H. destruct cmd as [b0 b1 b2 b3 b4 b5 b6 b7].
  unfold debug_command, debug_known in *; split_command;
    try discriminate H; reflexivity.
Qed.

(** ** Line ends in the input of [Main_Code.ino] *)

Lemma main_run_idle (n fuel : nat) (st : state) :
  run MainCode.loop n fuel [] st = ([], Done st).
Proof. induction n as [|n IH]; [reflexivity|]. cbn [run]. exact IH. Qed.

Lemma main_loop_rest (fuel : nat) (cmd : ascii) (input : list ascii) (st : state) :
  fst (MainCode.loop fuel (cmd :: input) st) = input.
Proof.
  destruct (is_line_end cmd) eqn:E.
  - rewrite (main_loop_line_end _ _ _ _ E). reflexivity.
  - rewrite (main_loop_command _ _ _ _ E). reflexivity.
Qed.

Lemma main_loop_outcome (fuel : nat) (cmd : ascii) (input input' : list ascii)
    (st : state) :
  snd (MainCode.loop fuel (cmd :: input) st)
  = snd (MainCode.loop fuel (cmd :: input') st).
Proof.
  destruct (is_line_end cmd) eqn:E.
  - rewrite !(main_loop_line_end _ _ _ _ E). reflexivity.
  - rewrite !(main_loop_command _ _ _ _ E). reflexivity.
Qed.

Lemma main_run_step (n fuel : nat) (cmd : ascii) (input : list ascii) (st : state) :
  run MainCode.loop (S n) fuel (cmd :: input) st =
  match snd (MainCode.loop fuel (cmd :: input) st) with
  | Done st' => run MainCode.loop n fuel input st'
  | stop => (input, stop)
  end.
Proof.
  cbn [run]. pose proof (main_loop_rest fuel cmd input st) as R.
  destruct (MainCode.loop fuel (cmd :: input) st) as [rest o].
  cbn [fst snd] in *. subst rest. destruct o; reflexivity.
Qed.

Lemma main_run_more (fuel : nat) (n : nat) :
  forall input st,
    (List.length input <= n)%nat ->
    snd (run MainCode.loop (S n) fuel input st)
    = snd (run MainCode.loop n fuel input st).
Proof.
  induction n as [|n IH]; intros input st Hlen.
  - destruct input; [reflexivity|cbn in Hlen; lia].
  - destruct input as [|cmd input]; [rewrite !main_run_idle; reflexivity|].
    rewrite (main_run_step (S n)), (main_run_step n).
    destruct (snd (MainCode.loop fuel (cmd :: input) st)); try reflexivity.
    apply IH. cbn in Hlen. lia.
Qed.

Lemma without_line_ends_length (input : list ascii) :
  (List.length (without_line_ends input) <= List.length input)%nat.
Proof. apply filter_length_le. Qed.

Lemma main_run_filtered (fuel : nat) (n : nat) :
  forall input st,
    (List.length input <= n)%nat ->
    snd (run MainCode.loop n fuel input st)
    = snd (run MainCode.loop n fuel (without_line_ends input) st).
Proof.
  induction n as [|n IH]; intros input st Hlen.
  - destruct input; [reflexivity|cbn in Hlen; lia].
  - destruct input as [|cmd input]; [reflexivity|].
    cbn in Hlen. cbn [without_line_ends filter].
    fold (without_line_ends input).
    destruct (is_line_end cmd) eqn:E; cbn [negb].
    + rewrite main_run_step, (main_loop_line_end _ _ _ _ E). cbn [snd].
      rewrite (IH input st ltac:(lia)). symmetry. apply main_run_more.
      pose proof (without_line_ends_length input). lia.
    + rewrite !main_run_step.
      rewrite (main_loop_outcome fuel cmd (without_line_ends input) input).
      destruct (snd (MainCode.loop fuel (cmd :: input) st)); try reflexivity.
      apply IH. lia.
Qed.

(** ** Reading back decimal numbers *)

Lemma digit_char_spec (d : Z) :
  0 <= d <= 9 ->
  DebugCode.isdigit (digit_char d) = true
  /\ DebugCode.digit_value (digit_char d) = d.
Proof.
  intros H.
  assert (C : d = 0 \/ d = 1 \/ d = 2 \/ d = 3 \/ d = 4 \/ d = 5 \/ d = 6
              \/ d = 7 \/ d = 8 \/ d = 9) by lia.
  repeat (destruct C as [->|C]; [split; reflexivity|]). subst d.
  split; reflexivity.
Qed.

Lemma digits_value_app (acc : Z) (a b : list ascii) :
  digits_value acc (a ++ b) = digits_value (digits_value acc a) b.
Proof. unfold digits_value. apply fold_left_app. Qed.

Lemma read_digits_run (ds rest : list ascii) :
  forallb DebugCode.isdigit ds = true ->
  match rest with c :: _ => DebugCode.isdigit c = false | [] => True end ->
  forall acc,
    DebugCode.read_digits acc (ds ++ rest) = (digits_value acc ds, rest).
Proof.
  intros Hds Hrest. induction ds as [|c ds IH]; intros acc.
  - cbn [app digits_value fold_left]. destruct rest as [|c rest]; [reflexivity|].
    cbn [DebugCode.read_digits]. rewrite Hrest. reflexivity.
  - cbn [forallb] in Hds. apply andb_prop in Hds. destruct Hds as [Hc Hds].
    cbn [app DebugCode.read_digits]. rewrite Hc. rewrite (IH Hds). reflexivity.
Qed.

Lemma pow10_succ (fuel : nat) :
  10 ^ Z.of_nat (S fuel) = 10 * 10 ^ Z.of_nat fuel.
Proof. rewrite Nat2Z.inj_succ, Z.pow_succ_r by lia. reflexivity. Qed.

Lemma decimal_digits_spec (fuel : nat) :
  forall n, 0 <= n < 10 ^ Z.of_nat (S fuel) ->
    forallb DebugCode.isdigit (decimal_digits (S fuel) n) = true
    /\ digits_value 0 (decimal_digits (S fuel) n) = n
    /\ exists ds c, decimal_digits (S fuel) n = ds ++ [c]
                    /\ DebugCode.isdigit c = true.
Proof.
  induction fuel as [|fuel IH]; intros n Hn;
    rewrite pow10_succ in Hn;
    pose proof (Z.mod_pos_bound n 10 ltac:(lia)) as Hm;
    destruct (digit_char_spec (n mod 10) ltac:(lia)) as [D1 D2];
    cbn [decimal_digits]; destruct (Z.ltb_spec n 10) as [Hlt|Hge].
  - cbn [app forallb]. rewrite D1. split; [reflexivity|]. split.
    + unfold digits_value. cbn [fold_left]. rewrite D2.
      rewrite Z.mod_small by lia. lia.
    + exists [], (digit_char (n mod 10)). split; [reflexivity|exact D1].
  - cbn in Hn. lia.
  - cbn [app forallb]. rewrite D1. split; [reflexivity|]. split.
    + unfold digits_value. cbn [fold_left]. rewrite D2.
      rewrite Z.mod_small by lia. lia.
    + exists [], (digit_char (n mod 10)). split; [reflexivity|exact D1].
  - assert (Hq : 0 <= n / 10 < 10 ^ Z.of_nat (S fuel)).
    { split; [apply Z.div_pos; lia|].
      apply Z.div_lt_upper_bound; lia. }
    destruct (IH (n / 10) Hq) as [A [B _]].
    change ((if n / 10 <? 10 then [] else decimal_digits fuel (n / 10 / 10))
              ++ [digit_char (n / 10 mod 10)])
      with (decimal_digits (S fuel) (n / 10)).
    split; [|split].
    + rewrite forallb_app, A. cbn. rewrite D1. reflexivity.
    + rewrite digits_value_app, B. unfold digits_value. cbn [fold_left].
      rewrite D2. pose proof (Z.div_mod n 10 ltac:(lia)). lia.
    + exists (decimal_digits (S fuel) (n / 10)), (digit_char (n mod 10)).
      split; [reflexivity|exact D1].
Qed.

Lemma isdigit_not_space (c : ascii) :
  DebugCode.isdigit c = true -> DebugCode.isspace c = false.
Proof.
  unfold DebugCode.isdigit, DebugCode.isspace. intros H.
  apply andb_prop in H. destruct H as [H1 H2].
  apply Nat.leb_le in H1. apply Nat.leb_le in H2.
  destruct (Nat.eqb_spec (nat_of_ascii c) 32) as [E|E]; [lia|].
  cbn [orb]. destruct (Nat.leb_spec (nat_of_ascii c) 13) as [L|L]; [lia|].
  apply andb_false_r.
Qed.

Lemma scan_d_digits (c : ascii) (s : list ascii) :
  DebugCode.isdigit c = true ->
  DebugCode.scan_d (c :: s) =
  Some (Int32.wrap (fst (DebugCode.read_digits 0 (c :: s))),
        snd (DebugCode.read_digits 0 (c :: s))).
Proof.
  intros H. unfold DebugCode.scan_d.
  cbn [DebugCode.skip_space]. rewrite (isdigit_not_space c H).
  destruct c as [b0 b1 b2 b3 b4 b5 b6 b7].
  destruct b0, b1, b2, b3, b4, b5, b6, b7; try discriminate H;
    cbv beta iota zeta;
    match goal with
    | |- context [DebugCode.isdigit ?c] =>
        change (DebugCode.isdigit c) with true
    end;
    cbv beta iota;
    destruct (DebugCode.read_digits 0 _); reflexivity.
Qed.

Lemma scan_d_minus (c : ascii) (s : list ascii) :
  DebugCode.isdigit c = true ->
  DebugCode.scan_d ("-"%char :: c :: s) =
  Some (Int32.wrap (- fst (DebugCode.read_digits 0 (c :: s))),
        snd (DebugCode.read_digits 0 (c :: s))).
Proof.
  intros H. unfold DebugCode.scan_d.
  change (DebugCode.skip_space ("-"%char :: c :: s)) with ("-"%char :: c :: s).
  cbv beta iota zeta. rewrite H.
  destruct (DebugCode.read_digits 0 (c :: s)); reflexivity.
Qed.

Lemma scan_d_space (s : list ascii) :
  DebugCode.scan_d (" "%char :: s) = DebugCode.scan_d s.
Proof. reflexivity. Qed.

Lemma digits_head (ds : list ascii) :
  forallb DebugCode.isdigit ds = true -> ds <> [] ->
  exists c rest, ds = c :: rest /\ DebugCode.isdigit c = true.
Proof.
  destruct ds as [|c rest]; [contradiction|]. intros H _.
  cbn in H. apply andb_prop in H. exists c, rest. split; [reflexivity|apply H].
Qed.

(** One [%d] conversion reads a decimal number back. *)
Lemma scan_d_decimal (n : Z) (rest : list ascii) :
  Int32.in_range n ->
  match rest with c :: _ => DebugCode.isdigit c = false | [] => True end ->
  DebugCode.scan_d (decimal n ++ rest) = Some (n, rest).
Proof.
  intros Hn Hrest. unfold decimal.
  unfold Int32.in_range, Int32.INT_MIN, Int32.INT_MAX in Hn.
  destruct (Z.ltb_spec n 0) as [Hneg|Hpos].
  - destruct (decimal_digits_spec 9 (- n)) as [A [B [ds [c [E Hc]]]]].
    { change (10 ^ Z.of_nat 10) with 10000000000. lia. }
    destruct (digits_head (decimal_digits 10 (- n)) A) as [d [tl [Ed Hd]]].
    { rewrite E. destruct ds; discriminate. }
    cbn [app]. rewrite Ed. cbn [app]. rewrite (scan_d_minus d _ Hd).
    change (d :: tl ++ rest) with ((d :: tl) ++ rest). rewrite <- Ed.
    rewrite (read_digits_run _ rest A Hrest 0), B. cbn [fst snd].
    rewrite Int32Facts.wrap_id;
      [rewrite Z.opp_involutive; reflexivity|].
    unfold Int32.in_range, Int32.INT_MIN, Int32.INT_MAX. lia.
  - destruct (decimal_digits_spec 9 n) as [A [B [ds [c [E Hc]]]]].
    { change (10 ^ Z.of_nat 10) with 10000000000. lia. }
    destruct (digits_head (decimal_digits 10 n) A) as [d [tl [Ed Hd]]].
    { rewrite E. destruct ds; discriminate. }
    rewrite Ed. cbn [app]. rewrite (scan_d_digits d _ Hd).
    change (d :: tl ++ rest) with ((d :: tl) ++ rest). rewrite <- Ed.
    rewrite (read_digits_run _ rest A Hrest 0), B. cbn [fst snd].
    rewrite Int32Facts.wrap_id; [reflexivity|].
    unfold Int32.in_range, Int32.INT_MIN, Int32.INT_MAX. lia.
Qed.

(** A decimal number starts and ends with a character that is no white
    space. *)
Lemma decimal_ends (n : Z) :
  Int32.in_range n ->
  (exists c tl, decimal n = c :: tl /\ DebugCode.isspace c = false)
  /\ (exists ds c, decimal n = ds ++ [c] /\ DebugCode.isspace c = false).
Proof.
  intros Hn. unfold decimal.
  unfold Int32.in_range, Int32.INT_MIN, Int32.INT_MAX in Hn.
  destruct (Z.ltb_spec n 0) as [Hneg|Hpos].
  - destruct (decimal_digits_spec 9 (- n)) as [A [B [ds [c [E Hc]]]]].
    { change (10 ^ Z.of_nat 10) with 10000000000. lia. }
    split.
    + exists "-"%char, (decimal_digits 10 (- n)). split; reflexivity.
    + exists ("-"%char :: ds), c. rewrite E. split; [reflexivity|].
      apply isdigit_not_space, Hc.
  - destruct (decimal_digits_spec 9 n) as [A [B [ds [c [E Hc]]]]].
    { change (10 ^ Z.of_nat 10) with 10000000000. lia. }
    split.
    + destruct (digits_head (decimal_digits 10 n) A) as [d [tl [Ed Hd]]].
      { rewrite E. destruct ds; discriminate. }
      exists d, tl. split; [exact Ed|apply isdigit_not_space, Hd].
    + exists ds, c. split; [exact E|apply isdigit_not_space, Hc].
Qed.

Lemma trim_fixed (c d : ascii) (mid : list ascii) :
  DebugCode.isspace c = false -> DebugCode.isspace d = false ->
  DebugCode.trim (c :: mid ++ [d]) = c :: mid ++ [d].
Proof.
  intros Hc Hd. unfold DebugCode.trim.
  cbn [DebugCode.skip_space]. rewrite Hc.
  change (c :: mid ++ [d]) with ((c :: mid) ++ [d]).
  rewrite rev_app_distr. cbn [rev app DebugCode.skip_space]. rewrite Hd.
  change (d :: rev mid ++ [c]) with ([d] ++ rev (c :: mid)).
  rewrite rev_app_distr, rev_involutive. reflexivity.
Qed.

Lemma scan_d_decimal_space (n : Z) (rest : list ascii) :
  Int32.in_range n ->
  DebugCode.scan_d (decimal n ++ " "%char :: rest) = Some (n, " "%char :: rest).
Proof. intros Hn. apply scan_d_decimal; [exact Hn|reflexivity]. Qed.

Lemma debug_line_scans (b s e w g : Z) :
  Int32.in_range b -> Int32.in_range s -> Int32.in_range e ->
  Int32.in_range w -> Int32.in_range g ->
  DebugCode.scan_ints 5 (debug_line b s e w g) = [b; s; e; w; g].
Proof.
  intros Hb Hs He Hw Hg. unfold debug_line. cbn [DebugCode.scan_ints].
  rewrite (scan_d_decimal_space b _ Hb), scan_d_space.
  rewrite (scan_d_decimal_space s _ Hs), scan_d_space.
  rewrite (scan_d_decimal_space e _ He), scan_d_space.
  rewrite (scan_d_decimal_space w _ Hw), scan_d_space.
  rewrite <- (app_nil_r (decimal g)).
  rewrite (scan_d_decimal g [] Hg I). reflexivity.
Qed.

Lemma debug_line_trim (b s e w g : Z) :
  Int32.in_range b -> Int32.in_range g ->
  DebugCode.trim (debug_line b s e w g) = debug_line b s e w g.
Proof.
  intros Hb Hg. unfold debug_line.
  destruct (proj1 (decimal_ends b Hb)) as [c [tl [Eb Hc]]].
  destruct (proj2 (decimal_ends g Hg)) as [ds [d [Eg Hd]]].
  rewrite Eb, Eg.
  replace ((c :: tl) ++ " "%char :: decimal s ++ " "%char :: decimal e
             ++ " "%char :: decimal w ++ " "%char :: ds ++ [d])
    with (c :: (tl ++ " "%char :: decimal s ++ " "%char :: decimal e
                  ++ " "%char :: decimal w ++ " "%char :: ds) ++ [d]).
  - apply trim_fixed; assumption.
  - cbn [app]. f_equal. rewrite <- !app_assoc. cbn [app].
    repeat (f_equal; rewrite <- ?app_assoc; cbn [app]).
Qed.

(** * How far a joint moves in one step *)

Section RoundingError.

Import Float32 Float32Facts.
Local Open Scope Q_scope.

Lemma inject_Z_pred (n : Z) : inject_Z (n - 1) == inject_Z n - 1.
Proof.
  unfold Z.sub. rewrite inject_Z_plus, inject_Z_opp. reflexivity.
Qed.

Lemma rne_error (y : Q) :
  - (1 # 2) <= inject_Z (rne y) - y /\ inject_Z (rne y) - y <= 1 # 2.
Proof.
  unfold rne. set (n := Qfloor (y + (1 # 2))).
  pose proof (Qfloor_le (y + (1 # 2))) as L.
  pose proof (Qlt_floor (y + (1 # 2))) as U. fold n in L, U.
  rewrite inject_Z_plus in U. change (inject_Z 1) with 1 in U.
  destruct (Qeq_bool (y + (1 # 2)) (inject_Z n) && Z.odd n) eqn:E.
  - apply andb_prop in E. destruct E as [E _]. apply Qeq_bool_iff in E.
    rewrite inject_Z_pred. lra.
  - lra.
Qed.

Lemma round_pos_error (x : Q) (k : Z) :
  0 < x -> x <= 2 ^ k -> (-126 <= k)%Z ->
  - 2 ^ (k - 24) <= round_pos x - x /\ round_pos x - x <= 2 ^ (k - 24).
Proof.
  intros Hx Hk Hmin.
  assert (He : (ulp_exp x <= k - 23)%Z).
  { assert (M : (mag x <= k + 1)%Z).
    { apply Binary32Bridge.below_pow2_mag; [exact Hx|].
      pose proof (pow2_succ k). pose proof (pow2_pos k). lra. }
    unfold ulp_exp, prec, emin. lia. }
  pose proof (pow2_pos (ulp_exp x)) as Pe.
  pose proof (pow2_le _ _ He) as Le.
  assert (Half : 2 ^ (k - 23) == 2 * 2 ^ (k - 24)).
  { rewrite <- pow2_succ. f_equiv. ring. }
  destruct (rne_error (x / 2 ^ ulp_exp x)) as [R1 R2].
  set (r := inject_Z (rne (x / 2 ^ ulp_exp x))) in *.
  assert (E : round_pos x - x == (r - x / 2 ^ ulp_exp x) * 2 ^ ulp_exp x).
  { rewrite round_pos_eq. fold r. field. lra. }
  rewrite E. split; nra.
Qed.

Lemma round_error (x : Q) (k : Z) :
  - 2 ^ k <= x -> x <= 2 ^ k -> (-126 <= k)%Z ->
  - 2 ^ (k - 24) <= round x - x /\ round x - x <= 2 ^ (k - 24).
Proof.
  intros Hlo Hhi Hmin. pose proof (pow2_pos (k - 24)) as P.
  destruct (Qlt_le_dec 0 x) as [Hp|Hn].
  - rewrite (round_gt x Hp). apply round_pos_error; assumption.
  - destruct (Qlt_le_dec x 0) as [Hneg|Hz].
    + rewrite (round_lt x Hneg).
      destruct (round_pos_error (- x) k ltac:(lra) ltac:(lra) Hmin) as [A B].
      lra.
    + assert (E : x == 0) by lra. rewrite (round_eq0 x E). lra.
Qed.

Lemma trunc_near (a b : Q) :
  a <= b -> inject_Z (trunc b) - inject_Z (trunc a) < b - a + 1.
Proof.
  intros Hab. unfold trunc.
  pose proof (Qfloor_le a). pose proof (Qlt_floor a) as Fa.
  pose proof (Qfloor_le b). pose proof (Qlt_floor b) as Fb.
  pose proof (Qle_ceiling a). pose proof (Qceiling_lt a) as Ca.
  pose proof (Qle_ceiling b). pose proof (Qceiling_lt b) as Cb.
  rewrite inject_Z_plus in Fa, Fb. change (inject_Z 1) with 1 in Fa, Fb.
  rewrite inject_Z_pred in Ca, Cb.
  destruct (Qle_bool 0 a) eqn:Ea; destruct (Qle_bool 0 b) eqn:Eb; try lra.
  apply Qle_bool_iff in Ea.
  assert (Hb : 0 <= b) by lra. apply Qle_bool_iff in Hb. congruence.
Qed.

(** Two numbers that are close truncate to integers that are close. *)
Lemma trunc_close (a b : Q) (B : Z) :
  - (inject_Z B - (7 # 8)) <= b - a -> b - a <= inject_Z B - (7 # 8) ->
  (Z.abs (trunc b - trunc a) <= B)%Z.
Proof.
  intros Hlo Hhi.
  assert (K : forall u v : Q, u <= v -> v - u <= inject_Z B - (7 # 8) ->
              (0 <= trunc v - trunc u <= B)%Z).
  { intros u v Huv Hd. pose proof (trunc_mono u v Huv) as M.
    pose proof (trunc_near u v Huv) as N.
    split; [lia|].
    assert (L : inject_Z (trunc v - trunc u) < inject_Z (B + 1)).
    { unfold Z.sub. rewrite !inject_Z_plus, inject_Z_opp.
      change (inject_Z 1) with 1. lra. }
    rewrite <- Zlt_Qlt in L. lia. }
  destruct (Qlt_le_dec b a) as [H|H].
  - pose proof (K b a ltac:(lra) ltac:(lra)). lia.
  - pose proof (K a b H Hhi). lia.
Qed.

End RoundingError.

Section StepFacts.

Import Float32 Float32Facts.
Local Open Scope Q_scope.

Variables s d n : Z.
Hypothesis s_small : (- 2 ^ 16 <= s <= 2 ^ 16)%Z.
Hypothesis d_small : (- 2 ^ 17 <= d <= 2 ^ 17)%Z.
Hypothesis n_range : (1 <= n <= 2 ^ 24)%Z.

Lemma n_positive : 1 <= inject_Z n.
Proof. change 1 with (inject_Z 1). rewrite <- Zle_Qle. lia. Qed.

Lemma d_bounds : - 2 ^ 17 <= inject_Z d /\ inject_Z d <= 2 ^ 17.
Proof.
  rewrite <- (pow2_Z 17) by lia. rewrite <- inject_Z_opp, <- !Zle_Qle. lia.
Qed.

Lemma s_bounds : - 2 ^ 16 <= inject_Z s /\ inject_Z s <= 2 ^ 16.
Proof.
  rewrite <- (pow2_Z 16) by lia. rewrite <- inject_Z_opp, <- !Zle_Qle. lia.
Qed.

(** The exact value of [i / n]. *)
Local Abbreviation ratio := (fun i : Z => inject_Z i / inject_Z n).

Lemma ratio_unit (i : Z) : (0 <= i <= n)%Z -> 0 <= ratio i /\ ratio i <= 1.
Proof.
  intros Hi. pose proof n_positive as Pn.
  assert (I0 : 0 <= inject_Z i) by (change 0 with (inject_Z 0); rewrite <- Zle_Qle; lia).
  assert (I1 : inject_Z i <= inject_Z n) by (rewrite <- Zle_Qle; lia).
  split.
  - apply Qle_shift_div_l; lra.
  - apply Qle_shift_div_r; lra.
Qed.

Lemma fraction_ratio (i : Z) :
  (0 <= i <= n)%Z -> fraction i n == round (ratio i).
Proof.
  intros Hi. unfold fraction, Float32.div. apply round_comp.
  rewrite (of_int_exact i), (of_int_exact n) by lia. reflexivity.
Qed.

Lemma fraction_error (i : Z) :
  (0 <= i <= n)%Z ->
  - 2 ^ (-24) <= fraction i n - ratio i /\ fraction i n - ratio i <= 2 ^ (-24).
Proof.
  intros Hi. rewrite (fraction_ratio i Hi).
  destruct (ratio_unit i Hi) as [R0 R1].
  apply (round_error (ratio i) 0); [|exact R1|lia].
  change (2 ^ 0) with 1. lra.
Qed.

Lemma fraction_unit_interval (i : Z) :
  (0 <= i <= n)%Z -> 0 <= fraction i n /\ fraction i n <= 1.
Proof.
  intros Hi. split.
  - apply fraction_nonneg; lia.
  - apply fraction_le_1; lia.
Qed.

Local Abbreviation product :=
  (fun i : Z => Float32.mul (Float32.of_int d) (fraction i n)).

Lemma product_error (i : Z) :
  (0 <= i <= n)%Z ->
  - 2 ^ (-6) <= product i - inject_Z d * ratio i
  /\ product i - inject_Z d * ratio i <= 2 ^ (-6).
Proof.
  intros Hi. cbv beta.
  rewrite (product_eq d (fraction i n)) by lia.
  destruct (fraction_error i Hi) as [F1 F2].
  destruct (fraction_unit_interval i Hi) as [T0 T1].
  destruct d_bounds as [D1 D2].
  assert (P17 : 0 < 2 ^ 17) by apply pow2_pos.
  destruct (round_error (inject_Z d * fraction i n) 17) as [E1 E2];
    [nra|nra|lia|].
  change (2 ^ (17 - 24)) with (2 ^ (-7)) in E1, E2.
  assert (S1 : 2 ^ (-6) == 2 ^ (-7) + 2 ^ (-7)) by reflexivity.
  assert (S2 : 2 ^ 17 * 2 ^ (-24) == 2 ^ (-7)) by reflexivity.
  assert (P24 : 0 < 2 ^ (-24)) by apply pow2_pos.
  set (t := fraction i n) in *. set (r := ratio i) in *.
  assert (G1 : inject_Z d * t - inject_Z d * r <= 2 ^ (-7)) by nra.
  assert (G2 : - 2 ^ (-7) <= inject_Z d * t - inject_Z d * r) by nra.
  lra.
Qed.

Lemma product_bounds (i : Z) :
  (0 <= i <= n)%Z -> - 2 ^ 17 - 1 <= product i /\ product i <= 2 ^ 17 + 1.
Proof.
  intros Hi. destruct (product_error i Hi) as [E1 E2].
  destruct (ratio_unit i Hi) as [R0 R1]. destruct d_bounds as [D1 D2].
  assert (P6 : 2 ^ (-6) <= 1) by (apply Qle_bool_iff; reflexivity).
  set (r := ratio i) in *. split; nra.
Qed.

Lemma small_Z_of_Q (x : Q) (k : Z) :
  (0 <= k <= 30)%Z -> - 2 ^ k <= x -> x <= 2 ^ k ->
  Float32.to_int x = Float32.trunc x.
Proof.
  intros Hk H1 H2. unfold to_int. apply Int32Facts.wrap_id.
  rewrite <- (pow2_Z k), <- ?inject_Z_opp in H1, H2 by lia.
  rewrite <- inject_Z_opp in H1.
  pose proof (trunc_between x _ _ H1 H2) as B.
  assert (2 ^ k <= 2 ^ 30)%Z by (apply Z.pow_le_mono_r; lia).
  unfold Int32.in_range, Int32.INT_MIN, Int32.INT_MAX. lia.
Qed.

(** The values of the debug sketch: [s + (int)(d * t)]. *)
Lemma lerp_cast_value (i : Z) :
  (0 <= i <= n)%Z ->
  lerp_cast s d (fraction i n) = (s + Float32.trunc (product i))%Z.
Proof.
  intros Hi. unfold lerp_cast. destruct (product_bounds i Hi) as [B1 B2].
  assert (P : 2 ^ 17 + 1 <= 2 ^ 18) by (apply Qle_bool_iff; reflexivity).
  cbv beta in B1, B2.
  rewrite (small_Z_of_Q _ 18) by (try lia; lra).
  unfold Int32.add. apply Int32Facts.wrap_id.
  assert (T : (- 2 ^ 18 <= Float32.trunc
                 (Float32.mul (Float32.of_int d) (fraction i n)) <= 2 ^ 18)%Z).
  { apply trunc_between; rewrite ?inject_Z_opp, pow2_Z by lia; lra. }
  unfold Int32.in_range, Int32.INT_MIN, Int32.INT_MAX. lia.
Qed.

Local Abbreviation total :=
  (fun i : Z =>
     Float32.add (Float32.of_int s)
       (Float32.mul (Float32.of_int d) (fraction i n))).

Lemma total_error (i : Z) :
  (0 <= i <= n)%Z ->
  - 2 ^ (-5) <= total i - (inject_Z s + inject_Z d * ratio i)
  /\ total i - (inject_Z s + inject_Z d * ratio i) <= 2 ^ (-5).
Proof.
  intros Hi. cbv beta. rewrite (sum_eq s) by lia.
  destruct (product_error i Hi) as [E1 E2].
  destruct (product_bounds i Hi) as [B1 B2]. cbv beta in E1, E2, B1, B2.
  destruct s_bounds as [S1 S2].
  set (p := Float32.mul (Float32.of_int d) (fraction i n)) in *.
  assert (P : 2 ^ 16 + (2 ^ 17 + 1) <= 2 ^ 18) by (apply Qle_bool_iff; reflexivity).
  destruct (round_error (inject_Z s + p) 18) as [R1 R2]; [lra|lra|lia|].
  change (2 ^ (18 - 24)) with (2 ^ (-6)) in R1, R2.
  assert (H5 : 2 ^ (-5) == 2 ^ (-6) + 2 ^ (-6)) by reflexivity.
  lra.
Qed.

Lemma total_bounds (i : Z) :
  (0 <= i <= n)%Z -> - 2 ^ 18 <= total i /\ total i <= 2 ^ 18.
Proof.
  intros Hi. destruct (total_error i Hi) as [E1 E2].
  destruct (ratio_unit i Hi) as [R0 R1]. destruct d_bounds as [D1 D2].
  destruct s_bounds as [S1 S2].
  assert (P : 2 ^ 16 + 2 ^ 17 + 2 ^ (-5) <= 2 ^ 18)
    by (apply Qle_bool_iff; reflexivity).
  set (r := ratio i) in *. split; nra.
Qed.

(** The values of [Main_Code.ino]: [(int)(s + d * t)]. *)
Lemma lerp_implicit_value (i : Z) :
  (0 <= i <= n)%Z ->
  lerp_implicit s d (fraction i n) = Float32.trunc (total i).
Proof.
  intros Hi. unfold lerp_implicit. destruct (total_bounds i Hi) as [B1 B2].
  apply (small_Z_of_Q _ 18); [lia|exact B1|exact B2].
Qed.

Variable B : Z.
Hypothesis d_per_step : (Z.abs d <= n * (B - 1))%Z.

Lemma ratio_step (i : Z) :
  - (inject_Z B - 1) <= inject_Z d * ratio (i + 1)%Z - inject_Z d * ratio i
  /\ inject_Z d * ratio (i + 1)%Z - inject_Z d * ratio i <= inject_Z B - 1.
Proof.
  pose proof n_positive as Pn.
  assert (E : inject_Z d * ratio (i + 1)%Z - inject_Z d * ratio i
              == inject_Z d / inject_Z n).
  { cbv beta. rewrite inject_Z_plus. change (inject_Z 1) with 1. field. lra. }
  rewrite E.
  assert (H1 : inject_Z d <= inject_Z n * (inject_Z B - 1)).
  { rewrite <- inject_Z_pred, <- inject_Z_mult, <- Zle_Qle. lia. }
  assert (H2 : - (inject_Z n * (inject_Z B - 1)) <= inject_Z d).
  { rewrite <- inject_Z_pred, <- inject_Z_mult, <- inject_Z_opp, <- Zle_Qle. lia. }
  split.
  - apply Qle_shift_div_l; [lra|]. nra.
  - apply Qle_shift_div_r; [lra|]. nra.
Qed.

Lemma lerp_cast_step (i : Z) :
  (0 <= i < n)%Z ->
  (Z.abs (lerp_cast s d (fraction (i + 1)%Z n) - lerp_cast s d (fraction i n))
   <= B)%Z.
Proof.
  intros Hi. rewrite !lerp_cast_value by lia.
  destruct (product_error i ltac:(lia)) as [A1 A2].
  destruct (product_error (i + 1)%Z ltac:(lia)) as [C1 C2].
  destruct (ratio_step i) as [R1 R2]. cbv beta in *.
  assert (P : 2 ^ (-6) + 2 ^ (-6) <= 1 # 8) by (apply Qle_bool_iff; reflexivity).
  pose proof (trunc_close
                (Float32.mul (Float32.of_int d) (fraction i n))
                (Float32.mul (Float32.of_int d) (fraction (i + 1)%Z n)) B
                ltac:(lra) ltac:(lra)) as T.
  lia.
Qed.

Lemma lerp_implicit_step (i : Z) :
  (0 <= i < n)%Z ->
  (Z.abs (lerp_implicit s d (fraction (i + 1)%Z n)
          - lerp_implicit s d (fraction i n)) <= B)%Z.
Proof.
  intros Hi. rewrite !lerp_implicit_value by lia.
  destruct (total_error i ltac:(lia)) as [A1 A2].
  destruct (total_error (i + 1)%Z ltac:(lia)) as [C1 C2].
  destruct (ratio_step i) as [R1 R2]. cbv beta in *.
  assert (P : 2 ^ (-5) + 2 ^ (-5) <= 1 # 8) by (apply Qle_bool_iff; reflexivity).
  apply trunc_close; lra.
Qed.

End StepFacts.

Lemma fraction_zero (n : Z) : fraction 0 n = 0%Q.
Proof.
  unfold fraction, Float32.div. apply Float32Facts.round_eq0.
  change (Float32.of_int 0) with 0%Q. unfold Qdiv. ring.
Qed.

Lemma lerp_cast_start (s d : Z) : Int32.in_range s -> lerp_cast s d 0%Q = s.
Proof.
  intros Hs. unfold lerp_cast, Float32.mul.
  rewrite Float32Facts.round_eq0 by ring.
  change (Float32.to_int 0%Q) with 0. unfold Int32.add.
  rewrite Z.add_0_r. apply Int32Facts.wrap_id, Hs.
Qed.

Lemma lerp_implicit_start (s d : Z) :
  - 2 ^ 24 <= s <= 2 ^ 24 -> lerp_implicit s d 0%Q = s.
Proof.
  intros Hs. unfold lerp_implicit. apply to_int_exact; [|apply small_in_range, Hs].
  rewrite sum_eq by exact Hs.
  apply (Qeq_trans _ (Float32.round (inject_Z s)));
    [|apply Float32Facts.round_int, Hs].
  apply Float32Facts.round_comp. unfold Float32.mul.
  rewrite Float32Facts.round_eq0 by ring. ring.
Qed.

Lemma max_abs_difference_ge (start target : Pose) (j : Servo) :
  Z.abs (joint j target - joint j start) <= max_abs_difference start target.
Proof. unfold max_abs_difference. destruct j; cbn [joint]; lia. Qed.

Lemma modest_small (p : Pose) : modest_pose p -> small_pose p.
Proof. intros H j. specialize (H j). lia. Qed.

(** The step count leaves at most [2 * stepSize - 1] per step for the
    joint that has farthest to go. *)
Lemma stepCount_per_step (m stepSize steps : Z) :
  0 <= m <= Int32.INT_MAX -> 1 <= stepSize ->
  stepCount m stepSize = Some steps ->
  1 <= steps <= Z.max 1 m /\ m <= steps * (2 * stepSize - 1).
Proof.
  intros Hm Hs Hc. rewrite stepCount_positive in Hc by lia.
  injection Hc as <-.
  pose proof (Z.div_mod m stepSize ltac:(lia)) as E.
  pose proof (Z.mod_pos_bound m stepSize ltac:(lia)) as R.
  assert (Q0 : 0 <= m / stepSize) by (apply Z.div_pos; lia).
  assert (Q1 : m / stepSize <= m).
  { apply Z.div_le_upper_bound; [lia|]. nia. }
  destruct (Z.le_gt_cases 1 (m / stepSize)) as [H|H].
  - rewrite Z.max_r by lia. split; [lia|]. nia.
  - rewrite Z.max_l by lia. split; [lia|]. nia.
Qed.

(** * The claims *)

(** C1.  When [moveToPose] returns, the global [currentPose] is the
    requested target, field for field, whatever the start pose, the
    target (in or out of the joint ranges) and the step size; and for a
    positive step size the move does return, the single exception being
    a step count of [INT_MAX], which the loop counter can never pass. *)
Theorem moveToPose_reaches_target
    (target : Pose) (speedDelayMs stepSize : Z) (st : state) :
  (forall fuel st',
      MainCode.moveToPose fuel target speedDelayMs stepSize st = Done st' ->
      currentPose st' = target)
  /\ (forall fuel st',
      DebugCode.moveToPose fuel target speedDelayMs stepSize st = Done st' ->
      currentPose st' = target)
  /\ (0 < stepSize ->
      (stepSize = 1 ->
       maxDelta (deltas (currentPose st) target) <> Int32.INT_MAX) ->
      (exists st', terminates
         (fun fuel => MainCode.moveToPose fuel target speedDelayMs stepSize st) st')
      /\ (exists st', terminates
         (fun fuel => DebugCode.moveToPose fuel target speedDelayMs stepSize st) st')).
Proof.
  split; [|split].
  - intros fuel st'. apply moveToPose_currentPose.
  - intros fuel st'. apply moveToPose_currentPose.
  - intros Hs Hc. split; apply moveToPose_terminates; assumption.
Qed.

Lemma moveToPose_reaches_target_witness :
  let st := mkState MainCode.homePose [] in
  let target := mkPose 85 300 90 (-20) 200 in
  0 < 70
  /\ (exists st', MainCode.moveToPose 3 target 10 70 st = Done st'
                  /\ currentPose st' = target)
  /\ (exists st', DebugCode.moveToPose 3 target 10 70 st = Done st'
                  /\ currentPose st' = target)
  /\ (exists st', terminates (fun fuel => MainCode.moveToPose fuel target 10 70 st) st').
Proof.
  intros st target.
  pose proof (moveToPose_reaches_target target 10 70 st) as [HM [HD HT]].
  split; [lia|]. split; [|split].
  - destruct (MainCode.moveToPose 3 target 10 70 st) as [st'| |] eqn:E;
      try (vm_compute in E; discriminate).
    exists st'. split; [reflexivity|]. exact (HM 3%nat st' E).
  - destruct (DebugCode.moveToPose 3 target 10 70 st) as [st'| |] eqn:E;
      try (vm_compute in E; discriminate).
    exists st'. split; [reflexivity|]. exact (HD 3%nat st' E).
  - apply HT; [lia|]. intros E. discriminate E.
Defined.

(** C2 (as claimed, refuted).  A step size of 0 is not replaced by 1:
    the quotient [maxDelta / stepSize] is taken unguarded and traps.
    A negative step size is not replaced by 1 either: -1 gives one step
    where 1 gives ten. *)
Lemma nonpositive_step_size_not_treated_as_one :
  MainCode.moveToPose 10 (mkPose 100 90 90 90 90) 10 0
    (mkState MainCode.homePose []) = DivisionByZero
  /\ DebugCode.moveToPose 10 (mkPose 170 0 100 0 0) 10 0
    (mkState DebugCode.homePose []) = DivisionByZero
  /\ stepCount 10 0 = None
  /\ stepCount 10 (-1) = Some 1
  /\ stepCount 10 1 = Some 10.
Proof. repeat split. Qed.

(** C2 (amended).  The only guard is [if (steps < 1) steps = 1], applied
    to the quotient.  With step size 0 the division traps; with any
    other step size the step count is at least 1; with a negative step
    size it is exactly 1 and the move returns after a single step. *)
Theorem step_count_guard
    (target : Pose) (speedDelayMs stepSize : Z) (st : state) :
  (stepSize = 0 ->
   forall fuel,
     MainCode.moveToPose fuel target speedDelayMs stepSize st = DivisionByZero
     /\ DebugCode.moveToPose fuel target speedDelayMs stepSize st = DivisionByZero)
  /\ (stepSize <> 0 ->
      exists steps,
        stepCount (maxDelta (deltas (currentPose st) target)) stepSize = Some steps
        /\ 1 <= steps)
  /\ (stepSize < 0 ->
      0 <= maxDelta (deltas (currentPose st) target) ->
      stepCount (maxDelta (deltas (currentPose st) target)) stepSize = Some 1
      /\ MainCode.moveToPose 1 target speedDelayMs stepSize st =
         Done (mkState target
                 (trace st
                  ++ MainCode.servoWrites
                       (MainCode.intermediate (currentPose st)
                          (deltas (currentPose st) target) 1 1)
                  ++ [Delay speedDelayMs; StoreCurrentPose target]
                  ++ MainCode.servoWrites target))
      /\ DebugCode.moveToPose 1 target speedDelayMs stepSize st =
         Done (mkState target
                 (trace st
                  ++ DebugCode.servoWrites
                       (DebugCode.intermediate (currentPose st)
                          (deltas (currentPose st) target) 1 1)
                  ++ [Delay speedDelayMs; StoreCurrentPose target]
                  ++ DebugCode.servoWrites target))).
Proof.
  split; [|split].
  - intros -> fuel. split; apply moveToPose_step_zero.
  - intros Hnz.
    destruct (stepCount (maxDelta (deltas (currentPose st) target)) stepSize)
      as [steps|] eqn:Hc.
    + exists steps. split; [reflexivity|]. apply (stepCount_bounds _ _ _ Hc).
    + rewrite stepCount_some in Hc by exact Hnz. discriminate.
  - intros Hneg Hmax.
    pose proof (maxDelta_in_range (currentPose st) target) as Hr.
    assert (Hc : stepCount (maxDelta (deltas (currentPose st) target)) stepSize
                 = Some 1).
    { apply stepCount_negative; [|exact Hneg].
      unfold Int32.in_range in Hr. lia. }
    split; [exact Hc|]. split.
    + unfold MainCode.moveToPose.
      rewrite (moveToPose_complete _ _ 1%nat target speedDelayMs stepSize 1 st Hc);
        [|reflexivity|cbn; lia].
      unfold move_events, loop_events, step_events.
      change (Z.to_nat 1) with 1%nat. cbn [zseq flat_map].
      rewrite app_nil_r, <- !app_assoc. reflexivity.
    + unfold DebugCode.moveToPose.
      rewrite (moveToPose_complete _ _ 1%nat target speedDelayMs stepSize 1 st Hc);
        [|reflexivity|cbn; lia].
      unfold move_events, loop_events, step_events.
      change (Z.to_nat 1) with 1%nat. cbn [zseq flat_map].
      rewrite app_nil_r, <- !app_assoc. reflexivity.
Qed.

Lemma step_count_guard_witness :
  let st := mkState MainCode.homePose [] in
  let target := mkPose 100 90 90 90 90 in
  (forall fuel, MainCode.moveToPose fuel target 10 0 st = DivisionByZero)
  /\ -3 < 0
  /\ 0 <= maxDelta (deltas (currentPose st) target)
  /\ stepCount (maxDelta (deltas (currentPose st) target)) (-3) = Some 1
  /\ exists steps,
       stepCount (maxDelta (deltas (currentPose st) target)) 4 = Some steps
       /\ 1 <= steps.
Proof.
  intros st target.
  split; [|split; [|split; [|split]]].
  - intros fuel.
    exact (proj1 (proj1 (step_count_guard target 10 0 st) eq_refl fuel)).
  - lia.
  - vm_compute. congruence.
  - apply (proj2 (proj2 (step_count_guard target 10 (-3) st))); [lia|].
    vm_compute. congruence.
  - apply (proj1 (proj2 (step_count_guard target 10 4 st))). lia.
Defined.

(** C3 (as claimed, refuted).  [Main_Code.ino] sends the gripper angle
    unclamped: 200 goes out as 200 although open is 90 and close 40. *)
Lemma main_gripper_not_clamped :
  MainCode.servoWrites (mkPose 90 90 90 90 200) =
    [ ServoWrite baseServo 90; ServoWrite shoulderServo 90;
      ServoWrite elbowServo 90; ServoWrite wristServo 90;
      ServoWrite gripperServo 200 ]
  /\ ~ (Z.min MainCode.GRIPPER_OPEN MainCode.GRIPPER_CLOSE <= 200
        <= Z.max MainCode.GRIPPER_OPEN MainCode.GRIPPER_CLOSE).
Proof.
  split; [reflexivity|].
  unfold MainCode.GRIPPER_OPEN, MainCode.GRIPPER_CLOSE. lia.
Qed.

(** C3 (amended).  Every [writePose] call sends five angles, one per
    servo.  Base, shoulder, elbow and wrist are [clampAngle] of the pose
    value and lie within the joint's configured range, in both sketches.
    The debug sketch clamps the gripper between its open angle 0 and its
    close angle 100, taken as lower and upper bound; [Main_Code.ino]
    sends the gripper value as it is. *)
Theorem writePose_clamps_arm_joints (p : Pose) (st : state) :
  (exists b s e w,
      MainCode.writePose p st =
        mkState (currentPose st)
          (trace st ++ [ ServoWrite baseServo b; ServoWrite shoulderServo s;
                         ServoWrite elbowServo e; ServoWrite wristServo w;
                         ServoWrite gripperServo (gripper p) ])
      /\ b = Z.max MainCode.BASE_MIN (Z.min (base p) MainCode.BASE_MAX)
      /\ s = Z.max MainCode.SHOULDER_MIN (Z.min (shoulder p) MainCode.SHOULDER_MAX)
      /\ e = Z.max MainCode.ELBOW_MIN (Z.min (elbow p) MainCode.ELBOW_MAX)
      /\ w = Z.max MainCode.WRIST_MIN (Z.min (wrist p) MainCode.WRIST_MAX)
      /\ MainCode.BASE_MIN <= b <= MainCode.BASE_MAX
      /\ MainCode.SHOULDER_MIN <= s <= MainCode.SHOULDER_MAX
      /\ MainCode.ELBOW_MIN <= e <= MainCode.ELBOW_MAX
      /\ MainCode.WRIST_MIN <= w <= MainCode.WRIST_MAX)
  /\ (exists b s e w g,
      DebugCode.writePose p st =
        mkState (currentPose st)
          (trace st ++ [ ServoWrite baseServo b; ServoWrite shoulderServo s;
                         ServoWrite elbowServo e; ServoWrite wristServo w;
                         ServoWrite gripperServo g ])
      /\ b = Z.max DebugCode.BASE_MIN (Z.min (base p) DebugCode.BASE_MAX)
      /\ s = Z.max DebugCode.SHOULDER_MIN (Z.min (shoulder p) DebugCode.SHOULDER_MAX)
      /\ e = Z.max DebugCode.ELBOW_MIN (Z.min (elbow p) DebugCode.ELBOW_MAX)
      /\ w = Z.max DebugCode.WRIST_MIN (Z.min (wrist p) DebugCode.WRIST_MAX)
      /\ g = clampAngle (gripper p) DebugCode.GRIPPER_OPEN DebugCode.GRIPPER_CLOSE
      /\ g = Z.max DebugCode.GRIPPER_OPEN (Z.min (gripper p) DebugCode.GRIPPER_CLOSE)
      /\ DebugCode.BASE_MIN <= b <= DebugCode.BASE_MAX
      /\ DebugCode.SHOULDER_MIN <= s <= DebugCode.SHOULDER_MAX
      /\ DebugCode.ELBOW_MIN <= e <= DebugCode.ELBOW_MAX
      /\ DebugCode.WRIST_MIN <= w <= DebugCode.WRIST_MAX
      /\ Z.min DebugCode.GRIPPER_OPEN DebugCode.GRIPPER_CLOSE <= g
         <= Z.max DebugCode.GRIPPER_OPEN DebugCode.GRIPPER_CLOSE).
Proof.
  split.
  - exists (clampAngle (base p) MainCode.BASE_MIN MainCode.BASE_MAX),
      (clampAngle (shoulder p) MainCode.SHOULDER_MIN MainCode.SHOULDER_MAX),
      (clampAngle (elbow p) MainCode.ELBOW_MIN MainCode.ELBOW_MAX),
      (clampAngle (wrist p) MainCode.WRIST_MIN MainCode.WRIST_MAX).
    split; [reflexivity|].
    pose proof (clampAngle_spec (base p) MainCode.BASE_MIN MainCode.BASE_MAX
                  ltac:(discriminate)) as [E1 R1].
    pose proof (clampAngle_spec (shoulder p) MainCode.SHOULDER_MIN
                  MainCode.SHOULDER_MAX ltac:(discriminate)) as [E2 R2].
    pose proof (clampAngle_spec (elbow p) MainCode.ELBOW_MIN MainCode.ELBOW_MAX
                  ltac:(discriminate)) as [E3 R3].
    pose proof (clampAngle_spec (wrist p) MainCode.WRIST_MIN MainCode.WRIST_MAX
                  ltac:(discriminate)) as [E4 R4].
    repeat (split; [assumption|]). assumption.
  - exists (clampAngle (base p) DebugCode.BASE_MIN DebugCode.BASE_MAX),
      (clampAngle (shoulder p) DebugCode.SHOULDER_MIN DebugCode.SHOULDER_MAX),
      (clampAngle (elbow p) DebugCode.ELBOW_MIN DebugCode.ELBOW_MAX),
      (clampAngle (wrist p) DebugCode.WRIST_MIN DebugCode.WRIST_MAX),
      (clampAngle (gripper p) DebugCode.GRIPPER_OPEN DebugCode.GRIPPER_CLOSE).
    split; [reflexivity|].
    pose proof (clampAngle_spec (base p) DebugCode.BASE_MIN DebugCode.BASE_MAX
                  ltac:(discriminate)) as [E1 R1].
    pose proof (clampAngle_spec (shoulder p) DebugCode.SHOULDER_MIN
                  DebugCode.SHOULDER_MAX ltac:(discriminate)) as [E2 R2].
    pose proof (clampAngle_spec (elbow p) DebugCode.ELBOW_MIN DebugCode.ELBOW_MAX
                  ltac:(discriminate)) as [E3 R3].
    pose proof (clampAngle_spec (wrist p) DebugCode.WRIST_MIN DebugCode.WRIST_MAX
                  ltac:(discriminate)) as [E4 R4].
    pose proof (clampAngle_spec (gripper p) DebugCode.GRIPPER_OPEN
                  DebugCode.GRIPPER_CLOSE ltac:(discriminate)) as [E5 R5].
    pose proof (clampAngle_between (gripper p) DebugCode.GRIPPER_OPEN
                  DebugCode.GRIPPER_CLOSE) as R6.
    split; [assumption|]. split; [assumption|]. split; [assumption|].
    split; [assumption|]. split; [reflexivity|].
    repeat (split; [assumption|]). assumption.
Qed.

(** C4.  For a positive step size [moveToPose] takes as [maxDelta] the
    largest of the five absolute joint differences and runs all five
    joints through the same [max(1, maxDelta / stepSize)] steps, the
    quotient rounded down; a difference of 100 with step size 2 gives 50
    steps.  Where no difference overflows [int], these are the
    differences and the maximum over the integers. *)
Theorem moveToPose_shared_step_count
    (start target : Pose) (speedDelayMs stepSize : Z) (events : list event) :
  0 < stepSize ->
  maxDelta (deltas start target) =
    Z.max (Int32.abs (Int32.sub (base target) (base start)))
      (Z.max (Int32.abs (Int32.sub (shoulder target) (shoulder start)))
         (Z.max (Int32.abs (Int32.sub (elbow target) (elbow start)))
            (Z.max (Int32.abs (Int32.sub (wrist target) (wrist start)))
                   (Int32.abs (Int32.sub (gripper target) (gripper start))))))
  /\ (exists steps,
        stepCount (maxDelta (deltas start target)) stepSize = Some steps
        /\ steps = Z.max 1 (Z.quot (maxDelta (deltas start target)) stepSize)
        /\ (forall fuel st',
              MainCode.moveToPose fuel target speedDelayMs stepSize
                (mkState start events) = Done st' ->
              trace st' = events ++
                flat_map (fun i =>
                            MainCode.servoWrites
                              (MainCode.intermediate start (deltas start target) i steps)
                            ++ [Delay speedDelayMs])
                         (zseq 1 (Z.to_nat steps))
                ++ [StoreCurrentPose target] ++ MainCode.servoWrites target)
        /\ (forall fuel st',
              DebugCode.moveToPose fuel target speedDelayMs stepSize
                (mkState start events) = Done st' ->
              trace st' = events ++
                flat_map (fun i =>
                            DebugCode.servoWrites
                              (DebugCode.intermediate start (deltas start target) i steps)
                            ++ [Delay speedDelayMs])
                         (zseq 1 (Z.to_nat steps))
                ++ [StoreCurrentPose target] ++ DebugCode.servoWrites target))
  /\ (no_overflow start target ->
      maxDelta (deltas start target) = max_abs_difference start target
      /\ stepCount (maxDelta (deltas start target)) stepSize
         = Some (Z.max 1 (max_abs_difference start target / stepSize))).
Proof.
  intros Hs.
  pose proof (maxDelta_in_range start target) as Hr.
  pose proof (stepCount_positive_quot _ stepSize Hr Hs) as Hc.
  split; [|split].
  - unfold maxDelta, deltas. cbn [base shoulder elbow wrist gripper].
    apply max5_spec.
  - eexists. split; [exact Hc|]. split; [reflexivity|]. split.
    + intros fuel st' H. apply moveToPose_done in H.
      destruct H as [n [Hn [_ ->]]]. cbn [currentPose trace] in *.
      rewrite Hc in Hn. injection Hn as <-. reflexivity.
    + intros fuel st' H. apply moveToPose_done in H.
      destruct H as [n [Hn [_ ->]]]. cbn [currentPose trace] in *.
      rewrite Hc in Hn. injection Hn as <-. reflexivity.
  - intros Hfit.
    pose proof (maxDelta_exact start target Hfit) as Hmax.
    pose proof (max_abs_difference_bounds start target Hfit) as Hb.
    split; [exact Hmax|]. rewrite Hmax. apply stepCount_positive; assumption.
Qed.

Lemma moveToPose_shared_step_count_witness :
  let start := mkPose 0 0 0 0 0 in
  let target := mkPose 100 0 0 0 0 in
  0 < 2
  /\ no_overflow start target
  /\ max_abs_difference start target = 100
  /\ maxDelta (deltas start target) = 100
  /\ stepCount (maxDelta (deltas start target)) 2 = Some (Z.max 1 (100 / 2))
  /\ Z.max 1 (100 / 2) = 50.
Proof.
  intros start target.
  assert (Hfit : no_overflow start target).
  { intros s. destruct s; vm_compute; split; congruence || reflexivity. }
  pose proof (moveToPose_shared_step_count start target 10 2 [] ltac:(lia))
    as [_ [_ Hmath]].
  destruct (Hmath Hfit) as [Hm Hc].
  split; [lia|]. split; [exact Hfit|]. split; [reflexivity|].
  split; [exact Hm|]. split; [exact Hc|]. reflexivity.
Defined.

(** C5 (as claimed, refuted).  [Main_Code.ino] truncates after adding
    the start value: from base 90 towards 85 the first of two steps
    holds 87, not 90 + trunc(-2.5) = 88.  The debug sketch truncates the
    product, but the product is computed in [float]: from shoulder 0
    towards 44, step 13 of 22 holds 25, not 26. *)
Lemma intermediate_differs_from_exact_formula :
  stepCount (maxDelta (deltas MainCode.homePose (mkPose 85 90 90 90 90))) 2 = Some 2
  /\ base (MainCode.intermediate MainCode.homePose
             (deltas MainCode.homePose (mkPose 85 90 90 90 90)) 1 2) = 87
  /\ exact_lerp 90 (-5) 1 2 = 88
  /\ stepCount (maxDelta (deltas DebugCode.homePose (mkPose 180 44 100 0 0))) 2
     = Some 22
  /\ shoulder (DebugCode.intermediate DebugCode.homePose
                 (deltas DebugCode.homePose (mkPose 180 44 100 0 0)) 13 22) = 25
  /\ exact_lerp 0 44 13 22 = 26
  /\ Float32.trunc
       (Binary32Reference.value
          (Binary32Reference.mul (Binary32Reference.of_int 44)
             (Binary32Reference.div (Binary32Reference.of_int 13)
                (Binary32Reference.of_int 22)))) = 25.
Proof.
  split; [reflexivity|]. split; [vm_compute; reflexivity|].
  split; [reflexivity|]. split; [reflexivity|].
  split; [vm_compute; reflexivity|]. split; [reflexivity|].
  vm_compute. reflexivity.
Qed.

(** C5 (amended).  A move that returns has handed to [writePose], for
    i = 1..steps in this order, the pose whose fields are computed in
    [float] with t = (float)i / (float)steps: in the debug sketch
    start + (int)((float)delta * t), the rounded product truncated
    toward zero; in [Main_Code.ino] (int)((float)start + (float)delta * t),
    the rounded sum truncated toward zero. *)
Theorem intermediate_poses_of_a_move
    (fuel : nat) (target : Pose) (speedDelayMs stepSize : Z) (st st' : state) :
  (MainCode.moveToPose fuel target speedDelayMs stepSize st = Done st' ->
   exists steps,
     stepCount (maxDelta (deltas (currentPose st) target)) stepSize = Some steps
     /\ trace st' =
        trace st ++
        flat_map (fun i => MainCode.servoWrites
                             (MainCode.intermediate (currentPose st)
                                (deltas (currentPose st) target) i steps)
                           ++ [Delay speedDelayMs])
                 (zseq 1 (Z.to_nat steps))
        ++ [StoreCurrentPose target] ++ MainCode.servoWrites target)
  /\ (DebugCode.moveToPose fuel target speedDelayMs stepSize st = Done st' ->
   exists steps,
     stepCount (maxDelta (deltas (currentPose st) target)) stepSize = Some steps
     /\ trace st' =
        trace st ++
        flat_map (fun i => DebugCode.servoWrites
                             (DebugCode.intermediate (currentPose st)
                                (deltas (currentPose st) target) i steps)
                           ++ [Delay speedDelayMs])
                 (zseq 1 (Z.to_nat steps))
        ++ [StoreCurrentPose target] ++ DebugCode.servoWrites target)
  /\ (forall (start delta : Pose) (i steps : Z) (j : Servo),
        joint j (MainCode.intermediate start delta i steps) =
          Float32.to_int
            (Float32.add (Float32.of_int (joint j start))
               (Float32.mul (Float32.of_int (joint j delta))
                  (Float32.div (Float32.of_int i) (Float32.of_int steps))))
        /\ joint j (DebugCode.intermediate start delta i steps) =
          Int32.add (joint j start)
            (Float32.to_int
               (Float32.mul (Float32.of_int (joint j delta))
                  (Float32.div (Float32.of_int i) (Float32.of_int steps))))).
Proof.
  split; [|split].
  - intros H. apply moveToPose_done in H. destruct H as [steps [Hc [_ ->]]].
    exists steps. split; [exact Hc|]. reflexivity.
  - intros H. apply moveToPose_done in H. destruct H as [steps [Hc [_ ->]]].
    exists steps. split; [exact Hc|]. reflexivity.
  - intros start delta i steps j. split; destruct j; reflexivity.
Qed.

Lemma intermediate_poses_of_a_move_witness :
  let st := mkState MainCode.homePose [] in
  let target := mkPose 85 90 90 90 90 in
  exists st',
    MainCode.moveToPose 2 target 10 2 st = Done st'
    /\ exists steps,
         stepCount (maxDelta (deltas (currentPose st) target)) 2 = Some steps
         /\ trace st' =
            trace st ++
            flat_map (fun i => MainCode.servoWrites
                                 (MainCode.intermediate (currentPose st)
                                    (deltas (currentPose st) target) i steps)
                               ++ [Delay 10])
                     (zseq 1 (Z.to_nat steps))
            ++ [StoreCurrentPose target] ++ MainCode.servoWrites target.
Proof.
  intros st target.
  destruct (MainCode.moveToPose 2 target 10 2 st) as [st'| |] eqn:E;
    try (vm_compute in E; discriminate).
  exists st'. split; [reflexivity|].
  exact (proj1 (intermediate_poses_of_a_move 2 target 10 2 st st') E).
Defined.

(** C6 (as claimed, refuted).  Moving to the pose the arm is already in
    calls [writePose] twice, not once: the forced single loop step and
    then the final write.  (And in [Main_Code.ino] a gripper value above
    2^24 goes through [float] in the loop step: 16777217 is first sent
    as 16777216.) *)
Lemma move_to_current_pose_writes_twice :
  gripper (MainCode.intermediate (mkPose 90 90 90 90 16777217)
             (deltas (mkPose 90 90 90 90 16777217) (mkPose 90 90 90 90 16777217))
             1 1) = 16777216
  /\ exists st',
    MainCode.moveToPose 1 MainCode.homePose 10 2 (mkState MainCode.homePose [])
      = Done st'
    /\ trace st' =
         MainCode.servoWrites MainCode.homePose
         ++ [Delay 10; StoreCurrentPose MainCode.homePose]
         ++ MainCode.servoWrites MainCode.homePose
    /\ count (is_write_to baseServo) (trace st') = 2
    /\ count (is_write_to baseServo) (trace st') <> 1.
Proof.
  split; [vm_compute; reflexivity|].
  eexists. split; [vm_compute; reflexivity|].
  split; [reflexivity|]. split; [reflexivity|]. discriminate.
Qed.

(** C6 (amended).  A move whose target is the current pose takes one
    loop step and the final write: two [writePose] calls with the
    current pose and one delay between them, so every servo is sent the
    same angle twice and [currentPose] keeps its value.  In
    [Main_Code.ino] this needs joint values that [float] represents
    exactly (magnitude at most 2^24). *)
Theorem move_to_current_pose_repeats_it
    (speedDelayMs stepSize : Z) (st : state) :
  stepSize <> 0 ->
  ((forall s, - 2 ^ 24 <= joint s (currentPose st) <= 2 ^ 24) ->
   forall fuel, (1 <= fuel)%nat ->
     MainCode.moveToPose fuel (currentPose st) speedDelayMs stepSize st =
     Done (mkState (currentPose st)
             (trace st
              ++ MainCode.servoWrites (currentPose st)
              ++ [Delay speedDelayMs; StoreCurrentPose (currentPose st)]
              ++ MainCode.servoWrites (currentPose st))))
  /\ ((forall s, Int32.in_range (joint s (currentPose st))) ->
   forall fuel, (1 <= fuel)%nat ->
     DebugCode.moveToPose fuel (currentPose st) speedDelayMs stepSize st =
     Done (mkState (currentPose st)
             (trace st
              ++ DebugCode.servoWrites (currentPose st)
              ++ [Delay speedDelayMs; StoreCurrentPose (currentPose st)]
              ++ DebugCode.servoWrites (currentPose st)))).
Proof.
  intros Hnz.
  assert (Hc : stepCount (maxDelta (deltas (currentPose st) (currentPose st)))
                 stepSize = Some 1).
  { rewrite deltas_same. change (maxDelta (mkPose 0 0 0 0 0)) with 0.
    apply stepCount_at_rest, Hnz. }
  split.
  - intros Hsmall fuel Hfuel. unfold MainCode.moveToPose.
    rewrite (moveToPose_complete _ _ fuel _ speedDelayMs stepSize 1 st Hc);
      [|reflexivity|cbn; lia].
    unfold move_events, loop_events, step_events.
    change (Z.to_nat 1) with 1%nat. cbn [zseq flat_map].
    rewrite deltas_same.
    change (intermediate lerp_implicit) with MainCode.intermediate.
    rewrite (main_intermediate_rest _ 1 1 Hsmall).
    rewrite app_nil_r, <- !app_assoc. reflexivity.
  - intros Hrange fuel Hfuel. unfold DebugCode.moveToPose.
    rewrite (moveToPose_complete _ _ fuel _ speedDelayMs stepSize 1 st Hc);
      [|reflexivity|cbn; lia].
    unfold move_events, loop_events, step_events.
    change (Z.to_nat 1) with 1%nat. cbn [zseq flat_map].
    rewrite deltas_same.
    change (intermediate lerp_cast) with DebugCode.intermediate.
    rewrite (debug_intermediate_rest _ 1 1 Hrange).
    rewrite app_nil_r, <- !app_assoc. reflexivity.
Qed.

Lemma move_to_current_pose_repeats_it_witness :
  let st := mkState (mkPose 60 80 120 80 40) [] in
  3 <> 0
  /\ (forall s, - 2 ^ 24 <= joint s (currentPose st) <= 2 ^ 24)
  /\ (1 <= 1)%nat
  /\ MainCode.moveToPose 1 (currentPose st) 10 3 st =
     Done (mkState (currentPose st)
             (trace st
              ++ MainCode.servoWrites (currentPose st)
              ++ [Delay 10; StoreCurrentPose (currentPose st)]
              ++ MainCode.servoWrites (currentPose st))).
Proof.
  intros st.
  assert (Hsmall : forall s, - 2 ^ 24 <= joint s (currentPose st) <= 2 ^ 24).
  { intros s. destruct s; vm_compute; split; congruence. }
  split; [lia|]. split; [exact Hsmall|]. split; [lia|].
  apply (proj1 (move_to_current_pose_repeats_it 10 3 st ltac:(lia)) Hsmall).
  lia.
Defined.

(** C7.  A move that computed [steps] steps and returned has called
    [writePose] [steps + 1] times (every servo got that many writes),
    has waited [steps] times, and has stored [currentPose] once: after
    the last delay and before the final write.  Such a move returns
    for every positive step size, except when [steps] is [INT_MAX]. *)
Theorem moveToPose_side_effects
    (fuel : nat) (target : Pose) (speedDelayMs stepSize : Z) (st st' : state) :
  (MainCode.moveToPose fuel target speedDelayMs stepSize st = Done st' ->
   exists steps loop,
     stepCount (maxDelta (deltas (currentPose st) target)) stepSize = Some steps
     /\ trace st' = trace st ++ loop
                      ++ [StoreCurrentPose target] ++ MainCode.servoWrites target
     /\ (forall s, count (is_write_to s) (loop ++ MainCode.servoWrites target)
                   = steps + 1)
     /\ count is_delay loop = steps
     /\ count is_store loop = 0)
  /\ (DebugCode.moveToPose fuel target speedDelayMs stepSize st = Done st' ->
   exists steps loop,
     stepCount (maxDelta (deltas (currentPose st) target)) stepSize = Some steps
     /\ trace st' = trace st ++ loop
                      ++ [StoreCurrentPose target] ++ DebugCode.servoWrites target
     /\ (forall s, count (is_write_to s) (loop ++ DebugCode.servoWrites target)
                   = steps + 1)
     /\ count is_delay loop = steps
     /\ count is_store loop = 0)
  /\ (0 < stepSize ->
      (stepSize = 1 ->
       maxDelta (deltas (currentPose st) target) <> Int32.INT_MAX) ->
      (exists st1, terminates
         (fun n => MainCode.moveToPose n target speedDelayMs stepSize st) st1)
      /\ (exists st1, terminates
         (fun n => DebugCode.moveToPose n target speedDelayMs stepSize st) st1)).
Proof.
  split; [|split].
  - intros H. apply moveToPose_done in H. destruct H as [steps [Hc [Hlt ->]]].
    pose proof (stepCount_bounds _ _ _ Hc) as Hb.
    exists steps.
    exists (loop_events MainCode.servoWrites lerp_implicit (currentPose st)
              (deltas (currentPose st) target) steps speedDelayMs 1 (Z.to_nat steps)).
    destruct (loop_events_counts MainCode.servoWrites lerp_implicit
                main_writes_once (fun p => proj1 (main_writes_only p))
                (fun p => proj2 (main_writes_only p))
                (currentPose st) (deltas (currentPose st) target)
                steps speedDelayMs 1 (Z.to_nat steps)) as [Hw [Hd Hs]].
    split; [exact Hc|]. split; [reflexivity|]. split; [|split].
    + intros s. rewrite count_app, Hw, main_writes_once. lia.
    + rewrite Hd. lia.
    + exact Hs.
  - intros H. apply moveToPose_done in H. destruct H as [steps [Hc [Hlt ->]]].
    pose proof (stepCount_bounds _ _ _ Hc) as Hb.
    exists steps.
    exists (loop_events DebugCode.servoWrites lerp_cast (currentPose st)
              (deltas (currentPose st) target) steps speedDelayMs 1 (Z.to_nat steps)).
    destruct (loop_events_counts DebugCode.servoWrites lerp_cast
                debug_writes_once (fun p => proj1 (debug_writes_only p))
                (fun p => proj2 (debug_writes_only p))
                (currentPose st) (deltas (currentPose st) target)
                steps speedDelayMs 1 (Z.to_nat steps)) as [Hw [Hd Hs]].
    split; [exact Hc|]. split; [reflexivity|]. split; [|split].
    + intros s. rewrite count_app, Hw, debug_writes_once. lia.
    + rewrite Hd. lia.
    + exact Hs.
  - intros Hs Hc. split; apply moveToPose_terminates; assumption.
Qed.

Lemma moveToPose_side_effects_witness :
  let st := mkState DebugCode.homePose [] in
  let target := mkPose 174 0 100 0 0 in
  exists st',
    DebugCode.moveToPose 3 target 8 2 st = Done st'
    /\ exists steps loop,
         stepCount (maxDelta (deltas (currentPose st) target)) 2 = Some steps
         /\ trace st' = trace st ++ loop
                          ++ [StoreCurrentPose target] ++ DebugCode.servoWrites target
         /\ (forall s, count (is_write_to s) (loop ++ DebugCode.servoWrites target)
                       = steps + 1)
         /\ count is_delay loop = steps
         /\ count is_store loop = 0.
Proof.
  intros st target.
  destruct (DebugCode.moveToPose 3 target 8 2 st) as [st'| |] eqn:E;
    try (vm_compute in E; discriminate).
  exists st'. split; [reflexivity|].
  exact (proj1 (proj2 (moveToPose_side_effects 3 target 8 2 st st')) E).
Defined.

(** C8 (as claimed, refuted).  Whether a line is accepted depends on
    what [sscanf] can convert, not on the number of words.  Six numbers
    are accepted and the sixth ignored; four words are accepted when one
    of them scans as two numbers. *)
Lemma debug_line_with_wrong_word_count_moves :
  five_integers "1 2 3 4 5 6" = false
  /\ (exists st',
        DebugCode.debugMove 2 "1 2 3 4 5 6" (mkState (mkPose 0 0 0 0 0) [])
          = Done st'
        /\ currentPose st' = mkPose 1 2 3 4 5
        /\ count (is_write_to baseServo) (trace st') = 3)
  /\ five_integers "12-5 3 4 5" = false
  /\ (exists st',
        DebugCode.debugMove 6 "12-5 3 4 5" (mkState (mkPose 0 0 0 0 0) [])
          = Done st'
        /\ currentPose st' = mkPose 12 (-5) 3 4 5).
Proof.
  split; [reflexivity|]. split.
  - eexists. split; [vm_compute; reflexivity|]. split; reflexivity.
  - split; [reflexivity|].
    eexists. split; [vm_compute; reflexivity|]. reflexivity.
Qed.

(** C8 (amended).  When [sscanf] converts fewer than five leading
    integers the handler prints the two format-error lines and returns:
    no servo is written, nothing is delayed and [currentPose] is not
    stored.  This covers every line with fewer than five decimal digits.
    A line whose first five conversions succeed is executed as a move to
    those five values, whatever follows them. *)
Theorem debugMove_format_error (fuel : nat) (line : string) (st : state) :
  (DebugCode.sscanf_count (DebugCode.trim (list_ascii_of_string line)) <> 5 ->
   DebugCode.debugMove fuel line st =
     Done (mkState (currentPose st) (trace st ++ DebugCode.format_error)))
  /\ ((digit_count (list_ascii_of_string line) < 5)%nat ->
   DebugCode.debugMove fuel line st =
     Done (mkState (currentPose st) (trace st ++ DebugCode.format_error)))
  /\ (forall s, count (is_write_to s) DebugCode.format_error = 0)
  /\ count is_delay DebugCode.format_error = 0
  /\ count is_store DebugCode.format_error = 0
  /\ (DebugCode.sscanf_count (DebugCode.trim (list_ascii_of_string line)) = 5 ->
      exists b s e w g,
        DebugCode.scan_ints 5 (DebugCode.trim (list_ascii_of_string line))
          = [b; s; e; w; g]
        /\ DebugCode.debugMove fuel line st =
           DebugCode.moveToPose fuel (mkPose b s e w g) 8 2
             (emit (DebugCode.debug_report b s e w g) st)).
Proof.
  split; [|split; [|split; [|split; [|split]]]].
  - intros H. apply debugMove_rejects, H.
  - intros H. apply debugMove_rejects.
    pose proof (sscanf_count_le (DebugCode.trim (list_ascii_of_string line))).
    pose proof (trim_count (list_ascii_of_string line)). lia.
  - intros s. destruct s; reflexivity.
  - reflexivity.
  - reflexivity.
  - intros H. rewrite (debugMove_accepts fuel line st H).
    unfold DebugCode.sscanf_count in H.
    pose proof (scan_ints_count 5 (DebugCode.trim (list_ascii_of_string line))).
    destruct (DebugCode.scan_ints 5 (DebugCode.trim (list_ascii_of_string line)))
      as [|b [|s [|e [|w [|g [|x r]]]]]] eqn:E;
      try (destruct (DebugCode.skip_space _); cbn in H; lia);
      try (cbn in H; lia).
    exists b, s, e, w, g. split; reflexivity.
Qed.

Lemma debugMove_format_error_witness :
  let st := mkState DebugCode.homePose [] in
  (digit_count (list_ascii_of_string "90 80") < 5)%nat
  /\ DebugCode.debugMove 10 "90 80" st =
       Done (mkState (currentPose st) (trace st ++ DebugCode.format_error))
  /\ DebugCode.sscanf_count
       (DebugCode.trim (list_ascii_of_string "90 80 x 45 10")) <> 5
  /\ DebugCode.debugMove 10 "90 80 x 45 10" st =
       Done (mkState (currentPose st) (trace st ++ DebugCode.format_error)).
Proof.
  intros st.
  assert (H1 : (digit_count (list_ascii_of_string "90 80") < 5)%nat).
  { vm_compute. lia. }
  assert (H2 : DebugCode.sscanf_count
                 (DebugCode.trim (list_ascii_of_string "90 80 x 45 10")) <> 5).
  { vm_compute. congruence. }
  split; [exact H1|]. split.
  - exact (proj1 (proj2 (debugMove_format_error 10 "90 80" st)) H1).
  - split; [exact H2|].
    exact (proj1 (debugMove_format_error 10 "90 80 x 45 10" st) H2).
Defined.

(** C9.  [openGripper] and [closeGripper] move to the current pose with
    only the gripper replaced by the configured open (close) angle; the
    move always returns, and then base, shoulder, elbow and wrist of
    [currentPose] are as before and the gripper is at that angle. *)
Theorem gripper_helpers_change_gripper_only (speedDelayMs : Z) (st : state) :
  (exists st', terminates (fun fuel => MainCode.openGripper fuel speedDelayMs st) st')
  /\ (exists st', terminates (fun fuel => MainCode.closeGripper fuel speedDelayMs st) st')
  /\ (exists st', terminates (fun fuel => DebugCode.openGripper fuel speedDelayMs st) st')
  /\ (exists st', terminates (fun fuel => DebugCode.closeGripper fuel speedDelayMs st) st')
  /\ (forall fuel st',
        MainCode.openGripper fuel speedDelayMs st = Done st' ->
        only_gripper_changed (currentPose st) (currentPose st') MainCode.GRIPPER_OPEN)
  /\ (forall fuel st',
        MainCode.closeGripper fuel speedDelayMs st = Done st' ->
        only_gripper_changed (currentPose st) (currentPose st') MainCode.GRIPPER_CLOSE)
  /\ (forall fuel st',
        DebugCode.openGripper fuel speedDelayMs st = Done st' ->
        only_gripper_changed (currentPose st) (currentPose st') DebugCode.GRIPPER_OPEN)
  /\ (forall fuel st',
        DebugCode.closeGripper fuel speedDelayMs st = Done st' ->
        only_gripper_changed (currentPose st) (currentPose st') DebugCode.GRIPPER_CLOSE)
  /\ (forall fuel,
        MainCode.openGripper fuel speedDelayMs st =
          MainCode.moveToPose fuel
            (with_gripper (currentPose st) MainCode.GRIPPER_OPEN) speedDelayMs 2 st
        /\ MainCode.closeGripper fuel speedDelayMs st =
          MainCode.moveToPose fuel
            (with_gripper (currentPose st) MainCode.GRIPPER_CLOSE) speedDelayMs 2 st
        /\ DebugCode.openGripper fuel speedDelayMs st =
          DebugCode.moveToPose fuel
            (with_gripper (currentPose st) DebugCode.GRIPPER_OPEN) speedDelayMs 2 st
        /\ DebugCode.closeGripper fuel speedDelayMs st =
          DebugCode.moveToPose fuel
            (with_gripper (currentPose st) DebugCode.GRIPPER_CLOSE) speedDelayMs 2 st).
Proof.
  pose proof (gripper_move MainCode.servoWrites lerp_implicit
                speedDelayMs MainCode.GRIPPER_OPEN st) as [s1 [H1 _]].
  pose proof (gripper_move MainCode.servoWrites lerp_implicit
                speedDelayMs MainCode.GRIPPER_CLOSE st) as [s2 [H2 _]].
  pose proof (gripper_move DebugCode.servoWrites lerp_cast
                speedDelayMs DebugCode.GRIPPER_OPEN st) as [s3 [H3 _]].
  pose proof (gripper_move DebugCode.servoWrites lerp_cast
                speedDelayMs DebugCode.GRIPPER_CLOSE st) as [s4 [H4 _]].
  split; [exists s1; exact H1|]. split; [exists s2; exact H2|].
  split; [exists s3; exact H3|]. split; [exists s4; exact H4|].
  split; [intros fuel st'; exact (gripper_move_done MainCode.servoWrites
            lerp_implicit fuel speedDelayMs MainCode.GRIPPER_OPEN st st')|].
  split; [intros fuel st'; exact (gripper_move_done MainCode.servoWrites
            lerp_implicit fuel speedDelayMs MainCode.GRIPPER_CLOSE st st')|].
  split; [intros fuel st'; exact (gripper_move_done DebugCode.servoWrites
            lerp_cast fuel speedDelayMs DebugCode.GRIPPER_OPEN st st')|].
  split; [intros fuel st'; exact (gripper_move_done DebugCode.servoWrites
            lerp_cast fuel speedDelayMs DebugCode.GRIPPER_CLOSE st st')|].
  intros fuel. split; [|split; [|split]]; reflexivity.
Qed.

Lemma gripper_helpers_change_gripper_only_witness :
  let st := mkState (mkPose 60 80 120 80 90) [] in
  exists st',
    MainCode.closeGripper 25 10 st = Done st'
    /\ only_gripper_changed (currentPose st) (currentPose st') 40.
Proof.
  intros st.
  destruct (MainCode.closeGripper 25 10 st) as [st'| |] eqn:E;
    try (vm_compute in E; discriminate).
  exists st'. split; [reflexivity|].
  pose proof (gripper_helpers_change_gripper_only 10 st) as H.
  exact (proj1 (proj2 (proj2 (proj2 (proj2 (proj2 H))))) 25%nat st' E).
Defined.

(** C10 (as claimed, refuted).  Differences above 2^24 are rounded when
    converted to [float]: from 0 to 16777219 with the default step size
    the last loop step holds 16777220, beyond the target. *)
Lemma interpolation_overshoots_large_target :
  let start := mkPose 0 0 0 0 0 in
  let target := mkPose 16777219 0 0 0 0 in
  stepCount (maxDelta (deltas start target)) 2 = Some 8388609
  /\ base (DebugCode.intermediate start (deltas start target) 8388609 8388609)
     = 16777220
  /\ base (MainCode.intermediate start (deltas start target) 8388609 8388609)
     = 16777220
  /\ Binary32Reference.value (Binary32Reference.of_int 16777219) = 16777220%Q
  /\ ~ (base (DebugCode.intermediate start (deltas start target) 8388609 8388609)
        <= base target).
Proof.
  cbv zeta. split; [reflexivity|]. split; [vm_compute; reflexivity|].
  split; [vm_compute; reflexivity|]. split; [vm_compute; reflexivity|].
  assert (E : base (DebugCode.intermediate (mkPose 0 0 0 0 0)
                      (deltas (mkPose 0 0 0 0 0) (mkPose 16777219 0 0 0 0))
                      8388609 8388609) = 16777220) by (vm_compute; reflexivity).
  rewrite E. cbn [base]. lia.
Qed.

(** C10 (amended).  For start and target poses whose joint values have
    magnitude at most 2^23, and any step count, each joint's loop values
    move in one direction from step to step and stay between start and
    target: they never pass the target. *)
Theorem interpolation_is_monotone
    (start target : Pose) (steps i i' : Z) (j : Servo) :
  small_pose start -> small_pose target ->
  1 <= i -> i <= i' -> i' <= steps ->
  (joint j start <= joint j target ->
   joint j start <= joint j (MainCode.intermediate start (deltas start target) i steps)
   /\ joint j (MainCode.intermediate start (deltas start target) i steps)
      <= joint j (MainCode.intermediate start (deltas start target) i' steps)
   /\ joint j (MainCode.intermediate start (deltas start target) i' steps)
      <= joint j target
   /\ joint j start <= joint j (DebugCode.intermediate start (deltas start target) i steps)
   /\ joint j (DebugCode.intermediate start (deltas start target) i steps)
      <= joint j (DebugCode.intermediate start (deltas start target) i' steps)
   /\ joint j (DebugCode.intermediate start (deltas start target) i' steps)
      <= joint j target)
  /\ (joint j target <= joint j start ->
   joint j target <= joint j (MainCode.intermediate start (deltas start target) i' steps)
   /\ joint j (MainCode.intermediate start (deltas start target) i' steps)
      <= joint j (MainCode.intermediate start (deltas start target) i steps)
   /\ joint j (MainCode.intermediate start (deltas start target) i steps)
      <= joint j start
   /\ joint j target <= joint j (DebugCode.intermediate start (deltas start target) i' steps)
   /\ joint j (DebugCode.intermediate start (deltas start target) i' steps)
      <= joint j (DebugCode.intermediate start (deltas start target) i steps)
   /\ joint j (DebugCode.intermediate start (deltas start target) i steps)
      <= joint j start).
Proof.
  intros Hstart Htarget Hi Hii Hsteps.
  destruct (small_pose_difference start target Hstart Htarget) as [Hfit Hdiff].
  pose proof (deltas_exact start target Hfit j) as Hd.
  specialize (Hdiff j). pose proof (Hstart j) as Hs. pose proof (Htarget j) as Ht.
  assert (H1 : 1 <= steps) by lia.
  pose proof (fraction_nonneg i steps H1 ltac:(lia)) as T0.
  pose proof (fraction_mono i i' steps H1 Hii) as T1.
  pose proof (fraction_le_1 i' steps H1 Hsteps) as T2.
  unfold MainCode.intermediate, DebugCode.intermediate.
  rewrite !joint_intermediate, Hd.
  set (s := joint j start) in *. set (g := joint j target) in *.
  assert (Rs : Int32.in_range s) by (apply small_in_range; lia).
  assert (Rg : Int32.in_range (s + (g - s))).
  { replace (s + (g - s)) with g by ring. apply small_in_range. lia. }
  assert (Ss : - 2 ^ 24 <= s <= 2 ^ 24) by lia.
  assert (Sg : - 2 ^ 24 <= s + (g - s) <= 2 ^ 24).
  { replace (s + (g - s)) with g by ring. lia. }
  split; intros Hdir.
  - destruct (lerp_implicit_up s (g - s) _ _ Ss Sg ltac:(lia) T0 T1 T2)
      as [A1 [A2 A3]].
    destruct (lerp_cast_up s (g - s) _ _ Rs Rg ltac:(lia) T0 T1 T2)
      as [B1 [B2 B3]].
    replace (s + (g - s)) with g in * by ring.
    repeat (split; [assumption|]). assumption.
  - destruct (lerp_implicit_down s (g - s) _ _ Ss Sg ltac:(lia) T0 T1 T2)
      as [A1 [A2 A3]].
    destruct (lerp_cast_down s (g - s) _ _ Rs Rg ltac:(lia) T0 T1 T2)
      as [B1 [B2 B3]].
    replace (s + (g - s)) with g in * by ring.
    repeat (split; [assumption|]). assumption.
Qed.

Lemma interpolation_is_monotone_witness :
  let start := mkPose 60 80 120 80 90 in
  let target := mkPose 100 65 105 80 40 in
  small_pose start /\ small_pose target /\ 1 <= 7 /\ 7 <= 8 /\ 8 <= 25
  /\ joint gripperServo target <= joint gripperServo start
  /\ joint gripperServo target
     <= joint gripperServo (MainCode.intermediate start (deltas start target) 8 25)
  /\ joint gripperServo (MainCode.intermediate start (deltas start target) 8 25)
     <= joint gripperServo (MainCode.intermediate start (deltas start target) 7 25)
  /\ joint gripperServo (MainCode.intermediate start (deltas start target) 7 25)
     <= joint gripperServo start.
Proof.
  intros start target.
  assert (Hs : small_pose start).
  { intros s. destruct s; vm_compute; split; congruence. }
  assert (Ht : small_pose target).
  { intros s. destruct s; vm_compute; split; congruence. }
  assert (Hdir : joint gripperServo target <= joint gripperServo start).
  { vm_compute. congruence. }
  split; [exact Hs|]. split; [exact Ht|].
  split; [lia|]. split; [lia|]. split; [lia|]. split; [exact Hdir|].
  destruct (proj2 (interpolation_is_monotone start target 25 7 8 gripperServo
                     Hs Ht ltac:(lia) ltac:(lia) ltac:(lia)) Hdir)
    as [A1 [A2 [A3 _]]].
  split; [exact A1|]. split; [exact A2|exact A3].
Defined.

(** * Further properties of the sketches *)

(** X1.  With [minVal <= maxVal], [clampAngle] leaves an angle inside the
    range as it is, clamping twice is clamping once, and a larger angle
    never gives a smaller result. *)
Theorem clampAngle_is_a_projection (angle angle' minVal maxVal : Z) :
  minVal <= maxVal ->
  (minVal <= angle <= maxVal -> clampAngle angle minVal maxVal = angle)
  /\ clampAngle (clampAngle angle minVal maxVal) minVal maxVal
     = clampAngle angle minVal maxVal
  /\ (angle <= angle' ->
      clampAngle angle minVal maxVal <= clampAngle angle' minVal maxVal).
Proof.
  intros Hb.
  assert (E : forall v, clampAngle v minVal maxVal = Z.max minVal (Z.min v maxVal)).
  { intros v. apply clampAngle_spec, Hb. }
  rewrite !E. split; [|split]; lia.
Qed.

Lemma clampAngle_is_a_projection_witness :
  10 <= 170
  /\ clampAngle 90 10 170 = 90
  /\ clampAngle (clampAngle 200 10 170) 10 170 = clampAngle 200 10 170
  /\ clampAngle (-5) 10 170 <= clampAngle 90 10 170.
Proof.
  split; [lia|]. split; [|split].
  - apply (clampAngle_is_a_projection 90 90 10 170); lia.
  - apply (clampAngle_is_a_projection 200 200 10 170); lia.
  - apply (clampAngle_is_a_projection (-5) 90 10 170); lia.
Defined.

(** X2.  With the bounds the wrong way round, [maxVal < minVal],
    [clampAngle] returns [minVal] for every angle below [minVal] and
    [maxVal] for every other angle; no angle is returned as it is. *)
Theorem clampAngle_with_inverted_bounds (angle minVal maxVal : Z) :
  maxVal < minVal ->
  (angle < minVal -> clampAngle angle minVal maxVal = minVal)
  /\ (minVal <= angle -> clampAngle angle minVal maxVal = maxVal)
  /\ clampAngle angle minVal maxVal <> angle.
Proof.
  intros Hb. unfold clampAngle.
  destruct (Z.ltb_spec angle minVal) as [H|H];
    destruct (Z.gtb_spec angle maxVal) as [H'|H']; repeat split; intros; lia.
Qed.

Lemma clampAngle_with_inverted_bounds_witness :
  MainCode.GRIPPER_CLOSE < MainCode.GRIPPER_OPEN
  /\ clampAngle 60 MainCode.GRIPPER_OPEN MainCode.GRIPPER_CLOSE = 90
  /\ clampAngle 120 MainCode.GRIPPER_OPEN MainCode.GRIPPER_CLOSE = 40.
Proof.
  split; [reflexivity|]. split.
  - apply (clampAngle_with_inverted_bounds 60 MainCode.GRIPPER_OPEN
             MainCode.GRIPPER_CLOSE); reflexivity.
  - apply (clampAngle_with_inverted_bounds 120 MainCode.GRIPPER_OPEN
             MainCode.GRIPPER_CLOSE); [reflexivity|discriminate].
Defined.

(** X3.  [max5] returns the largest of its five arguments: the result is
    one of them and none of them is larger. *)
Theorem max5_is_the_maximum (a b c d e : Z) :
  (a <= max5 a b c d e /\ b <= max5 a b c d e /\ c <= max5 a b c d e
   /\ d <= max5 a b c d e /\ e <= max5 a b c d e)
  /\ (max5 a b c d e = a \/ max5 a b c d e = b \/ max5 a b c d e = c
      \/ max5 a b c d e = d \/ max5 a b c d e = e).
Proof.
  rewrite max5_spec.
  split; [repeat split; lia|].
  destruct (Z.max_spec d e) as [[_ E1]|[_ E1]];
    destruct (Z.max_spec c (Z.max d e)) as [[_ E2]|[_ E2]];
    destruct (Z.max_spec b (Z.max c (Z.max d e))) as [[_ E3]|[_ E3]];
    destruct (Z.max_spec a (Z.max b (Z.max c (Z.max d e)))) as [[_ E4]|[_ E4]];
    lia.
Qed.

(** X4.  Between poses whose values have magnitude at most 2^23, the last
    loop step of a move already holds the target pose, so the final write
    of the target repeats it. *)
Theorem last_step_is_the_target (start target : Pose) (steps : Z) :
  small_pose start -> small_pose target -> 1 <= steps ->
  MainCode.intermediate start (deltas start target) steps steps = target
  /\ DebugCode.intermediate start (deltas start target) steps steps = target.
Proof.
  intros Hs Ht Hn.
  destruct (small_pose_difference start target Hs Ht) as [Hfit Hd].
  pose proof (fraction_full steps Hn) as Hfull.
  split; apply pose_ext; intros j;
    [unfold MainCode.intermediate|unfold DebugCode.intermediate];
    rewrite joint_intermediate, (deltas_exact start target Hfit j).
  - rewrite lerp_implicit_full; [ring|exact Hfull|apply small_joint, Hs|apply Hd|].
    replace (joint j start + (joint j target - joint j start))
      with (joint j target) by ring.
    apply small_joint, Ht.
  - rewrite lerp_cast_full;
      [ring|exact Hfull|apply small_in_range, small_joint, Hs|apply Hd|].
    replace (joint j start + (joint j target - joint j start))
      with (joint j target) by ring.
    apply small_in_range, small_joint, Ht.
Qed.

Lemma last_step_is_the_target_witness :
  let start := MainCode.homePose in
  let target := mkPose 60 70 110 80 40 in
  small_pose start /\ small_pose target /\ 1 <= 16
  /\ MainCode.intermediate start (deltas start target) 16 16 = target
  /\ DebugCode.intermediate start (deltas start target) 16 16 = target.
Proof.
  intros start target.
  assert (Hs : small_pose start) by (intros []; vm_compute; split; discriminate).
  assert (Ht : small_pose target) by (intros []; vm_compute; split; discriminate).
  split; [exact Hs|]. split; [exact Ht|]. split; [lia|].
  apply (last_step_is_the_target start target 16 Hs Ht). lia.
Defined.

(** X5.  A joint whose target value equals its start value is held at
    that value in every loop step of a move, whatever the other joints
    do; in [Main_Code.ino] for values of magnitude at most 2^24, which
    [float] represents exactly. *)
Theorem unmoved_joint_is_held (start target : Pose) (i steps : Z) (j : Servo) :
  joint j target = joint j start ->
  Int32.in_range (joint j start) ->
  joint j (DebugCode.intermediate start (deltas start target) i steps)
    = joint j start
  /\ (- 2 ^ 24 <= joint j start <= 2 ^ 24 ->
      joint j (MainCode.intermediate start (deltas start target) i steps)
        = joint j start).
Proof.
  intros Heq Hr.
  assert (Hd : joint j (deltas start target) = 0).
  { rewrite joint_deltas, Heq. unfold Int32.sub. rewrite Z.sub_diag. reflexivity. }
  split.
  - unfold DebugCode.intermediate. rewrite joint_intermediate, Hd.
    apply lerp_cast_rest, Hr.
  - intros Hs. unfold MainCode.intermediate. rewrite joint_intermediate, Hd.
    apply lerp_implicit_rest, Hs.
Qed.

Lemma unmoved_joint_is_held_witness :
  let start := with_gripper MainCode.t1_grabObj MainCode.GRIPPER_CLOSE in
  let target := MainCode.t1_liftObj in
  joint gripperServo target = joint gripperServo start
  /\ Int32.in_range (joint gripperServo start)
  /\ joint gripperServo (MainCode.intermediate start (deltas start target) 3 10)
     = MainCode.GRIPPER_CLOSE.
Proof.
  intros start target.
  assert (He : joint gripperServo target = joint gripperServo start) by reflexivity.
  assert (Hr : Int32.in_range (joint gripperServo start)).
  { vm_compute. split; discriminate. }
  split; [exact He|]. split; [exact Hr|].
  apply (proj2 (unmoved_joint_is_held start target 3 10 gripperServo He Hr)).
  vm_compute. split; discriminate.
Defined.

(** X6.  Between poses whose joint values have magnitude at most 2^16,
    and for a step size of at least 1, no joint changes by more than
    twice the step size from one loop step to the next, nor from the
    start pose (step 0) to the first loop step. *)
Theorem step_change_is_bounded
    (start target : Pose) (stepSize steps i : Z) (j : Servo) :
  modest_pose start -> modest_pose target -> 1 <= stepSize ->
  stepCount (maxDelta (deltas start target)) stepSize = Some steps ->
  0 <= i < steps ->
  Z.abs (joint j (MainCode.intermediate start (deltas start target) (i + 1) steps)
         - joint j (MainCode.intermediate start (deltas start target) i steps))
    <= 2 * stepSize
  /\ Z.abs (joint j (DebugCode.intermediate start (deltas start target) (i + 1) steps)
            - joint j (DebugCode.intermediate start (deltas start target) i steps))
    <= 2 * stepSize
  /\ MainCode.intermediate start (deltas start target) 0 steps = start
  /\ DebugCode.intermediate start (deltas start target) 0 steps = start.
Proof.
  intros Hs Ht Hstep Hc Hi.
  destruct (small_pose_difference start target (modest_small _ Hs)
              (modest_small _ Ht)) as [Hfit _].
  rewrite (maxDelta_exact start target Hfit) in Hc.
  pose proof (max_abs_difference_bounds start target Hfit) as HD.
  destruct (stepCount_per_step _ _ _ HD Hstep Hc) as [Hn Hper].
  assert (Hall : forall k, Z.abs (joint k target - joint k start) <= 2 ^ 17).
  { intros k. specialize (Hs k). specialize (Ht k). lia. }
  assert (HDm : max_abs_difference start target <= 2 ^ 17).
  { unfold max_abs_difference.
    pose proof (Hall baseServo). pose proof (Hall shoulderServo).
    pose proof (Hall elbowServo). pose proof (Hall wristServo).
    pose proof (Hall gripperServo). cbn [joint] in *. lia. }
  pose proof (max_abs_difference_ge start target j) as Hj.
  pose proof (Hs j) as Sj. specialize (Hall j).
  assert (Hd : - 2 ^ 17 <= joint j target - joint j start <= 2 ^ 17) by lia.
  assert (Hnr : 1 <= steps <= 2 ^ 24) by lia.
  assert (Hb : Z.abs (joint j target - joint j start)
               <= steps * (2 * stepSize - 1)) by lia.
  split; [|split; [|split]].
  - unfold MainCode.intermediate.
    rewrite !joint_intermediate, (deltas_exact start target Hfit j).
    apply (lerp_implicit_step _ _ steps Sj Hd Hnr (2 * stepSize) Hb i Hi).
  - unfold DebugCode.intermediate.
    rewrite !joint_intermediate, (deltas_exact start target Hfit j).
    apply (lerp_cast_step _ _ steps Sj Hd Hnr (2 * stepSize) Hb i Hi).
  - apply pose_ext. intros k. unfold MainCode.intermediate.
    rewrite joint_intermediate, fraction_zero.
    apply lerp_implicit_start. specialize (Hs k). lia.
  - apply pose_ext. intros k. unfold DebugCode.intermediate.
    rewrite joint_intermediate, fraction_zero.
    apply lerp_cast_start, small_in_range. specialize (Hs k). lia.
Qed.

Lemma step_change_is_bounded_witness :
  let start := MainCode.homePose in
  let target := mkPose 95 90 90 90 90 in
  modest_pose start /\ modest_pose target /\ 1 <= 3
  /\ stepCount (maxDelta (deltas start target)) 3 = Some 1
  /\ Z.abs (joint baseServo (MainCode.intermediate start (deltas start target) 1 1)
            - joint baseServo (MainCode.intermediate start (deltas start target) 0 1))
     <= 2 * 3
  /\ joint baseServo (MainCode.intermediate start (deltas start target) 1 1)
     - joint baseServo (MainCode.intermediate start (deltas start target) 0 1) = 5.
Proof.
  intros start target.
  assert (Hs : modest_pose start) by (intros []; vm_compute; split; discriminate).
  assert (Ht : modest_pose target) by (intros []; vm_compute; split; discriminate).
  assert (Hc : stepCount (maxDelta (deltas start target)) 3 = Some 1) by reflexivity.
  split; [exact Hs|]. split; [exact Ht|]. split; [lia|]. split; [exact Hc|].
  split; [|vm_compute; reflexivity].
  exact (proj1 (step_change_is_bounded start target 3 1 0 baseServo Hs Ht
                  ltac:(lia) Hc ltac:(lia))).
Defined.

(** X7.  [resetArm] returns from every state, whatever pose the arm is
    in; it prints its line, makes one move that stores the home pose, and
    leaves [currentPose] at the home pose with every servo last sent the
    home angles (the debug sketch then prints that it is home). *)
Theorem resetArm_always_homes (st : state) :
  (exists st', terminates (fun fuel => MainCode.resetArm fuel st) st')
  /\ (exists st', terminates (fun fuel => DebugCode.resetArm fuel st) st')
  /\ (forall fuel st',
        MainCode.resetArm fuel st = Done st' ->
        currentPose st' = MainCode.homePose
        /\ in_sync MainCode.servoWrites st'
        /\ stores (trace st') = stores (trace st) ++ [MainCode.homePose]
        /\ exists moves,
             trace st' = trace st ++ [SerialPrintln "Resetting to home..."] ++ moves)
  /\ (forall fuel st',
        DebugCode.resetArm fuel st = Done st' ->
        currentPose st' = DebugCode.homePose
        /\ in_sync DebugCode.servoWrites st'
        /\ stores (trace st') = stores (trace st) ++ [DebugCode.homePose]
        /\ exists moves,
             trace st' = trace st ++ [SerialPrintln "Resetting to home..."] ++ moves
                           ++ [SerialPrintln "At home pose."]).
Proof.
  assert (Hms : forall p, Forall (fun m => 1 < motion_step m) [MoveTo p 10 3]).
  { intros p. repeat constructor. }
  split; [|split; [|split]].
  - destruct (terminates_of_did MainCode.servoWrites lerp_implicit
                [SerialPrintln "Resetting to home..."] []
                [MoveTo MainCode.homePose 10 3] st (Hms _)) as [st' [_ [fuel H]]].
    exists st', fuel. rewrite main_resetArm_motions. exact H.
  - destruct (terminates_of_did DebugCode.servoWrites lerp_cast
                [SerialPrintln "Resetting to home..."]
                [SerialPrintln "At home pose."]
                [MoveTo DebugCode.homePose 10 3] st (Hms _)) as [st' [_ [fuel H]]].
    exists st', fuel. rewrite debug_resetArm_motions. exact H.
  - intros fuel st' H. rewrite main_resetArm_motions in H.
    apply did_done in H. split; [|split; [|split]].
    + rewrite (did_currentPose _ _ _ _ _ _ _ H). reflexivity.
    + apply (did_resyncs _ _ [SerialPrintln "Resetting to home..."] []
               [MoveTo MainCode.homePose 10 3] main_writes_all eq_refl _ _
               ltac:(discriminate) H).
    + exact (did_stores _ _ [SerialPrintln "Resetting to home..."] []
               [MoveTo MainCode.homePose 10 3] main_no_store eq_refl eq_refl
               _ _ H).
    + destruct (did_trace _ _ _ _ _ _ _ H) as [moves [E _]].
      exists moves. rewrite E, app_nil_r. reflexivity.
  - intros fuel st' H. rewrite debug_resetArm_motions in H.
    apply did_done in H. split; [|split; [|split]].
    + rewrite (did_currentPose _ _ _ _ _ _ _ H). reflexivity.
    + apply (did_resyncs _ _ [SerialPrintln "Resetting to home..."]
               [SerialPrintln "At home pose."]
               [MoveTo DebugCode.homePose 10 3] debug_writes_all eq_refl _ _
               ltac:(discriminate) H).
    + exact (did_stores _ _ [SerialPrintln "Resetting to home..."]
               [SerialPrintln "At home pose."]
               [MoveTo DebugCode.homePose 10 3] debug_no_store eq_refl eq_refl
               _ _ H).
    + destruct (did_trace _ _ _ _ _ _ _ H) as [moves [E _]].
      exists moves. exact E.
Qed.

(** X8.  Each of the four tasks returns from every state; it stores its
    eight way points in order (above the object, at the object, there
    with the gripper closed, lifted, above the box, the release pose,
    there with the gripper open, home) and ends with [currentPose] at the
    home pose and every servo last sent the home angles. *)
Theorem tasks_visit_their_waypoints
    (task : nat -> state -> outcome) (points : list Pose) (st : state) :
  In (task, points) main_tasks ->
  (exists st', terminates (fun fuel => task fuel st) st')
  /\ forall fuel st',
       task fuel st = Done st' ->
       stores (trace st') = stores (trace st) ++ points
       /\ currentPose st' = MainCode.homePose
       /\ in_sync MainCode.servoWrites st'.
Proof.
  intros Hin.
  destruct (main_task_cases task points Hin)
    as [intro [outro [a [g [l [b [r [-> [Pi [Po Htask]]]]]]]]]].
  split.
  - destruct (terminates_of_did MainCode.servoWrites lerp_implicit intro outro
                (task_motions a g l b r) st (task_motions_steps a g l b r))
      as [st' [_ [fuel H]]].
    exists st', fuel. rewrite Htask. exact H.
  - intros fuel st' H. rewrite Htask in H. apply did_done in H.
    split; [|split].
    + exact (did_stores _ _ intro outro _ main_no_store Pi Po _ _ H).
    + rewrite (did_currentPose _ _ _ _ _ _ _ H). reflexivity.
    + apply (did_resyncs _ _ intro outro (task_motions a g l b r)
               main_writes_all Po _ _ ltac:(discriminate) H).
Qed.

Lemma tasks_visit_their_waypoints_witness :
  In (MainCode.task1,
      waypoints MainCode.t1_aboveObj MainCode.t1_grabObj MainCode.t1_liftObj
        MainCode.t1_aboveBox MainCode.t1_release) main_tasks
  /\ exists st',
       MainCode.task1 25 MainCode.boot = Done st'
       /\ stores (trace st') =
          [ mkPose 60 70 110 80 90; mkPose 60 80 120 80 90;
            mkPose 60 80 120 80 40; mkPose 60 60 100 80 40;
            mkPose 100 65 105 80 40; mkPose 100 65 105 80 90;
            mkPose 100 65 105 80 90; mkPose 90 90 90 90 90 ]
       /\ currentPose st' = MainCode.homePose.
Proof.
  assert (Hin : In (MainCode.task1,
                    waypoints MainCode.t1_aboveObj MainCode.t1_grabObj
                      MainCode.t1_liftObj MainCode.t1_aboveBox
                      MainCode.t1_release) main_tasks) by (left; reflexivity).
  split; [exact Hin|].
  assert (E : exists st', MainCode.task1 25 MainCode.boot = Done st')
    by (vm_compute; eexists; reflexivity).
  destruct E as [st' E]. exists st'. split; [exact E|].
  destruct (proj2 (tasks_visit_their_waypoints _ _ MainCode.boot Hin) 25%nat st' E)
    as [Hs [Hc _]].
  split; [exact Hs|exact Hc].
Defined.

(** X9.  [loop] of [Main_Code.ino] does nothing when no byte has arrived,
    takes a line feed or carriage return without any output, and for a
    byte that is no command prints what it received, the unknown-command
    line and the ready line: no servo is written and [currentPose] is
    not touched. *)
Theorem main_loop_without_a_command
    (fuel : nat) (cmd : ascii) (input : list ascii) (st : state) :
  MainCode.loop fuel [] st = ([], Done st)
  /\ (is_line_end cmd = true ->
      MainCode.loop fuel (cmd :: input) st = (input, Done st))
  /\ (is_line_end cmd = false -> main_known cmd = false ->
      MainCode.loop fuel (cmd :: input) st =
      (input,
       Done (mkState (currentPose st)
               (trace st ++
                [ SerialPrint "Received command: ";
                  SerialPrintln (String cmd EmptyString);
                  SerialPrintln "Unknown command. Use 1,2,3,4,r.";
                  SerialPrintln "Ready for next command: 1,2,3,4,r" ])))).
Proof.
  split; [reflexivity|]. split.
  - apply main_loop_line_end.
  - intros Hl Hk. rewrite (main_loop_command _ _ _ _ Hl).
    rewrite (main_command_unknown cmd Hk). cbn [fst snd run_motions and_then].
    rewrite emit_emit. reflexivity.
Qed.

Lemma main_loop_without_a_command_witness :
  is_line_end "x" = false /\ main_known "x" = false
  /\ is_line_end "010" = true
  /\ MainCode.loop 0 (list_ascii_of_string "x1") MainCode.boot =
     (["1"%char],
      Done (mkState MainCode.homePose
              [ SerialPrint "Received command: "; SerialPrintln "x";
                SerialPrintln "Unknown command. Use 1,2,3,4,r.";
                SerialPrintln "Ready for next command: 1,2,3,4,r" ]))
  /\ MainCode.loop 0 ("010"%char :: ["1"%char]) MainCode.boot
     = (["1"%char], Done MainCode.boot).
Proof.
  split; [reflexivity|]. split; [reflexivity|]. split; [reflexivity|]. split.
  - exact (proj2 (proj2 (main_loop_without_a_command 0 "x" ["1"%char] MainCode.boot))
             eq_refl eq_refl).
  - exact (proj1 (proj2 (main_loop_without_a_command 0 "010" ["1"%char]
                           MainCode.boot)) eq_refl).
Defined.

(** X10.  Each command byte of [Main_Code.ino] (1, 2, 3, 4, r, R) makes
    [loop] return from every state, with only that byte taken from the
    input, [currentPose] at the home pose, every servo last sent the home
    angles, and the ready line printed last. *)
Theorem main_commands_end_at_home (cmd : ascii) (input : list ascii) (st : state) :
  main_known cmd = true ->
  (exists fuel st', MainCode.loop fuel (cmd :: input) st = (input, Done st'))
  /\ forall fuel rest st',
       MainCode.loop fuel (cmd :: input) st = (rest, Done st') ->
       rest = input
       /\ currentPose st' = MainCode.homePose
       /\ in_sync MainCode.servoWrites st'
       /\ exists before,
            trace st' =
            before ++ [SerialPrintln "Ready for next command: 1,2,3,4,r"].
Proof.
  intros Hk. pose proof (main_known_no_line_end cmd Hk) as Hl.
  destruct (main_command_prints cmd) as [Pi Po].
  split.
  - destruct (main_looped_exists (cmd :: input) st) as [rest [st' H]].
    exists big_fuel, st'.
    pose proof (main_loop_runs big_fuel _ _ _ _ H (Nat.le_refl _)) as R.
    destruct H as [-> _]. exact R.
  - intros fuel rest st' H. apply main_loop_done in H.
    cbn [main_looped] in H. rewrite Hl in H. destruct H as [-> H].
    split; [reflexivity|]. split; [|split].
    + rewrite (did_currentPose _ _ _ _ _ _ _ H).
      apply (main_command_known cmd _ Hk).
    + apply (did_resyncs _ _ (fst (fst (main_command cmd)))
               (snd (main_command cmd)) (snd (fst (main_command cmd)))
               main_writes_all Po _ _ (main_command_moves cmd Hk) H).
    + destruct (did_trace _ _ _ _ _ _ _ H) as [moves [E _]].
      destruct (proj2 (main_command_known cmd (currentPose st) Hk)) as [b Hb].
      rewrite E, Hb. eexists. rewrite !app_assoc. reflexivity.
Qed.

Lemma main_commands_end_at_home_witness :
  main_known "R" = true
  /\ exists st',
       MainCode.loop 1 (list_ascii_of_string "R2")
         (mkState (mkPose 92 90 90 90 90) []) = (["2"%char], Done st')
       /\ currentPose st' = MainCode.homePose.
Proof.
  split; [reflexivity|].
  assert (E : exists st',
               MainCode.loop 1 (list_ascii_of_string "R2")
                 (mkState (mkPose 92 90 90 90 90) []) = (["2"%char], Done st'))
    by (vm_compute; eexists; reflexivity).
  destruct E as [st' E]. exists st'. split; [exact E|].
  exact (proj1 (proj2 (proj2 (main_commands_end_at_home "R" ["2"%char]
                                (mkState (mkPose 92 90 90 90 90) []) eq_refl)
                         1%nat _ st' E))).
Defined.

(** X11.  Whatever bytes arrive and whatever state the sketch is in, every
    call of [loop] of [Main_Code.ino] returns: no input makes it divide
    by zero or loop for ever. *)
Theorem main_loop_always_returns (n : nat) (input : list ascii) (st : state) :
  exists fuel rest st', run MainCode.loop n fuel input st = (rest, Done st').
Proof.
  destruct (run_returns MainCode.loop main_looped main_loop_runs
              main_looped_exists n input st) as [rest [st' H]].
  exists big_fuel, rest, st'. apply H, Nat.le_refl.
Qed.

(** X12.  [Main_Code.ino] never clamps the gripper angle, yet its commands
    keep it in range: started with joint values of magnitude at most 2^23,
    a gripper angle between the close and the open angle and a trace
    within the servo ranges, any number of calls of [loop] on any input
    only send angles within the joint limits, and gripper angles between
    the close and the open angle. *)
Theorem main_servos_stay_in_range
    (n fuel : nat) (input rest : list ascii) (st st' : state) :
  small_pose (currentPose st) ->
  MainCode.GRIPPER_CLOSE <= gripper (currentPose st) <= MainCode.GRIPPER_OPEN ->
  within_limits main_limits (trace st) ->
  run MainCode.loop n fuel input st = (rest, Done st') ->
  within_limits main_limits (trace st')
  /\ small_pose (currentPose st')
  /\ MainCode.GRIPPER_CLOSE <= gripper (currentPose st') <= MainCode.GRIPPER_OPEN.
Proof.
  intros Hs Hg Hw Hrun.
  pose proof (run_invariant MainCode.loop main_looped main_loop_done
                (fun st => within_limits main_limits (trace st)
                           /\ calm_pose MainCode.GRIPPER_CLOSE
                                MainCode.GRIPPER_OPEN (currentPose st))
                main_looped_within n fuel input rest st st'
                (conj Hw (conj Hs Hg)) Hrun) as [Hw' [Hs' Hg']].
  split; [exact Hw'|]. split; [exact Hs'|exact Hg'].
Qed.

Lemma main_servos_stay_in_range_witness :
  let st := mkState (mkPose 30 100 150 20 40) [] in
  small_pose (currentPose st)
  /\ MainCode.GRIPPER_CLOSE <= gripper (currentPose st) <= MainCode.GRIPPER_OPEN
  /\ within_limits main_limits (trace st)
  /\ exists rest st',
       run MainCode.loop 3 30 (list_ascii_of_string "r?2") st = (rest, Done st')
       /\ within_limits main_limits (trace st').
Proof.
  intros st.
  assert (Hs : small_pose (currentPose st))
    by (intros []; vm_compute; split; discriminate).
  assert (Hg : MainCode.GRIPPER_CLOSE <= gripper (currentPose st)
               <= MainCode.GRIPPER_OPEN) by (vm_compute; split; discriminate).
  assert (Hw : within_limits main_limits (trace st)) by (intros s a []).
  split; [exact Hs|]. split; [exact Hg|]. split; [exact Hw|].
  assert (E : exists rest st',
               run MainCode.loop 3 30 (list_ascii_of_string "r?2") st
               = (rest, Done st'))
    by (vm_compute; do 2 eexists; reflexivity).
  destruct E as [rest [st' E]]. exists rest, st'. split; [exact E|].
  exact (proj1 (main_servos_stay_in_range 3 30 _ rest st st' Hs Hg Hw E)).
Defined.

(** X13.  After [setup], at every return of [loop] of [Main_Code.ino],
    whatever the input was: [currentPose] is the home pose, every servo
    was last sent what it holds for that pose, and no angle outside the
    joint limits or outside the gripper's span was ever sent. *)
Theorem main_rests_at_home
    (n fuel : nat) (input rest : list ascii) (st' : state) :
  run MainCode.loop n fuel input (snd (MainCode.setup MainCode.boot))
    = (rest, Done st') ->
  currentPose st' = MainCode.homePose
  /\ in_sync MainCode.servoWrites st'
  /\ within_limits main_limits (trace st').
Proof.
  intros Hrun.
  set (st0 := snd (MainCode.setup MainCode.boot)) in *.
  assert (H0 : currentPose st0 = MainCode.homePose) by reflexivity.
  assert (S0 : in_sync MainCode.servoWrites st0) by (intros []; reflexivity).
  assert (W0 : within_limits main_limits (trace st0)).
  { intros s a Hin. destruct s; cbn in Hin;
      destruct Hin as [<-|[]]; vm_compute; split; discriminate. }
  split; [|split].
  - exact (run_invariant MainCode.loop main_looped main_loop_done
             (fun st => currentPose st = MainCode.homePose)
             main_looped_home n fuel input rest st0 st' H0 Hrun).
  - exact (run_invariant MainCode.loop main_looped main_loop_done
             (in_sync MainCode.servoWrites)
             main_looped_in_sync n fuel input rest st0 st' S0 Hrun).
  - assert (C0 : calm_pose MainCode.GRIPPER_CLOSE MainCode.GRIPPER_OPEN
                   (currentPose st0)) by exact main_home_calm.
    exact (proj1 (run_invariant MainCode.loop main_looped main_loop_done
                    (fun st => within_limits main_limits (trace st)
                               /\ calm_pose MainCode.GRIPPER_CLOSE
                                    MainCode.GRIPPER_OPEN (currentPose st))
                    main_looped_within n fuel input rest st0 st'
                    (conj W0 C0) Hrun)).
Qed.

Lemma main_rests_at_home_witness :
  exists rest st',
    run MainCode.loop 4 30 ["3"%char; "010"%char; "r"%char; "013"%char]
      (snd (MainCode.setup MainCode.boot)) = (rest, Done st')
    /\ currentPose st' = MainCode.homePose
    /\ within_limits main_limits (trace st').
Proof.
  assert (E : exists rest st',
               run MainCode.loop 4 30 ["3"%char; "010"%char; "r"%char; "013"%char]
                 (snd (MainCode.setup MainCode.boot)) = (rest, Done st'))
    by (vm_compute; do 2 eexists; reflexivity).
  destruct E as [rest [st' E]]. exists rest, st'. split; [exact E|].
  destruct (main_rests_at_home 4 30 _ rest st' E) as [Hc [_ Hw]].
  split; [exact Hc|exact Hw].
Defined.

(** X14.  Line feeds and carriage returns in the input of
    [Main_Code.ino] make no difference: running [loop] once for every
    byte ends in the same state, or stops in the same way, as on the
    input with these bytes taken out. *)
Theorem main_line_ends_make_no_difference
    (fuel : nat) (input : list ascii) (st : state) :
  snd (run MainCode.loop (List.length input) fuel input st)
  = snd (run MainCode.loop (List.length input) fuel (without_line_ends input) st).
Proof. apply main_run_filtered, Nat.le_refl. Qed.

(** X15.  [loop] of the debug sketch does nothing when no byte has
    arrived, takes a line feed or carriage return without any output, and
    for a byte that is no command prints what it received, the four lines
    of the unknown-command help and the ready line; the rest of the input
    stays, no servo is written and [currentPose] is not touched. *)
Theorem debug_loop_without_a_command
    (fuel : nat) (cmd : ascii) (input : list ascii) (st : state) :
  DebugCode.loop fuel [] st = ([], Done st)
  /\ (is_line_end cmd = true ->
      DebugCode.loop fuel (cmd :: input) st = (input, Done st))
  /\ (is_line_end cmd = false -> debug_known cmd = false ->
      DebugCode.loop fuel (cmd :: input) st =
      (input,
       Done (mkState (currentPose st)
               (trace st ++
                [ SerialPrint "Received command: ";
                  SerialPrintln (String cmd EmptyString);
                  SerialPrintln "Unknown command.";
                  SerialPrintln "Use:";
                  SerialPrintln "  r";
                  SerialPrintln "  d base shoulder elbow wrist gripper";
                  SerialPrintln "Ready for next command." ])))).
Proof.
  split; [reflexivity|]. split.
  - apply debug_loop_line_end.
  - intros Hl Hk. rewrite (debug_loop_command _ _ _ _ Hl).
    rewrite (debug_command_unknown cmd input Hk).
    cbn [fst snd run_motions and_then].
    rewrite emit_emit. reflexivity.
Qed.

Lemma debug_loop_without_a_command_witness :
  is_line_end "1" = false /\ debug_known "1" = false
  /\ is_line_end "013" = true
  /\ DebugCode.loop 0 (list_ascii_of_string "1r") DebugCode.boot =
     (["r"%char],
      Done (mkState DebugCode.homePose
              [ SerialPrint "Received command: "; SerialPrintln "1";
                SerialPrintln "Unknown command."; SerialPrintln "Use:";
                SerialPrintln "  r";
                SerialPrintln "  d base shoulder elbow wrist gripper";
                SerialPrintln "Ready for next command." ]))
  /\ DebugCode.loop 0 ("013"%char :: ["r"%char]) DebugCode.boot
     = (["r"%char], Done DebugCode.boot).
Proof.
  split; [reflexivity|]. split; [reflexivity|]. split; [reflexivity|]. split.
  - exact (proj2 (proj2 (debug_loop_without_a_command 0 "1" ["r"%char]
                           DebugCode.boot)) eq_refl eq_refl).
  - exact (proj1 (proj2 (debug_loop_without_a_command 0 "013" ["r"%char]
                           DebugCode.boot)) eq_refl).
Defined.

(** X16.  The [d] command of the debug sketch takes the rest of its line:
    the bytes up to the next line feed are handed to [debugMove] and,
    with the line feed, removed from the input, so no byte of the
    parameters is read as a command; without a line feed all input is
    taken.  When the parameters do not scan as five numbers the format
    error and the ready line are printed and the arm stays where it is. *)
Theorem debug_d_takes_its_line
    (fuel : nat) (cmd : ascii) (line rest : list ascii) (st : state) :
  cmd = "d"%char \/ cmd = "D"%char ->
  ~ In "010"%char line ->
  DebugCode.loop fuel (cmd :: line ++ "010"%char :: rest) st =
    (rest,
     and_then
       (DebugCode.debugMove fuel (string_of_list_ascii line)
          (emit (received cmd) st))
       (fun st => Done (emit [SerialPrintln "Ready for next command."] st)))
  /\ DebugCode.loop fuel (cmd :: line) st =
    ([],
     and_then
       (DebugCode.debugMove fuel (string_of_list_ascii line)
          (emit (received cmd) st))
       (fun st => Done (emit [SerialPrintln "Ready for next command."] st)))
  /\ (DebugCode.sscanf_count (DebugCode.trim line) <> 5 ->
      DebugCode.loop fuel (cmd :: line ++ "010"%char :: rest) st =
        (rest,
         Done (mkState (currentPose st)
                 (trace st ++ received cmd ++ DebugCode.format_error
                    ++ [SerialPrintln "Ready for next command."])))).
Proof.
  intros Hcmd Hline.
  destruct (readStringUntil_line "010" line rest Hline) as [R1 R2].
  assert (L1 : DebugCode.loop fuel (cmd :: line ++ "010"%char :: rest) st =
    (rest,
     and_then
       (DebugCode.debugMove fuel (string_of_list_ascii line)
          (emit (received cmd) st))
       (fun st => Done (emit [SerialPrintln "Ready for next command."] st)))).
  { rewrite (debug_loop_d fuel cmd _ st Hcmd), R1. reflexivity. }
  split; [exact L1|]. split.
  - rewrite (debug_loop_d fuel cmd _ st Hcmd), R2. reflexivity.
  - intros Hbad. rewrite L1. f_equal.
    rewrite debugMove_rejects
      by (rewrite list_ascii_of_string_of_list_ascii; exact Hbad).
    cbn [and_then]. rewrite !emit_emit. reflexivity.
Qed.

Lemma debug_d_takes_its_line_witness :
  let line := list_ascii_of_string " 90 80 x" in
  ~ In "010"%char line
  /\ DebugCode.sscanf_count (DebugCode.trim line) <> 5
  /\ DebugCode.loop 0 ("d"%char :: line ++ "010"%char :: ["r"%char])
       DebugCode.boot =
     (["r"%char],
      Done (mkState DebugCode.homePose
              (received "d" ++ DebugCode.format_error
                 ++ [SerialPrintln "Ready for next command."]))).
Proof.
  intros line.
  assert (Hl : ~ In "010"%char line).
  { cbn. intros H. repeat (destruct H as [H|H]; [discriminate H|]). exact H. }
  assert (Hb : DebugCode.sscanf_count (DebugCode.trim line) <> 5)
    by (vm_compute; discriminate).
  split; [exact Hl|]. split; [exact Hb|].
  exact (proj2 (proj2 (debug_d_takes_its_line 0 "d" line ["r"%char] DebugCode.boot
                         (or_introl eq_refl) Hl)) Hb).
Defined.

(** X17.  A [d] line written as [Serial.println] writes numbers, five
    [int] values in decimal with a space between them, is read back as
    exactly these values: [debugMove] reports them and moves to the pose
    they name. *)
Theorem debugMove_reads_decimal_numbers
    (fuel : nat) (b s e w g : Z) (st : state) :
  Int32.in_range b -> Int32.in_range s -> Int32.in_range e ->
  Int32.in_range w -> Int32.in_range g ->
  DebugCode.debugMove fuel (string_of_list_ascii (debug_line b s e w g)) st =
  DebugCode.moveToPose fuel (mkPose b s e w g) 8 2
    (emit (DebugCode.debug_report b s e w g) st).
Proof.
  intros Hb Hs He Hw Hg.
  assert (Hscan : DebugCode.scan_ints 5
                    (DebugCode.trim
                       (list_ascii_of_string
                          (string_of_list_ascii (debug_line b s e w g))))
                  = [b; s; e; w; g]).
  { rewrite list_ascii_of_string_of_list_ascii, debug_line_trim by assumption.
    apply debug_line_scans; assumption. }
  rewrite debugMove_accepts.
  - cbv zeta. rewrite Hscan. reflexivity.
  - unfold DebugCode.sscanf_count. rewrite Hscan. reflexivity.
Qed.

Lemma debugMove_reads_decimal_numbers_witness :
  Int32.in_range 180 /\ Int32.in_range (-2147483648) /\ Int32.in_range 0
  /\ debug_line 180 (-2147483648) 0 45 2147483647
     = list_ascii_of_string "180 -2147483648 0 45 2147483647"
  /\ DebugCode.debugMove 1
       "180 -2147483648 0 45 2147483647"
       (mkState (mkPose 180 (-2147483648) 0 45 2147483647) []) =
     DebugCode.moveToPose 1 (mkPose 180 (-2147483648) 0 45 2147483647) 8 2
       (emit (DebugCode.debug_report 180 (-2147483648) 0 45 2147483647)
          (mkState (mkPose 180 (-2147483648) 0 45 2147483647) [])).
Proof.
  assert (R : forall n, Int32.INT_MIN <= n <= Int32.INT_MAX -> Int32.in_range n)
    by (intros n H; exact H).
  split; [apply R; vm_compute; split; discriminate|].
  split; [apply R; vm_compute; split; discriminate|].
  split; [apply R; vm_compute; split; discriminate|].
  split; [reflexivity|].
  apply (debugMove_reads_decimal_numbers 1 180 (-2147483648) 0 45 2147483647);
    apply R; vm_compute; split; discriminate.
Defined.

(** X18.  Whatever bytes arrive and whatever state the debug sketch is
    in, every call of its [loop] returns: no input, not even a [d] line
    with arbitrary numbers, makes it divide by zero or loop for ever. *)
Theorem debug_loop_always_returns (n : nat) (input : list ascii) (st : state) :
  exists fuel rest st', run DebugCode.loop n fuel input st = (rest, Done st').
Proof.
  destruct (run_returns DebugCode.loop debug_looped debug_loop_runs
              debug_looped_exists n input st) as [rest [st' H]].
  exists big_fuel, rest, st'. apply H, Nat.le_refl.
Qed.

(** X19.  Calls of [loop] of the debug sketch, on any input and from any
    state, only send angles within the joint limits and the gripper's
    span, whatever numbers a [d] line names; and if every servo was last
    sent what it holds for [currentPose] before, it is so afterwards. *)
Theorem debug_servos_stay_in_range
    (n fuel : nat) (input rest : list ascii) (st st' : state) :
  run DebugCode.loop n fuel input st = (rest, Done st') ->
  (within_limits debug_limits (trace st) ->
   within_limits debug_limits (trace st'))
  /\ (in_sync DebugCode.servoWrites st -> in_sync DebugCode.servoWrites st').
Proof.
  intros Hrun. split; intros H0.
  - exact (run_invariant DebugCode.loop debug_looped debug_loop_done
             (fun st => within_limits debug_limits (trace st))
             debug_looped_within n fuel input rest st st' H0 Hrun).
  - exact (run_invariant DebugCode.loop debug_looped debug_loop_done
             (in_sync DebugCode.servoWrites)
             debug_looped_in_sync n fuel input rest st st' H0 Hrun).
Qed.

Lemma debug_servos_stay_in_range_witness :
  let st := snd (DebugCode.setup DebugCode.boot) in
  within_limits debug_limits (trace st)
  /\ in_sync DebugCode.servoWrites st
  /\ exists rest st',
       run DebugCode.loop 2 70
         (list_ascii_of_string "d 200 -5 100 45 130") st = (rest, Done st')
       /\ currentPose st' = mkPose 200 (-5) 100 45 130
       /\ within_limits debug_limits (trace st')
       /\ in_sync DebugCode.servoWrites st'.
Proof.
  intros st.
  assert (W0 : within_limits debug_limits (trace st)).
  { intros s a Hin. destruct s; cbn in Hin;
      destruct Hin as [<-|[]]; vm_compute; split; discriminate. }
  assert (S0 : in_sync DebugCode.servoWrites st) by (intros []; reflexivity).
  split; [exact W0|]. split; [exact S0|].
  assert (E : exists rest st',
               run DebugCode.loop 2 70
                 (list_ascii_of_string "d 200 -5 100 45 130") st
               = (rest, Done st')
               /\ currentPose st' = mkPose 200 (-5) 100 45 130)
    by (vm_compute; do 2 eexists; split; reflexivity).
  destruct E as [rest [st' [E Hc]]]. exists rest, st'.
  split; [exact E|]. split; [exact Hc|].
  destruct (debug_servos_stay_in_range 2 70 _ rest st st' E) as [Hw Hs].
  split; [exact (Hw W0)|exact (Hs S0)].
Defined.
